(** * Sequential GUID generator: a shallow embedding of
      [src/SequentialGuidGenerator.ts] and the properties of its specification.

    Conventions of the embedding.
    - A JavaScript number is a double.  One that is known to hold an integer
      (a time value, a tick, a sequence, a field read from a buffer) is kept
      as the [Z] it denotes; a time value is an integer of magnitude at most
      8.64e15, which a double holds exactly.
    - Where the source computes with [-], [*], [/] and [+] on numbers
      ([getTimestamp] and [extractTimestamp]) the operations are those of
      binary64: the exact result, rounded to the nearest double, ties to
      even ([Float64]).  The product [milliseconds * 10000] is exact for
      [|milliseconds| < 2^53 / 625] and rounded beyond.
    - The 32-bit operators [>>>], [<<], [&] and [|] are written out with their
      [ToUint32] / [ToInt32] conversions.
    - A [Buffer] is a [list byte]; a JavaScript string is a [list ascii]
      (code units above 255 are not represented; the validator treats them as
      it treats any other character that is not a hexadecimal digit).
    - A thrown exception is the [Throw] outcome; the busy-wait of
      [getTimestamp] is bounded by a fuel and [Spinning] is the outcome of a
      call that is still waiting when the fuel is spent.
    - The wall clock and the random source are oracles held in a [World]:
      the k-th call of [Date.now()] returns [clock k], the k-th random byte
      drawn is [entropy k]. *)

From Stdlib Require Import String Ascii Bool Arith ZArith Lia.
From Stdlib Require Import QArith Qround Qabs Qreduction.
From Stdlib Require Qcanon.
From Stdlib Require Import Floats.SpecFloat.
From Stdlib Require Import Strings.Byte.
From Stdlib Require Import List Sorted.
Import ListNotations.

Local Open Scope Z_scope.

(* ------------------------------------------------------------------ *)
(** ** JavaScript numbers and the 32-bit operators *)

Module JS.

Definition two32 : Z := 4294967296.
Definition two31 : Z := 2147483648.

Definition ToUint32 (x : Z) : Z := x mod two32.

Definition ToInt32 (x : Z) : Z :=
  let u := x mod two32 in
  if two31 <=? u then u - two32 else u.

(** [x >>> n] *)
Definition ushr (x n : Z) : Z := Z.shiftr (ToUint32 x) (n mod 32).

(** [x << n] *)
Definition shl (x n : Z) : Z := ToInt32 (Z.shiftl (ToInt32 x) (n mod 32)).

(** [x & y] *)
Definition band (x y : Z) : Z := Z.land (ToInt32 x) (ToInt32 y).

(** [x | y] *)
Definition bor (x y : Z) : Z := Z.lor (ToInt32 x) (ToInt32 y).

(** A JavaScript string, and a literal of it. *)
Definition str : Type := list ascii.
Definition lit (s : string) : str := list_ascii_of_string s.

(** [String.prototype.toUpperCase], on the ASCII range (the source applies it
    to the output of a hexadecimal encoder only). *)
Definition toUpperCaseChar (c : ascii) : ascii :=
  let n := nat_of_ascii c in
  if ((97 <=? n) && (n <=? 122))%nat then ascii_of_nat (n - 32) else c.

Definition toUpperCase (s : str) : str := map toUpperCaseChar s.

(** [Array.prototype.join] *)
Fixpoint join (sep : str) (parts : list str) : str :=
  match parts with
  | [] => []
  | [p] => p
  | p :: rest => p ++ sep ++ join sep rest
  end.

(** [s.replace(/c/g, '')] for a one-character pattern. *)
Definition removeAll (c : ascii) (s : str) : str :=
  filter (fun d => negb (Ascii.eqb d c)) s.

(** Exceptions.  The source throws [Error] with a message; the Buffer
    accessors of the runtime throw a [RangeError]. *)
Inductive exn : Type :=
| Error (message : string)
| RangeError.

Inductive outcome (A : Type) : Type :=
| Ret (a : A)
| Throw (e : exn)
| Spinning.

Arguments Ret {A} a.
Arguments Throw {A} e.
Arguments Spinning {A}.

Definition bind {A B : Type} (m : outcome A) (k : A -> outcome B) : outcome B :=
  match m with
  | Ret a => k a
  | Throw e => Throw e
  | Spinning => Spinning
  end.

End JS.

Notation "x <- m ;; k" := (JS.bind m (fun x => k))
  (at level 61, m at next level, right associativity).
Notation "' p <- m ;; k" := (JS.bind m (fun x => let p := x in k))
  (at level 61, p pattern, m at next level, right associativity).

(* ------------------------------------------------------------------ *)
(** ** Double-precision arithmetic

    A finite double is the rational number it denotes.  An operation
    returns the double nearest to its exact result, the one with the even
    significand when two are equally near (IEEE 754 roundTiesToEven, the
    only rounding JavaScript has).  A double has a significand of 53 bits
    and a unit in the last place of at least 2^-1074.  Overflow to an
    infinity, which needs a magnitude of 2^1024, is out of reach of the
    numbers computed here (time values and 32-bit integers, scaled by
    10000) and is not represented. *)

Module Float64.

(** The integer nearest to [n / d], for [d > 0]; the even one on a tie. *)
Definition nearest_even (n d : Z) : Z :=
  let q := n / d in
  match 2 * (n mod d) ?= d with
  | Lt => q
  | Gt => q + 1
  | Eq => if Z.even q then q else q + 1
  end.

(** The integral part of the binary logarithm of [n / d], for [n, d > 0]. *)
Definition ilog2 (n d : Z) : Z :=
  let k := Z.log2 n - Z.log2 d in
  if (if 0 <=? k then d * 2 ^ k <=? n else d <=? n * 2 ^ (- k)) then k else k - 1.

(** The double nearest to [a / d], for [a, d > 0], as a significand [m]
    and an exponent [e]: it is [m * 2^e], where [2^e] is the unit in the
    last place of the binade of [a / d]. *)
Definition nearest (a d : Z) : Z * Z :=
  let e := Z.max (ilog2 a d - 52) (-1074) in
  (if 0 <=? e then nearest_even a (d * 2 ^ e) else nearest_even (a * 2 ^ (- e)) d, e).

(** The rational [m * 2^e]. *)
Definition dyadic (m e : Z) : Q :=
  if 0 <=? e then inject_Z (m * 2 ^ e) else Qmake m (Z.to_pos (2 ^ (- e))).

(** The double nearest to [x], in lowest terms. *)
Definition round (x : Q) : Q :=
  let x := Qred x in
  match Qnum x with
  | 0 => 0%Q
  | Zpos a => let (m, e) := nearest (Zpos a) (Zpos (Qden x)) in Qred (dyadic m e)
  | Zneg a => let (m, e) := nearest (Zpos a) (Zpos (Qden x)) in Qred (dyadic (- m) e)
  end.

(** [x + y], [x - y], [x * y] and [x / y] on doubles. *)
Definition add (x y : Q) : Q := round (x + y).
Definition sub (x y : Q) : Q := round (x - y).
Definition mul (x y : Q) : Q := round (x * y).
Definition div (x y : Q) : Q := round (x / y).

(** [Math.floor] *)
Definition floor (x : Q) : Z := Qfloor x.

(** The same operations through the specification of IEEE 754 arithmetic
    of the Standard Library ([SpecFloat], instantiated at binary64); the
    examples of [Float64Examples] compare the two. *)
Definition of_Z (z : Z) : spec_float := binary_normalize 53 1024 z 0 false.

Definition to_Q (f : spec_float) : option Q :=
  match f with
  | S754_zero _ => Some 0%Q
  | S754_finite s m e => Some (Qred (dyadic (if s then Zneg m else Zpos m) e))
  | _ => None
  end.

End Float64.

(* ------------------------------------------------------------------ *)
(** ** Regular expressions: the fragment the validator uses

    A pattern anchored by [^] and [$] whose body is a sequence of atoms,
    each repeated a fixed number of times.  With fixed counts the matcher
    needs no backtracking.  [$] without the [m] flag matches at the end of
    the input only. *)

Module RegExp.

Inductive atom : Type :=
| CharClass (ranges : list (ascii * ascii))
| Literal (c : ascii).

Record regex : Type := {
  body : list (atom * nat);
  ignoreCase : bool
}.

(** [Canonicalize] of the language definition (no [u] flag): a character is
    upper-cased, except that a character of code 128 or more is never mapped
    to one below 128. *)
Definition Canonicalize (ic : bool) (ch : ascii) : ascii :=
  if ic then JS.toUpperCaseChar ch else ch.

Definition range_chars (r : ascii * ascii) : list ascii :=
  let lo := nat_of_ascii (fst r) in
  let hi := nat_of_ascii (snd r) in
  map ascii_of_nat (seq lo (S hi - lo)).

Definition atom_matches (ic : bool) (a : atom) (ch : ascii) : bool :=
  let cc := Canonicalize ic ch in
  match a with
  | Literal c => Ascii.eqb (Canonicalize ic c) cc
  | CharClass ranges =>
      existsb (fun r => existsb (fun d => Ascii.eqb (Canonicalize ic d) cc)
                                (range_chars r)) ranges
  end.

Definition atoms (r : regex) : list atom :=
  concat (map (fun an => repeat (fst an) (snd an)) (body r)).

Fixpoint match_atoms (ic : bool) (p : list atom) (s : JS.str) : bool :=
  match p, s with
  | [], [] => true
  | a :: p', ch :: s' => atom_matches ic a ch && match_atoms ic p' s'
  | _, _ => false
  end.

(** [regex.test(s)] *)
Definition test (r : regex) (s : JS.str) : bool :=
  match_atoms (ignoreCase r) (atoms r) s.

End RegExp.

(* ------------------------------------------------------------------ *)
(** ** Buffers *)

Module Buffer.

Definition t : Type := list byte.

Definition byte_to_Z (b : byte) : Z := Z.of_N (Byte.to_N b).

Definition byte_of_Z (z : Z) : byte :=
  match Byte.of_N (Z.to_N (z mod 256)) with
  | Some b => b
  | None => x00
  end.

(** [Buffer.alloc(n)] *)
Definition alloc (n : nat) : t := repeat x00 n.

Definition splice (buf : t) (offset : nat) (bytes : list byte) : t :=
  firstn offset buf ++ bytes ++ skipn (offset + length bytes) buf.

(** [buf.writeUInt16BE(value, offset)]: a [RangeError] when the value is not
    in [0, 65535] or the two bytes do not fit. *)
Definition writeUInt16BE (buf : t) (value : Z) (offset : nat) : JS.outcome t :=
  if ((0 <=? value) && (value <=? 65535))%Z && (offset + 2 <=? length buf)%nat
  then JS.Ret (splice buf offset
                 [byte_of_Z (value / 256); byte_of_Z value])
  else JS.Throw JS.RangeError.

(** [buf.writeUInt32BE(value, offset)] *)
Definition writeUInt32BE (buf : t) (value : Z) (offset : nat) : JS.outcome t :=
  if ((0 <=? value) && (value <=? 4294967295))%Z && (offset + 4 <=? length buf)%nat
  then JS.Ret (splice buf offset
                 [byte_of_Z (value / 16777216); byte_of_Z (value / 65536);
                  byte_of_Z (value / 256); byte_of_Z value])
  else JS.Throw JS.RangeError.

Fixpoint be_value (bytes : list byte) (acc : Z) : Z :=
  match bytes with
  | [] => acc
  | b :: rest => be_value rest (acc * 256 + byte_to_Z b)
  end.

Definition read_be (buf : t) (offset n : nat) : JS.outcome Z :=
  if (offset + n <=? length buf)%nat
  then JS.Ret (be_value (firstn n (skipn offset buf)) 0)
  else JS.Throw JS.RangeError.

(** [buf.readUInt16BE(offset)] and [buf.readUInt32BE(offset)] *)
Definition readUInt16BE (buf : t) (offset : nat) : JS.outcome Z := read_be buf offset 2.
Definition readUInt32BE (buf : t) (offset : nat) : JS.outcome Z := read_be buf offset 4.

(** [source.copy(target, targetStart)]: copies what fits; the result is the
    target after the call. *)
Definition copy (source target : t) (targetStart : nat) : t :=
  let n := Nat.min (length source) (length target - targetStart) in
  splice target targetStart (firstn n source).

Definition hexDigit (n : Z) : ascii :=
  nth (Z.to_nat n) (JS.lit "0123456789abcdef") "0"%char.

Definition byte_hex (b : byte) : JS.str :=
  [hexDigit (byte_to_Z b / 16); hexDigit (byte_to_Z b mod 16)].

(** [buf.toString('hex', start, end)] *)
Definition toString_hex (buf : t) (start stop : nat) : JS.str :=
  concat (map byte_hex (firstn (stop - start) (skipn start buf))).

Definition hexValue (c : ascii) : option Z :=
  let n := nat_of_ascii c in
  if ((48 <=? n) && (n <=? 57))%nat then Some (Z.of_nat (n - 48))
  else if ((97 <=? n) && (n <=? 102))%nat then Some (Z.of_nat (n - 87))
  else if ((65 <=? n) && (n <=? 70))%nat then Some (Z.of_nat (n - 55))
  else None.

(** [Buffer.from(s, 'hex')]: pairs of digits are decoded until the first pair
    that is not two hexadecimal digits; a trailing single character is
    dropped. *)
Fixpoint from_hex (s : JS.str) : t :=
  match s with
  | c1 :: c2 :: rest =>
      match hexValue c1, hexValue c2 with
      | Some h, Some l => byte_of_Z (16 * h + l) :: from_hex rest
      | _, _ => []
      end
  | _ => []
  end.

(** Lexicographic order on byte sequences (the order of [Buffer.compare]). *)
Fixpoint lex_le (a b : list byte) : bool :=
  match a, b with
  | [], _ => true
  | _ :: _, [] => false
  | x :: a', y :: b' =>
      if byte_to_Z x <? byte_to_Z y then true
      else if byte_to_Z y <? byte_to_Z x then false
      else lex_le a' b'
  end.

End Buffer.

(* ------------------------------------------------------------------ *)
(** ** The world: wall clock and random source *)

Record World : Type := {
  clock : nat -> Z;       (* reading of the k-th call of Date.now() *)
  reads : nat;            (* calls of Date.now() made so far *)
  entropy : nat -> byte;  (* the k-th random byte *)
  drawn : nat             (* random bytes drawn so far *)
}.

(** [Date.now()] *)
Definition Date_now (w : World) : Z * World :=
  (clock w (reads w),
   {| clock := clock w; reads := S (reads w);
      entropy := entropy w; drawn := drawn w |}).

(** [randomBytes(n)] of the crypto module *)
Definition randomBytes (n : nat) (w : World) : Buffer.t * World :=
  (map (entropy w) (seq (drawn w) n),
   {| clock := clock w; reads := reads w;
      entropy := entropy w; drawn := (drawn w + n)%nat |}).

(** A [Date] is its time value in milliseconds; [None] is an invalid date.
    [new_Date value] is [new Date(value)] for a finite number: the time clip
    keeps the integral part (towards zero) of a value within 8.64e15 ms of
    1970, and gives an invalid date beyond. *)
Definition Date : Type := option Z.

Definition new_Date (value : Q) : Date :=
  if Qle_bool (Qabs value) (inject_Z 8640000000000000)
  then Some (Z.quot (Qnum value) (Zpos (Qden value)))
  else None.

(* ------------------------------------------------------------------ *)
(** ** The generator *)

Record GuidGeneratorOptions : Type := {
  opt_machineId : option Buffer.t;
  opt_epoch : option Z
}.

Record SequentialGuidGenerator : Type := {
  machineId : Buffer.t;
  epoch : Z;               (* epoch.getTime() *)
  lastTimestamp : Z;
  sequence : Z
}.

Definition set_sequence (g : SequentialGuidGenerator) (s : Z) :=
  {| machineId := machineId g; epoch := epoch g;
     lastTimestamp := lastTimestamp g; sequence := s |}.

Definition set_lastTimestamp (g : SequentialGuidGenerator) (t : Z) :=
  {| machineId := machineId g; epoch := epoch g;
     lastTimestamp := t; sequence := sequence g |}.

(** [new Date('1900-01-01T00:00:00Z').getTime()] *)
Definition EPOCH : Z := -2208988800000.
Definition TICKS_PER_MILLISECOND : Z := 10000.

(** The three failures of the specification are the three messages the
    source throws. *)
Definition InvalidMachineId : JS.exn := JS.Error "Machine ID must be exactly 4 bytes".
Definition InvalidCount : JS.exn := JS.Error "Count must be a positive number".
Definition InvalidFormat : JS.exn := JS.Error "Invalid GUID format".

Definition generateMachineId (w : World) : Buffer.t * World :=
  let id := Buffer.alloc 4 in
  let (r, w1) := randomBytes 4 w in
  (Buffer.copy r id 0, w1).

(** [new SequentialGuidGenerator(options)].  A Buffer and a Date are objects,
    hence truthy: [||] takes the default only when the option is absent. *)
Definition constructor (options : GuidGeneratorOptions) (w : World)
  : JS.outcome (SequentialGuidGenerator * World) :=
  let (mid, w1) := match opt_machineId options with
                   | Some m => (m, w)
                   | None => generateMachineId w
                   end in
  let ep := match opt_epoch options with
            | Some e => e
            | None => EPOCH
            end in
  if negb (length mid =? 4)%nat
  then JS.Throw InvalidMachineId
  else JS.Ret ({| machineId := mid; epoch := ep;
                  lastTimestamp := 0; sequence := 0 |}, w1).

(** [while (Date.now() <= now) {}]: every test of the condition reads the
    clock; the reading that ends the loop is consumed too. *)
Fixpoint busyWait (fuel : nat) (now : Z) (w : World) : JS.outcome World :=
  match fuel with
  | O => JS.Spinning
  | S f =>
      let (t, w1) := Date_now w in
      if t <=? now then busyWait f now w1 else JS.Ret w1
  end.

Fixpoint getTimestamp (fuel : nat) (g : SequentialGuidGenerator) (now : Z) (w : World)
  : JS.outcome (Z * SequentialGuidGenerator * World) :=
  match fuel with
  | O => JS.Spinning
  | S f =>
      let milliseconds := Float64.sub (inject_Z now) (inject_Z (epoch g)) in
      let ticks :=
        Float64.floor (Float64.mul milliseconds (inject_Z TICKS_PER_MILLISECOND)) in
      if ticks =? lastTimestamp g then
        let g := set_sequence g (JS.band (sequence g + 1) 15) in
        if sequence g =? 0 then
          w1 <- busyWait f now w ;;
          let (now', w2) := Date_now w1 in
          getTimestamp f g now' w2
        else
          JS.Ret (ticks, set_lastTimestamp g ticks, w)
      else
        let g := set_sequence g 0 in
        JS.Ret (ticks, set_lastTimestamp g ticks, w)
  end.

Definition formatGuid (buffer : Buffer.t) : JS.str :=
  let parts := [ Buffer.toString_hex buffer 0 4;
                 Buffer.toString_hex buffer 4 6;
                 Buffer.toString_hex buffer 6 8;
                 Buffer.toString_hex buffer 8 10;
                 Buffer.toString_hex buffer 10 16 ] in
  JS.join (JS.lit "-") (map JS.toUpperCase parts).

(** The body of [generate] between the computation of the timestamp and the
    formatting: the 16-byte buffer [guid] is allocated and filled. *)
Definition assemble (timestamp : Z) (g : SequentialGuidGenerator) (w : World)
  : JS.outcome (Buffer.t * World) :=
  let guid := Buffer.alloc 16 in
  guid <- Buffer.writeUInt32BE guid (JS.ushr timestamp 16) 0 ;;
  guid <- Buffer.writeUInt16BE guid (JS.band timestamp 65535) 4 ;;
  m0 <- Buffer.readUInt16BE (machineId g) 0 ;;
  guid <- Buffer.writeUInt16BE guid
            (JS.bor (JS.band m0 65520) (JS.band (sequence g) 15)) 6 ;;
  m2 <- Buffer.readUInt16BE (machineId g) 2 ;;
  guid <- Buffer.writeUInt16BE guid m2 8 ;;
  let (randomPart, w1) := randomBytes 6 w in
  JS.Ret (Buffer.copy randomPart guid 10, w1).

Definition generate (fuel : nat) (g : SequentialGuidGenerator) (w : World)
  : JS.outcome (JS.str * SequentialGuidGenerator * World) :=
  let (now, w1) := Date_now w in
  '(timestamp, g1, w2) <- getTimestamp fuel g now w1 ;;
  '(guid, w3) <- assemble timestamp g1 w2 ;;
  JS.Ret (formatGuid guid, g1, w3).

Fixpoint generateBatch_loop (fuel : nat) (n : nat) (g : SequentialGuidGenerator)
    (w : World) (guids : list JS.str)
  : JS.outcome (list JS.str * SequentialGuidGenerator * World) :=
  match n with
  | O => JS.Ret (guids, g, w)
  | S n' =>
      '(id, g1, w1) <- generate fuel g w ;;
      generateBatch_loop fuel n' g1 w1 (guids ++ [id])
  end.

(** [count] is an integer here. *)
Definition generateBatch (fuel : nat) (g : SequentialGuidGenerator) (count : Z) (w : World)
  : JS.outcome (list JS.str * SequentialGuidGenerator * World) :=
  if count <=? 0 then JS.Throw InvalidCount
  else generateBatch_loop fuel (Z.to_nat count) g w [].

Definition getMachineId (g : SequentialGuidGenerator) : JS.str :=
  JS.toUpperCase (Buffer.toString_hex (machineId g) 0 (length (machineId g))).

(** [/^[0-9a-f]{8}-[0-9a-f]{4}-[0-9a-f]{4}-[0-9a-f]{4}-[0-9a-f]{12}$/i] *)
Definition hexClass : RegExp.atom :=
  RegExp.CharClass [("0"%char, "9"%char); ("a"%char, "f"%char)].
Definition hyphen : RegExp.atom := RegExp.Literal "-"%char.

Definition guidRegex : RegExp.regex :=
  {| RegExp.body := [ (hexClass, 8%nat); (hyphen, 1%nat);
                      (hexClass, 4%nat); (hyphen, 1%nat);
                      (hexClass, 4%nat); (hyphen, 1%nat);
                      (hexClass, 4%nat); (hyphen, 1%nat);
                      (hexClass, 12%nat) ];
     RegExp.ignoreCase := true |}.

Definition isValidGuid (guid : JS.str) : bool := RegExp.test guidRegex guid.

Definition guidToBuffer (guid : JS.str) : JS.outcome Buffer.t :=
  if negb (isValidGuid guid) then JS.Throw InvalidFormat
  else
    let cleanGuid := JS.removeAll "-"%char guid in
    JS.Ret (Buffer.from_hex cleanGuid).

Definition extractTimestamp (g : SequentialGuidGenerator) (guid : JS.str)
  : JS.outcome Date :=
  buffer <- guidToBuffer guid ;;
  timestampHigh <- Buffer.readUInt32BE buffer 0 ;;
  timestampLow <- Buffer.readUInt16BE buffer 4 ;;
  let timestamp := JS.bor (JS.shl timestampHigh 16) timestampLow in
  let millisecondsSinceEpoch :=
    Float64.div (inject_Z timestamp) (inject_Z TICKS_PER_MILLISECOND) in
  JS.Ret (new_Date (Float64.add (inject_Z (epoch g)) millisecondsSinceEpoch)).

(* ------------------------------------------------------------------ *)
(** ** Random GUIDs (UUID v4) *)

Module Indexed.

(** [buf[i]]: an index out of range reads [undefined], which a bitwise
    operator converts to 0. *)
Definition get (buf : Buffer.t) (i : nat) : Z :=
  match nth_error buf i with
  | Some b => Buffer.byte_to_Z b
  | None => 0
  end.

(** [buf[i] = v]: the value is stored modulo 256; an index out of range
    leaves the buffer as it is. *)
Definition set (buf : Buffer.t) (i : nat) (v : Z) : Buffer.t :=
  if (i <? length buf)%nat
  then firstn i buf ++ Buffer.byte_of_Z v :: skipn (S i) buf
  else buf.

End Indexed.

Definition generateRandomGuid (w : World) : JS.str * World :=
  let (guid, w1) := randomBytes 16 w in
  (* Set version to 0100 (UUID v4) *)
  let guid := Indexed.set guid 6 (JS.bor (JS.band (Indexed.get guid 6) 15) 64) in
  (* Set variant to 10xx (RFC 4122) *)
  let guid := Indexed.set guid 8 (JS.bor (JS.band (Indexed.get guid 8) 63) 128) in
  let parts := [ Buffer.toString_hex guid 0 4;
                 Buffer.toString_hex guid 4 6;
                 Buffer.toString_hex guid 6 8;
                 Buffer.toString_hex guid 8 10;
                 Buffer.toString_hex guid 10 16 ] in
  (JS.join (JS.lit "-") (map JS.toUpperCase parts), w1).

Definition BatchTooLarge : JS.exn :=
  JS.Error "Count cannot exceed 1000 for batch generation".

Fixpoint generateRandomGuidBatch_loop (n : nat) (w : World) (guids : list JS.str)
  : list JS.str * World :=
  match n with
  | O => (guids, w)
  | S n' =>
      let (id, w1) := generateRandomGuid w in
      generateRandomGuidBatch_loop n' w1 (guids ++ [id])
  end.

(** [count] is an integer here. *)
Definition generateRandomGuidBatch (count : Z) (w : World)
  : JS.outcome (list JS.str * World) :=
  if count <=? 0 then JS.Throw InvalidCount
  else if 1000 <? count then JS.Throw BatchTooLarge
  else JS.Ret (generateRandomGuidBatch_loop (Z.to_nat count) w []).

(** [export const defaultGuidGenerator = new SequentialGuidGenerator()] *)
Definition defaultGuidGenerator (w : World)
  : JS.outcome (SequentialGuidGenerator * World) :=
  constructor {| opt_machineId := None; opt_epoch := None |} w.

(* ------------------------------------------------------------------ *)
(** ** SqlServerOptimizations: the classification of identifiers *)

Module Text.

(** [s.substring(start, end)]: both indices are clamped to the length and
    swapped when out of order. *)
Definition substring (s : JS.str) (start stop : nat) : JS.str :=
  let a := Nat.min start (length s) in
  let b := Nat.min stop (length s) in
  let lo := Nat.min a b in
  let hi := Nat.max a b in
  firstn (hi - lo) (skipn lo s).

(** White space and line terminators among the 8-bit characters. *)
Definition isWhiteSpace (c : ascii) : bool :=
  let n := nat_of_ascii c in
  ((n =? 9) || (n =? 10) || (n =? 11) || (n =? 12) || (n =? 13)
   || (n =? 32) || (n =? 160))%nat.

Fixpoint trimStart (s : JS.str) : JS.str :=
  match s with
  | c :: rest => if isWhiteSpace c then trimStart rest else s
  | [] => []
  end.

(** The value of the longest prefix of hexadecimal digits, and whether
    there was a digit at all. *)
Fixpoint hexPrefix (s : JS.str) (acc : Z) (seen : bool) : Z * bool :=
  match s with
  | c :: rest =>
      match Buffer.hexValue c with
      | Some v => hexPrefix rest (16 * acc + v) true
      | None => (acc, seen)
      end
  | [] => (acc, seen)
  end.

(** [parseInt(s, 16)]; [None] is NaN.  White space is skipped, a sign is
    read, a prefix [0x] or [0X] is dropped, and the digits that follow are
    read as far as they go. *)
Definition parseInt16 (s : JS.str) : option Z :=
  let s := trimStart s in
  let (sign, s) := match s with
                   | "-"%char :: rest => (-1, rest)
                   | "+"%char :: rest => (1, rest)
                   | _ => (1, s)
                   end in
  let s := match s with
           | "0"%char :: "x"%char :: rest => rest
           | "0"%char :: "X"%char :: rest => rest
           | _ => s
           end in
  let (v, seen) := hexPrefix s 0 false in
  if seen then Some (sign * v) else None.

(** An operand of a bitwise operator: [ToInt32] takes NaN to 0. *)
Definition operand (x : option Z) : Z :=
  match x with
  | Some v => v
  | None => 0
  end.

End Text.

Inductive IndexFragmentation : Type := FragmentationLow | FragmentationMedium | FragmentationHigh.
Inductive InsertPerformance : Type := PerformanceExcellent | PerformanceGood | PerformancePoor.
Inductive CacheEfficiency : Type := EfficiencyHigh | EfficiencyMedium | EfficiencyLow.

Record SqlServerImpact : Type := {
  indexFragmentation : IndexFragmentation;
  insertPerformance : InsertPerformance;
  cacheEfficiency : CacheEfficiency
}.

Record SqlServerGuidAnalysis : Type := {
  guid : JS.str;
  isSequential : bool;
  sqlServerImpact : SqlServerImpact;
  recommendations : list string
}.

(** One year in milliseconds: [365 * 24 * 60 * 60 * 1000]. *)
Definition ONE_YEAR : Z := 365 * 24 * 60 * 60 * 1000.

(** [isSequentialGuid]: nothing in the body throws on a string, so the
    [catch] branch is not reached. *)
Definition isSequentialGuid (guid : JS.str) (w : World) : bool * World :=
  let cleanGuid := JS.removeAll "-"%char guid in
  let firstPart := Text.parseInt16 (Text.substring cleanGuid 0 8) in
  let secondPart := Text.parseInt16 (Text.substring cleanGuid 8 12) in
  let (now, w1) := Date_now w in
  let guidTime := JS.bor (JS.shl (Text.operand firstPart) 16) (Text.operand secondPart) in
  let timeDiff := Z.abs (now - guidTime) in
  (timeDiff <? ONE_YEAR, w1).

Definition getRecommendations (isSequential : bool) : list string :=
  if isSequential then
    [ "✅ This GUID is optimized for SQL Server performance";
      "✅ Suitable for primary keys and clustered indexes";
      "✅ Will cause minimal index fragmentation";
      "✅ Provides excellent insert performance";
      "💡 Consider monitoring index fragmentation quarterly";
      "💡 Use standard maintenance plans for optimal performance" ]%string
  else
    [ "⚠️ This GUID may cause performance issues in SQL Server";
      "⚠️ Not recommended for primary keys or clustered indexes";
      "⚠️ Will likely cause significant index fragmentation";
      "⚠️ Poor insert performance expected";
      "🔄 Consider switching to sequential GUIDs";
      "🔄 If random GUIDs are required, consider non-clustered indexes";
      "🔄 Implement frequent index maintenance if random GUIDs must be used" ]%string.

Definition analyzeGuid (text : JS.str) (w : World) : SqlServerGuidAnalysis * World :=
  let (sequential, w1) := isSequentialGuid text w in
  ({| guid := text;
      isSequential := sequential;
      sqlServerImpact :=
        {| indexFragmentation :=
             if sequential then FragmentationLow else FragmentationHigh;
           insertPerformance :=
             if sequential then PerformanceExcellent else PerformancePoor;
           cacheEfficiency :=
             if sequential then EfficiencyHigh else EfficiencyLow |};
      recommendations := getRecommendations sequential |}, w1).

(* ------------------------------------------------------------------ *)
(** ** Sample generators and worlds *)

Definition sample_machineId : Buffer.t := [x12; x34; x56; x78].

(** A generator as the constructor leaves it, with the default epoch. *)
Definition sample_generator : SequentialGuidGenerator :=
  {| machineId := sample_machineId; epoch := EPOCH;
     lastTimestamp := 0; sequence := 0 |}.

(** A clock that starts at [t0] and advances by one millisecond every
    [rate] readings, with a random source that returns [b] forever. *)
Definition steady_world (t0 : Z) (rate : Z) (b : byte) : World :=
  {| clock := fun k => t0 + Z.of_nat k / rate; reads := 0%nat;
     entropy := fun _ => b; drawn := 0%nat |}.

(** A world whose clock replays a list of readings and then stays at [last]. *)
Definition scripted_world (readings : list Z) (last : Z) (b : byte) : World :=
  {| clock := fun k => nth k readings last; reads := 0%nat;
     entropy := fun _ => b; drawn := 0%nat |}.

(* ------------------------------------------------------------------ *)
(** ** Notions used in the statements *)

(** *** Hexadecimal digits and the grammar of the textual form *)

(** The two characters of a byte in the canonical text: its high and its
    low hexadecimal digit, in upper case. *)
Definition hiU (b : byte) : ascii :=
  JS.toUpperCaseChar (Buffer.hexDigit (Buffer.byte_to_Z b / 16)).

Definition loU (b : byte) : ascii :=
  JS.toUpperCaseChar (Buffer.hexDigit (Buffer.byte_to_Z b mod 16)).

(** A hexadecimal digit, in either case. *)
Definition isHexDigit (c : ascii) : bool :=
  let n := nat_of_ascii c in
  (((48 <=? n) && (n <=? 57)) || ((65 <=? n) && (n <=? 70))
   || ((97 <=? n) && (n <=? 102)))%nat.

(** [n] hexadecimal digits. *)
Definition hexGroup (n : nat) (s : JS.str) : Prop :=
  length s = n /\ forallb isHexDigit s = true.

(** The 8-4-4-4-12 grammar of the specification. *)
Definition guid_shape (text : JS.str) : Prop :=
  exists a b c d e : JS.str,
    text = a ++ "-"%char :: b ++ "-"%char :: c ++ "-"%char :: d ++ "-"%char :: e /\
    hexGroup 8 a /\ hexGroup 4 b /\ hexGroup 4 c /\ hexGroup 4 d /\ hexGroup 12 e.

(** The byte two hexadecimal digits denote. *)
Definition digit (c : ascii) : Z :=
  match Buffer.hexValue c with Some v => v | None => 0 end.

Definition pairByte (c1 c2 : ascii) : byte :=
  Buffer.byte_of_Z (16 * digit c1 + digit c2).

(** *** The packed layout *)

(** The half-word written at offset 6: machine bits above, sequence below. *)
Definition mixed (m0 s : Z) : Z := Z.lor (Z.land m0 65520) (s mod 16).

(** The buffer [generate] fills, byte by byte, in closed form; lemma
    [assemble_packed] shows that [assemble] returns it. *)
Definition packed (timestamp : Z) (m0 m1 m2 m3 : byte) (s : Z) (r : list byte) : Buffer.t :=
  let hi := JS.ushr timestamp 16 in
  let lo := JS.band timestamp 65535 in
  let mx := mixed (256 * Buffer.byte_to_Z m0 + Buffer.byte_to_Z m1) s in
  [ Buffer.byte_of_Z (hi / 16777216); Buffer.byte_of_Z (hi / 65536);
    Buffer.byte_of_Z (hi / 256); Buffer.byte_of_Z hi;
    Buffer.byte_of_Z (lo / 256); Buffer.byte_of_Z lo;
    Buffer.byte_of_Z (mx / 256); Buffer.byte_of_Z mx;
    m2; m3 ] ++ r.

(** The six bytes that encode a 48-bit tick in big-endian order. *)
Definition be48 (t : Z) : list byte :=
  [ Buffer.byte_of_Z (t / 1099511627776); Buffer.byte_of_Z (t / 4294967296);
    Buffer.byte_of_Z (t / 16777216); Buffer.byte_of_Z (t / 65536);
    Buffer.byte_of_Z (t / 256); Buffer.byte_of_Z t ].

(** The world after [randomBytes n], and the six bytes [randomBytes 6]
    returns. *)
Definition drawn_after (n : nat) (w : World) : World := snd (randomBytes n w).

Definition random_part (w : World) : list byte := fst (randomBytes 6 w).

(** *** Clock readings and ticks *)

(** The candidate tick of a clock reading: what [getTimestamp] computes
    from [now], in double precision. *)
Definition ticks_of (g : SequentialGuidGenerator) (now : Z) : Z :=
  Float64.floor
    (Float64.mul (Float64.sub (inject_Z now) (inject_Z (epoch g)))
                 (inject_Z TICKS_PER_MILLISECOND)).

(** An integer that a double holds exactly: a number of at most 53 bits
    times a power of two. *)
Definition representable (B : Z) : Prop :=
  exists z k, Z.abs z < 2 ^ 53 /\ 0 <= k /\ B = z * 2 ^ k.

(** A reading close enough to the epoch for its tick to be computed
    without rounding: less than 2^53 / 625 ms away (about 456 years). *)
Definition exact_reading (g : SequentialGuidGenerator) (now : Z) : Prop :=
  Z.abs (now - epoch g) * 625 < 2 ^ 53.

(** Every reading from [lo] to [hi - 1] is one. *)
Definition exact_clock (g : SequentialGuidGenerator) (w : World) (lo hi : nat) : Prop :=
  forall i, (lo <= i < hi)%nat -> exact_reading g (clock w i).

(** Among the readings [lo] to [hi - 1], a later time has a later tick.
    (Rounding can give two different times the same tick: with an epoch
    more than 2^66 ticks away, two consecutive milliseconds.) *)
Definition ticks_increasing (g : SequentialGuidGenerator) (w : World) (lo hi : nat) : Prop :=
  forall i j, (lo <= i < hi)%nat -> (lo <= j < hi)%nat ->
              clock w i < clock w j ->
              ticks_of g (clock w i) < ticks_of g (clock w j).

(** The first reading of a call and the world after it. *)
Definition first_reading (w : World) : Z := clock w (reads w).

Definition after_reading (w : World) : World := snd (Date_now w).

(** The clock keeps advancing: after every reading a later one is larger. *)
Definition clock_advances (w : World) : Prop :=
  forall i, exists j, (i < j)%nat /\ clock w i < clock w j.

(** From the cursor on, readings never decrease. *)
Definition clock_monotone (w : World) : Prop :=
  forall i j, (reads w <= i <= j)%nat -> clock w i <= clock w j.

(** No reading of the stretch is 2^28 ms or more after an earlier one. *)
Definition short_stretch (w : World) (lo hi : nat) : Prop :=
  forall i j, (lo <= i <= j)%nat -> (j < hi)%nat ->
              clock w j - clock w i < 268435456.

(** What a returning call of [getTimestamp] has done: it returned from its
    first invocation, or it waited and returned from the second. *)
Definition returned_at_once (g : SequentialGuidGenerator) (now : Z) (w : World)
    (t : Z) (g' : SequentialGuidGenerator) (w' : World) : Prop :=
  w' = w /\ t = ticks_of g now /\
  ((t <> lastTimestamp g /\ sequence g' = 0) \/
   (t = lastTimestamp g /\ sequence g' = (sequence g + 1) mod 16 /\ sequence g' <> 0)).

Definition returned_after_wait (g : SequentialGuidGenerator) (now : Z) (w : World)
    (t : Z) (g' : SequentialGuidGenerator) (w' : World) : Prop :=
  ticks_of g now = lastTimestamp g /\ (sequence g + 1) mod 16 = 0 /\
  (reads w + 2 <= reads w')%nat /\
  now < clock w (reads w' - 2)%nat /\
  (forall k, (reads w <= k < reads w' - 2)%nat -> clock w k <= now) /\
  t = ticks_of g (clock w (reads w' - 1)%nat) /\
  ((t <> lastTimestamp g /\ sequence g' = 0) \/
   (t = lastTimestamp g /\ sequence g' = 1)).

(** The instant the specification assigns to a buffer: the epoch plus the
    48-bit number of bytes 0 to 5, in ticks; as a rational number, no
    rounding. *)
Definition specified_instant (g : SequentialGuidGenerator) (buffer : Buffer.t) : Date :=
  new_Date (inject_Z (epoch g)
            + inject_Z (Buffer.be_value (firstn 6 buffer) 0)
              / inject_Z TICKS_PER_MILLISECOND)%Q.

(** *** Batches and the keys of their identifiers *)

(** The result of a loop that was started with the array [acc]. *)
Definition with_prefix (acc : list JS.str)
    (o : JS.outcome (list JS.str * SequentialGuidGenerator * World))
  : JS.outcome (list JS.str * SequentialGuidGenerator * World) :=
  '(ids, g, w) <- o ;; JS.Ret (acc ++ ids, g, w).

(** The clock cursor of a returned result; 0 for a call that did not return. *)
Definition reads_after {A B : Type} (o : JS.outcome (A * B * World)) : nat :=
  match o with
  | JS.Ret (_, _, w) => reads w
  | _ => 0%nat
  end.

(** The identifiers of a returned batch; none for a call that did not
    return. *)
Definition ids_after {B : Type} (o : JS.outcome (list JS.str * B * World)) : list JS.str :=
  match o with
  | JS.Ret (ids, _, _) => ids
  | _ => []
  end.

(** What an identifier is made from: tick, sequence, random bytes. *)
Definition key : Type := (Z * Z * list byte)%type.

Definition key_tick (k : key) : Z := fst (fst k).

Definition key_seq (k : key) : Z := snd (fst k).

Definition key_rand (k : key) : list byte := snd k.

(** Lexicographic order on (tick, sequence). *)
Definition lex_lt (t s t' s' : Z) : Prop := t < t' \/ (t = t' /\ s < s').

Definition key_lt (a b : key) : Prop :=
  lex_lt (key_tick a) (key_seq a) (key_tick b) (key_seq b).

(** The stored tick is not ahead of what the clock will show, up to the
    reading [hi - 1]. *)
Definition behind (g : SequentialGuidGenerator) (w : World) (hi : nat) : Prop :=
  forall i, (reads w <= i < hi)%nat -> lastTimestamp g <= ticks_of g (clock w i).

(** The identifier made from a key by a generator of machine id
    [m0 m1 m2 m3]. *)
Definition id_of (m0 m1 m2 m3 : byte) (k : key) : JS.str :=
  formatGuid (packed (key_tick k) m0 m1 m2 m3 (key_seq k) (key_rand k)).

(** A key made inside one stretch of clock readings. *)
Definition in_window (g : SequentialGuidGenerator) (w : World) (lo hi : nat) (k : key) : Prop :=
  0 <= key_seq k <= 15 /\ length (key_rand k) = 6%nat /\
  exists i, (lo <= i < hi)%nat /\ key_tick k = ticks_of g (clock w i).

(** The [k]-th block of six random bytes the source gives after the
    cursor of [w], and the first [n] of them. *)
Definition random_block (w : World) (k : nat) : list byte :=
  map (entropy w) (seq (drawn w + 6 * k) 6).

Definition random_blocks (w : World) (n : nat) : list (list byte) :=
  map (random_block w) (seq 0 n).

(** *** More sample generators and worlds *)

(** The known-answer identifier of the specification. *)
Definition known_answer_bytes : Buffer.t :=
  [x55; x0e; x84; x00; xe2; x9b; x41; xd4; xa7; x16; x44; x66; x55; x44; x00; x00].

(** A generator whose epoch is 1970-01-01T00:00:00Z. *)
Definition unix_generator : SequentialGuidGenerator :=
  {| machineId := sample_machineId; epoch := 0;
     lastTimestamp := 0; sequence := 0 |}.

(** A generator that has just issued sequence 15 at the tick of
    1700000000000 ms. *)
Definition exhausted_generator : SequentialGuidGenerator :=
  {| machineId := sample_machineId; epoch := EPOCH;
     lastTimestamp := 39089888000000000; sequence := 15 |}.


Definition sample_world : World := steady_world 1700000000000 20 x00.

(** A clock that steps back to an earlier reading, and a random source that
    repeats itself. *)
Definition stepping_back_world : World :=
  scripted_world [1700000000000; 1700000000001; 1700000000000] 1700000000001 x00.

(** Two consecutive milliseconds of 2023-11-14 between which the low 32 bits
    of the tick wrap around. *)
Definition wrapping_world : World :=
  scripted_world [1700000093029; 1700000093030] 1700000093030 x00.

Definition known_answer_text : JS.str := JS.lit "550E8400-E29B-41D4-A716-446655440000".

(** A generator whose epoch is 0001-01-01T00:00:00Z. *)
Definition ancient_generator : SequentialGuidGenerator :=
  {| machineId := sample_machineId; epoch := -62135596800000;
     lastTimestamp := 0; sequence := 0 |}.

(** A generator whose epoch is the earliest instant a [Date] can hold,
    [new Date(-8640000000000000)]. *)
Definition far_generator : SequentialGuidGenerator :=
  {| machineId := sample_machineId; epoch := -8640000000000000;
     lastTimestamp := 0; sequence := 0 |}.

(** The clock of [sample_world], one millisecond later. *)
Definition later_world : World := steady_world 1700000000001 20 x00.

(** The clock of [sample_world] with a random source that counts. *)
Definition counting_world : World :=
  {| clock := fun k => 1700000000000 + Z.of_nat k / 20; reads := 0%nat;
     entropy := fun k => Buffer.byte_of_Z (Z.of_nat k); drawn := 0%nat |}.

(** *** Notions for the remaining functions *)

(** A digit of the canonical output: 0-9 or A-F. *)
Definition isUpperHexDigit (c : ascii) : bool :=
  let n := nat_of_ascii c in
  (((48 <=? n) && (n <=? 57)) || ((65 <=? n) && (n <=? 70)))%nat.

(** The four values the first digit of the fourth group of a version-4
    identifier can take. *)
Definition variant_digits : list ascii := ["8"; "9"; "A"; "B"]%char.

(** The first reading from which [isSequentialGuid] rejects every text:
    one year plus 2^31 - 1 milliseconds after 1970. *)
Definition NEVER_SEQUENTIAL_FROM : Z := ONE_YEAR + 2147483647.

(** A signed 32-bit number. *)
Definition int32 (x : Z) : Prop := - JS.two31 <= x < JS.two31.

(** The tick [extractTimestamp] decodes from a text, before it is turned
    into a date. *)
Definition decoded_tick (text : JS.str) : JS.outcome Z :=
  buffer <- guidToBuffer text ;;
  timestampHigh <- Buffer.readUInt32BE buffer 0 ;;
  timestampLow <- Buffer.readUInt16BE buffer 4 ;;
  JS.Ret (JS.bor (JS.shl timestampHigh 16) timestampLow).

(** The stored tick of a returned result; 0 for a call that did not return. *)
Definition tick_after {A : Type} (o : JS.outcome (A * SequentialGuidGenerator * World)) : Z :=
  match o with
  | JS.Ret (_, g, _) => lastTimestamp g
  | _ => 0
  end.

(** Two calls of [generate] in a row. *)
Definition generate_twice (f : nat) (g : SequentialGuidGenerator) (w : World)
  : JS.outcome (JS.str * SequentialGuidGenerator * World) :=
  '(_, g1, w1) <- generate f g w ;; generate f g1 w1.

(** A generator whose epoch is one second before the readings of
    [sample_world]. *)
Definition recent_generator : SequentialGuidGenerator :=
  {| machineId := sample_machineId; epoch := 1699999999000;
     lastTimestamp := 0; sequence := 0 |}.

(* ------------------------------------------------------------------ *)
(** * Properties *)

(** ** Bytes and hexadecimal digits *)

Module HexFacts.

Lemma byte_hex_upper (b : byte) :
  JS.toUpperCase (Buffer.byte_hex b) = [hiU b; loU b].
Proof. reflexivity. Qed.

Lemma hiU_hex (b : byte) : RegExp.atom_matches true hexClass (hiU b) = true.
Proof. destruct b; reflexivity. Qed.

Lemma loU_hex (b : byte) : RegExp.atom_matches true hexClass (loU b) = true.
Proof. destruct b; reflexivity. Qed.

Lemma hiU_not_hyphen (b : byte) : Ascii.eqb (hiU b) "-"%char = false.
Proof. destruct b; reflexivity. Qed.

Lemma loU_not_hyphen (b : byte) : Ascii.eqb (loU b) "-"%char = false.
Proof. destruct b; reflexivity. Qed.

Lemma hexValue_hiU (b : byte) :
  Buffer.hexValue (hiU b) = Some (Buffer.byte_to_Z b / 16).
Proof. destruct b; reflexivity. Qed.

Lemma hexValue_loU (b : byte) :
  Buffer.hexValue (loU b) = Some (Buffer.byte_to_Z b mod 16).
Proof. destruct b; reflexivity. Qed.

Lemma byte_of_nibbles (b : byte) :
  Buffer.byte_of_Z (16 * (Buffer.byte_to_Z b / 16) + Buffer.byte_to_Z b mod 16) = b.
Proof. destruct b; reflexivity. Qed.

Lemma byte_to_Z_range (b : byte) : 0 <= Buffer.byte_to_Z b < 256.
Proof. destruct b; cbv; split; congruence. Qed.

Lemma byte_of_to_Z (b : byte) : Buffer.byte_of_Z (Buffer.byte_to_Z b) = b.
Proof. destruct b; reflexivity. Qed.

Lemma byte_to_of_Z (z : Z) : Buffer.byte_to_Z (Buffer.byte_of_Z z) = z mod 256.
Proof.
  unfold Buffer.byte_of_Z, Buffer.byte_to_Z.
  assert (Hr : 0 <= z mod 256 < 256) by (apply Z.mod_pos_bound; lia).
  destruct (Byte.of_N (Z.to_N (z mod 256))) as [b|] eqn:E.
  - apply Byte.to_of_N in E. rewrite E. rewrite Z2N.id; lia.
  - apply Byte.of_N_None_iff in E. lia.
Qed.

End HexFacts.

(* ------------------------------------------------------------------ *)
(** ** The codec *)

Module Codec.
Import HexFacts.

Ltac sixteen id H :=
  do 16 (destruct id as [|? id]; [discriminate H|]);
  destruct id; [clear H | discriminate H].

(** The canonical text of a 16-byte buffer, character by character. *)
Lemma formatGuid_chars (b0 b1 b2 b3 b4 b5 b6 b7 b8 b9 b10 b11 b12 b13 b14 b15 : byte) :
  formatGuid [b0; b1; b2; b3; b4; b5; b6; b7; b8; b9; b10; b11; b12; b13; b14; b15]
  = [hiU b0; loU b0; hiU b1; loU b1; hiU b2; loU b2; hiU b3; loU b3; "-"%char;
     hiU b4; loU b4; hiU b5; loU b5; "-"%char;
     hiU b6; loU b6; hiU b7; loU b7; "-"%char;
     hiU b8; loU b8; hiU b9; loU b9; "-"%char;
     hiU b10; loU b10; hiU b11; loU b11; hiU b12; loU b12;
     hiU b13; loU b13; hiU b14; loU b14; hiU b15; loU b15].
Proof.
  unfold formatGuid, Buffer.toString_hex.
  cbn [Nat.sub firstn skipn map concat app JS.toUpperCase JS.join
       Buffer.byte_hex JS.lit list_ascii_of_string].
  reflexivity.
Qed.

Lemma atoms_guidRegex :
  RegExp.atoms guidRegex =
    repeat hexClass 8 ++ [hyphen] ++ repeat hexClass 4 ++ [hyphen] ++
    repeat hexClass 4 ++ [hyphen] ++ repeat hexClass 4 ++ [hyphen] ++
    repeat hexClass 12.
Proof. reflexivity. Qed.

Lemma hyphen_matches : RegExp.atom_matches true hyphen "-"%char = true.
Proof. reflexivity. Qed.

Lemma formatGuid_valid (id : Buffer.t) :
  length id = 16%nat -> isValidGuid (formatGuid id) = true.
Proof.
  intros H. sixteen id H. rewrite formatGuid_chars.
  unfold isValidGuid, RegExp.test.
  rewrite atoms_guidRegex.
  cbn [repeat app RegExp.match_atoms RegExp.ignoreCase guidRegex].
  rewrite !hiU_hex, !loU_hex, hyphen_matches. reflexivity.
Qed.

Lemma removeAll_keep (c d : ascii) (s : JS.str) :
  Ascii.eqb d c = false -> JS.removeAll c (d :: s) = d :: JS.removeAll c s.
Proof. intros E. unfold JS.removeAll. cbn [filter]. rewrite E. reflexivity. Qed.

Lemma removeAll_drop (c : ascii) (s : JS.str) :
  JS.removeAll c (c :: s) = JS.removeAll c s.
Proof. unfold JS.removeAll. cbn [filter]. rewrite Ascii.eqb_refl. reflexivity. Qed.

Lemma removeAll_byte (b : byte) (s : JS.str) :
  JS.removeAll "-"%char (hiU b :: loU b :: s) = hiU b :: loU b :: JS.removeAll "-"%char s.
Proof.
  rewrite (removeAll_keep _ _ _ (hiU_not_hyphen b)).
  rewrite (removeAll_keep _ _ _ (loU_not_hyphen b)). reflexivity.
Qed.

Lemma from_hex_byte (b : byte) (s : JS.str) :
  Buffer.from_hex (hiU b :: loU b :: s) = b :: Buffer.from_hex s.
Proof.
  cbn [Buffer.from_hex].
  rewrite hexValue_hiU, hexValue_loU, byte_of_nibbles. reflexivity.
Qed.

Lemma formatGuid_decodes (id : Buffer.t) :
  length id = 16%nat ->
  Buffer.from_hex (JS.removeAll "-"%char (formatGuid id)) = id.
Proof.
  intros H. sixteen id H. rewrite formatGuid_chars.
  repeat (rewrite removeAll_byte || rewrite removeAll_drop).
  rewrite !from_hex_byte. reflexivity.
Qed.

Lemma guidToBuffer_formatGuid (id : Buffer.t) :
  length id = 16%nat -> guidToBuffer (formatGuid id) = JS.Ret id.
Proof.
  intros H. unfold guidToBuffer.
  rewrite (formatGuid_valid id H). cbn [negb].
  rewrite (formatGuid_decodes id H). reflexivity.
Qed.

(** C2. Round trip of the codec: for every 16-byte buffer [id],
    [guidToBuffer (formatGuid id)] succeeds with [id] itself, and formatting
    the re-parsed buffer gives the same text again. *)
Theorem C2_roundtrip (id : Buffer.t) :
  length id = 16%nat ->
  guidToBuffer (formatGuid id) = JS.Ret id /\
  (buffer <- guidToBuffer (formatGuid id) ;; JS.Ret (formatGuid buffer))
    = JS.Ret (formatGuid id).
Proof.
  intros H. rewrite (guidToBuffer_formatGuid id H). split; reflexivity.
Qed.

Lemma C2_roundtrip_witness :
  length known_answer_bytes = 16%nat /\
  guidToBuffer (formatGuid known_answer_bytes) = JS.Ret known_answer_bytes /\
  (buffer <- guidToBuffer (formatGuid known_answer_bytes) ;; JS.Ret (formatGuid buffer))
    = JS.Ret (formatGuid known_answer_bytes).
Proof.
  split; [reflexivity | apply (C2_roundtrip known_answer_bytes); reflexivity].
Defined.

End Codec.

(* ------------------------------------------------------------------ *)
(** ** The validator *)

Module Validator.

Lemma hexClass_isHexDigit (c : ascii) :
  RegExp.atom_matches true hexClass c = isHexDigit c.
Proof. destruct c as [[] [] [] [] [] [] [] []]; reflexivity. Qed.

Lemma hyphen_eqb (c : ascii) :
  RegExp.atom_matches true hyphen c = Ascii.eqb c "-"%char.
Proof. destruct c as [[] [] [] [] [] [] [] []]; reflexivity. Qed.

Lemma forallb_hexClass (s : JS.str) :
  forallb (RegExp.atom_matches true hexClass) s = forallb isHexDigit s.
Proof.
  induction s as [|c s IH]; [reflexivity|].
  cbn [forallb]. rewrite hexClass_isHexDigit, IH. reflexivity.
Qed.

Lemma match_end (ic : bool) (s : JS.str) :
  RegExp.match_atoms ic [] s = true <-> s = [].
Proof. destruct s; cbn; split; congruence. Qed.

Lemma match_repeat (ic : bool) (a : RegExp.atom) (n : nat) (p : list RegExp.atom) :
  forall s : JS.str,
    RegExp.match_atoms ic (repeat a n ++ p) s = true <->
    exists s1 s2, s = s1 ++ s2 /\ length s1 = n /\
                  forallb (RegExp.atom_matches ic a) s1 = true /\
                  RegExp.match_atoms ic p s2 = true.
Proof.
  induction n as [|n IH]; intros s.
  - cbn [repeat app]. split.
    + intros H. exists [], s. repeat split; assumption.
    + intros (s1 & s2 & -> & Hl & _ & H).
      destruct s1; [exact H | discriminate Hl].
  - cbn [repeat app]. destruct s as [|ch s].
    + cbn [RegExp.match_atoms]. split; [discriminate|].
      intros (s1 & s2 & E & Hl & _).
      destruct s1; [discriminate Hl | discriminate E].
    + cbn [RegExp.match_atoms]. rewrite andb_true_iff, IH. split.
      * intros (Hc & s1 & s2 & -> & Hl & Hf & Hp).
        exists (ch :: s1), s2. cbn [length forallb app].
        rewrite Hc, Hf, Hl. repeat split; assumption.
      * intros (s1 & s2 & E & Hl & Hf & Hp).
        destruct s1 as [|c1 s1]; [discriminate Hl|].
        cbn [app] in E. injection E as -> ->.
        cbn [forallb] in Hf. apply andb_true_iff in Hf as [Hc Hf].
        injection Hl as Hl.
        split; [exact Hc|]. exists s1, s2. repeat split; assumption.
Qed.

Lemma match_hyphen (p : list RegExp.atom) (s : JS.str) :
  RegExp.match_atoms true ([hyphen] ++ p) s = true <->
  exists s', s = "-"%char :: s' /\ RegExp.match_atoms true p s' = true.
Proof.
  cbn [app]. destruct s as [|ch s]; cbn [RegExp.match_atoms].
  - split; [discriminate | intros (s' & E & _); discriminate E].
  - rewrite andb_true_iff, hyphen_eqb, Ascii.eqb_eq. split.
    + intros [-> H]. exists s. split; [reflexivity | exact H].
    + intros (s' & E & H). injection E as -> ->. split; [reflexivity | exact H].
Qed.

Lemma isValidGuid_shape (text : JS.str) :
  isValidGuid text = true <-> guid_shape text.
Proof.
  unfold isValidGuid, RegExp.test. rewrite Codec.atoms_guidRegex.
  cbn [RegExp.ignoreCase guidRegex].
  rewrite <- (app_nil_r (repeat hexClass 12)).
  unfold guid_shape, hexGroup. split.
  - intros H.
    apply match_repeat in H as (a & r1 & -> & La & Fa & H).
    apply match_hyphen in H as (r2 & -> & H).
    apply match_repeat in H as (b & r3 & -> & Lb & Fb & H).
    apply match_hyphen in H as (r4 & -> & H).
    apply match_repeat in H as (c & r5 & -> & Lc & Fc & H).
    apply match_hyphen in H as (r6 & -> & H).
    apply match_repeat in H as (d & r7 & -> & Ld & Fd & H).
    apply match_hyphen in H as (r8 & -> & H).
    apply match_repeat in H as (e & r9 & -> & Le & Fe & H).
    apply match_end in H as ->. rewrite app_nil_r.
    rewrite forallb_hexClass in Fa, Fb, Fc, Fd, Fe.
    exists a, b, c, d, e. repeat split; assumption.
  - intros (a & b & c & d & e & -> & [La Fa] & [Lb Fb] & [Lc Fc] & [Ld Fd] & [Le Fe]).
    rewrite <- forallb_hexClass in Fa, Fb, Fc, Fd, Fe.
    apply match_repeat. exists a, ("-"%char :: b ++ "-"%char :: c ++ "-"%char :: d ++ "-"%char :: e).
    repeat split; try assumption.
    apply match_hyphen. eexists; split; [reflexivity|].
    apply match_repeat. exists b, ("-"%char :: c ++ "-"%char :: d ++ "-"%char :: e).
    repeat split; try assumption.
    apply match_hyphen. eexists; split; [reflexivity|].
    apply match_repeat. exists c, ("-"%char :: d ++ "-"%char :: e).
    repeat split; try assumption.
    apply match_hyphen. eexists; split; [reflexivity|].
    apply match_repeat. exists d, ("-"%char :: e).
    repeat split; try assumption.
    apply match_hyphen. eexists; split; [reflexivity|].
    apply match_repeat. exists e, []. rewrite app_nil_r.
    repeat split; try assumption.
Qed.

(** C6. [isValidGuid] is a total boolean function (it has no failing
    outcome), and it answers [true] exactly on the texts made of 8, 4, 4, 4
    and 12 hexadecimal digits of either case joined by four hyphens. *)
Theorem C6_isValid_exact (text : JS.str) :
  (isValidGuid text = true <-> guid_shape text) /\
  (isValidGuid text = false <-> ~ guid_shape text).
Proof.
  split; [apply isValidGuid_shape|].
  rewrite <- isValidGuid_shape. destruct (isValidGuid text); split; congruence.
Qed.

(** The examples of the test suite. *)
Example accepted_texts :
  map isValidGuid
    [ JS.lit "550E8400-E29B-41D4-A716-446655440000";
      JS.lit "550e8400-e29b-41d4-a716-446655440000";
      JS.lit "00000000-0000-0000-0000-000000000000";
      JS.lit "FFFFFFFF-FFFF-FFFF-FFFF-FFFFFFFFFFFF" ]
  = [true; true; true; true].
Proof. reflexivity. Qed.

Example rejected_texts :
  map isValidGuid
    [ JS.lit "";
      JS.lit "not-a-guid";
      JS.lit "550E8400E29B41D4A716446655440000";
      JS.lit "550E8400-E29B-41D4-A716-44665544";
      JS.lit "550E8400-E29B-41D4-A716-44665544000000";
      JS.lit "GGGGGGGG-GGGG-GGGG-GGGG-GGGGGGGGGGGG";
      JS.lit "550E8400-E29B-41D4-A716-44665544000Z" ]
  = [false; false; false; false; false; false; false].
Proof. reflexivity. Qed.

Example known_answer_decoding :
  guidToBuffer known_answer_text = JS.Ret known_answer_bytes.
Proof. reflexivity. Qed.

Lemma C6_isValid_exact_witness :
  isValidGuid known_answer_text = true /\ guid_shape known_answer_text.
Proof.
  split; [reflexivity|].
  apply (proj1 (proj1 (C6_isValid_exact known_answer_text))). reflexivity.
Defined.

End Validator.

(* ------------------------------------------------------------------ *)
(** ** Parsing a textual identifier *)

Module Parse.
Import HexFacts Validator.

Lemma hexDigit_value (c : ascii) :
  isHexDigit c = true ->
  Buffer.hexValue c = Some (digit c) /\
  (digit c = 0 \/ digit c = 1 \/ digit c = 2 \/ digit c = 3 \/
   digit c = 4 \/ digit c = 5 \/ digit c = 6 \/ digit c = 7 \/
   digit c = 8 \/ digit c = 9 \/ digit c = 10 \/ digit c = 11 \/
   digit c = 12 \/ digit c = 13 \/ digit c = 14 \/ digit c = 15) /\
  JS.toUpperCaseChar (Buffer.hexDigit (digit c)) = JS.toUpperCaseChar c /\
  Ascii.eqb c "-"%char = false.
Proof.
  destruct c as [[] [] [] [] [] [] [] []]; cbv; intros H;
    try discriminate H; repeat split; tauto.
Qed.

Lemma nibbles_of_pair (h l : Z) :
  (h = 0 \/ h = 1 \/ h = 2 \/ h = 3 \/ h = 4 \/ h = 5 \/ h = 6 \/ h = 7 \/
   h = 8 \/ h = 9 \/ h = 10 \/ h = 11 \/ h = 12 \/ h = 13 \/ h = 14 \/ h = 15) ->
  (l = 0 \/ l = 1 \/ l = 2 \/ l = 3 \/ l = 4 \/ l = 5 \/ l = 6 \/ l = 7 \/
   l = 8 \/ l = 9 \/ l = 10 \/ l = 11 \/ l = 12 \/ l = 13 \/ l = 14 \/ l = 15) ->
  Buffer.byte_to_Z (Buffer.byte_of_Z (16 * h + l)) / 16 = h /\
  Buffer.byte_to_Z (Buffer.byte_of_Z (16 * h + l)) mod 16 = l.
Proof.
  intros Hh Hl. rewrite byte_to_of_Z.
  assert (0 <= h < 16) by lia. assert (0 <= l < 16) by lia.
  rewrite (Z.mod_small (16 * h + l) 256) by lia.
  split.
  - symmetry. apply (Z.div_unique (16 * h + l) 16 h l); lia.
  - symmetry. apply (Z.mod_unique (16 * h + l) 16 h l); lia.
Qed.

Lemma pairByte_hiU (c1 c2 : ascii) :
  isHexDigit c1 = true -> isHexDigit c2 = true ->
  hiU (pairByte c1 c2) = JS.toUpperCaseChar c1 /\
  loU (pairByte c1 c2) = JS.toUpperCaseChar c2.
Proof.
  intros H1 H2.
  destruct (hexDigit_value c1 H1) as (_ & R1 & U1 & _).
  destruct (hexDigit_value c2 H2) as (_ & R2 & U2 & _).
  destruct (nibbles_of_pair (digit c1) (digit c2) R1 R2) as [Eh El].
  unfold hiU, loU, pairByte. rewrite Eh, El. split; assumption.
Qed.

Lemma from_hex_pair (c1 c2 : ascii) (s : JS.str) :
  isHexDigit c1 = true -> isHexDigit c2 = true ->
  Buffer.from_hex (c1 :: c2 :: s) = pairByte c1 c2 :: Buffer.from_hex s.
Proof.
  intros H1 H2.
  destruct (hexDigit_value c1 H1) as (V1 & _).
  destruct (hexDigit_value c2 H2) as (V2 & _).
  cbn [Buffer.from_hex]. rewrite V1, V2. reflexivity.
Qed.

Lemma removeAll_digit (c : ascii) (s : JS.str) :
  isHexDigit c = true ->
  JS.removeAll "-"%char (c :: s) = c :: JS.removeAll "-"%char s.
Proof.
  intros H. apply Codec.removeAll_keep.
  apply (hexDigit_value c H).
Qed.

Ltac explode_group s H :=
  let L := fresh "L" in let F := fresh "F" in
  destruct H as [L F];
  repeat (destruct s as [|? s]; [discriminate L|]; try (destruct s; [|discriminate L]));
  cbn [forallb] in F; rewrite ?andb_true_iff in F; clear L.

(** What [guidToBuffer] computes on a well-formed text: 16 bytes whose
    canonical rendering is the text itself in upper case. *)
Lemma decode_valid (text : JS.str) :
  isValidGuid text = true ->
  length (Buffer.from_hex (JS.removeAll "-"%char text)) = 16%nat /\
  formatGuid (Buffer.from_hex (JS.removeAll "-"%char text)) = JS.toUpperCase text.
Proof.
  intros V. apply isValidGuid_shape in V.
  destruct V as (a & b & c & d & e & -> & Ha & Hb & Hc & Hd & He).
  explode_group a Ha. explode_group b Hb. explode_group c Hc.
  explode_group d Hd. explode_group e He.
  repeat match goal with H : _ /\ _ |- _ => destruct H end.
  cbn [app].
  repeat ((rewrite removeAll_digit by assumption) || rewrite Codec.removeAll_drop).
  unfold JS.removeAll at 1. cbn [filter].
  repeat (rewrite from_hex_pair by assumption).
  cbn [Buffer.from_hex]. split; [reflexivity|].
  rewrite Codec.formatGuid_chars.
  repeat match goal with
  | |- context [hiU (pairByte ?x ?y)] =>
      let E1 := fresh in let E2 := fresh in
      destruct (pairByte_hiU x y) as [E1 E2]; [assumption | assumption |];
      rewrite E1, E2; clear E1 E2
  end.
  reflexivity.
Qed.

End Parse.

Module ParseErrors.

Lemma extractTimestamp_of_buffer (g : SequentialGuidGenerator) (text : JS.str) (buffer : Buffer.t) :
  guidToBuffer text = JS.Ret buffer -> length buffer = 16%nat ->
  exists d, extractTimestamp g text = JS.Ret d.
Proof.
  intros E L. unfold extractTimestamp. rewrite E. cbn [JS.bind].
  unfold Buffer.readUInt32BE, Buffer.readUInt16BE, Buffer.read_be.
  rewrite L. cbn [Nat.add Nat.leb JS.bind]. eexists. reflexivity.
Qed.

(** C7. [guidToBuffer] and [extractTimestamp] fail with [InvalidFormat]
    exactly when [isValidGuid] rejects the text.  On an accepted text
    [guidToBuffer] returns the hexadecimal decoding of the text without its
    hyphens, which is 16 bytes long and renders back to the text in upper
    case, and [extractTimestamp] returns a date. *)
Theorem C7_invalid_format (g : SequentialGuidGenerator) (text : JS.str) :
  (guidToBuffer text = JS.Throw InvalidFormat <-> isValidGuid text = false) /\
  (extractTimestamp g text = JS.Throw InvalidFormat <-> isValidGuid text = false) /\
  (isValidGuid text = true ->
     guidToBuffer text = JS.Ret (Buffer.from_hex (JS.removeAll "-"%char text)) /\
     length (Buffer.from_hex (JS.removeAll "-"%char text)) = 16%nat /\
     formatGuid (Buffer.from_hex (JS.removeAll "-"%char text)) = JS.toUpperCase text /\
     exists d, extractTimestamp g text = JS.Ret d).
Proof.
  destruct (isValidGuid text) eqn:V.
  - destruct (Parse.decode_valid text V) as [L F].
    assert (E : guidToBuffer text = JS.Ret (Buffer.from_hex (JS.removeAll "-"%char text))).
    { unfold guidToBuffer. rewrite V. reflexivity. }
    destruct (extractTimestamp_of_buffer g text _ E L) as [d D].
    repeat split; try congruence.
    exists d. exact D.
  - assert (E : guidToBuffer text = JS.Throw InvalidFormat).
    { unfold guidToBuffer. rewrite V. reflexivity. }
    assert (D : extractTimestamp g text = JS.Throw InvalidFormat).
    { unfold extractTimestamp. rewrite E. reflexivity. }
    repeat split; congruence.
Qed.

Lemma C7_invalid_format_witness :
  isValidGuid known_answer_text = true /\
  guidToBuffer known_answer_text
    = JS.Ret (Buffer.from_hex (JS.removeAll "-"%char known_answer_text)) /\
  length (Buffer.from_hex (JS.removeAll "-"%char known_answer_text)) = 16%nat /\
  formatGuid (Buffer.from_hex (JS.removeAll "-"%char known_answer_text))
    = JS.toUpperCase known_answer_text /\
  exists d, extractTimestamp sample_generator known_answer_text = JS.Ret d.
Proof.
  split; [reflexivity|].
  apply (C7_invalid_format sample_generator known_answer_text). reflexivity.
Defined.

End ParseErrors.

(* ------------------------------------------------------------------ *)
(** ** Construction *)

Module Construction.

Lemma constructor_supplied (m : Buffer.t) (ep : option Z) (w : World) :
  constructor {| opt_machineId := Some m; opt_epoch := ep |} w =
  if (length m =? 4)%nat
  then JS.Ret ({| machineId := m;
                  epoch := match ep with Some e => e | None => EPOCH end;
                  lastTimestamp := 0; sequence := 0 |}, w)
  else JS.Throw InvalidMachineId.
Proof.
  unfold constructor. cbn [opt_machineId opt_epoch].
  destruct (length m =? 4)%nat; reflexivity.
Qed.

(** A generator built without a machine id draws four random bytes and
    never fails. *)
Lemma constructor_default (ep : option Z) (w : World) :
  exists g w', constructor {| opt_machineId := None; opt_epoch := ep |} w = JS.Ret (g, w')
               /\ length (machineId g) = 4%nat.
Proof.
  unfold constructor, generateMachineId, randomBytes. cbn [opt_machineId opt_epoch].
  eexists. eexists. split; reflexivity.
Qed.

(** C9. A supplied machine id whose length is not 4 makes the constructor
    fail with [InvalidMachineId]; the machine id 12 34 56 78 is accepted and
    [getMachineId] then returns the text 12345678. *)
Theorem C9_machine_id (ep : option Z) (w : World) :
  (forall m : Buffer.t, length m <> 4%nat ->
     constructor {| opt_machineId := Some m; opt_epoch := ep |} w
       = JS.Throw InvalidMachineId) /\
  (exists g,
     constructor {| opt_machineId := Some [x12; x34; x56; x78]; opt_epoch := ep |} w
       = JS.Ret (g, w) /\
     getMachineId g = JS.lit "12345678").
Proof.
  split.
  - intros m Hm. rewrite constructor_supplied.
    destruct (Nat.eqb_spec (length m) 4); [contradiction | reflexivity].
  - rewrite constructor_supplied. cbn [length Nat.eqb].
    eexists. split; reflexivity.
Qed.

Lemma C9_machine_id_witness :
  length [x12; x34] <> 4%nat /\
  constructor {| opt_machineId := Some [x12; x34]; opt_epoch := None |}
              (steady_world 0 1 x00)
    = JS.Throw InvalidMachineId.
Proof.
  split; [discriminate|].
  apply (proj1 (C9_machine_id None (steady_world 0 1 x00))). discriminate.
Defined.

End Construction.

(* ------------------------------------------------------------------ *)
(** ** The 32-bit operators on the values the generator uses *)

Module Bits.

Lemma ToInt32_small (x : Z) : - JS.two31 <= x < JS.two31 -> JS.ToInt32 x = x.
Proof.
  unfold JS.ToInt32, JS.two31, JS.two32. intros H.
  destruct (Z.leb_spec 2147483648 (x mod 4294967296));
    Z.to_euclidean_division_equations; lia.
Qed.

Lemma ToInt32_range (x : Z) : - JS.two31 <= JS.ToInt32 x < JS.two31.
Proof.
  unfold JS.ToInt32, JS.two31, JS.two32.
  destruct (Z.leb_spec 2147483648 (x mod 4294967296));
    Z.to_euclidean_division_equations; lia.
Qed.

Lemma ToInt32_mod (x m : Z) :
  0 < m -> (m | JS.two32) -> JS.ToInt32 x mod m = x mod m.
Proof.
  intros Hm [k Hk]. unfold JS.ToInt32.
  assert (E : x mod JS.two32 = x - (x / JS.two32) * k * m).
  { rewrite Z.mod_eq by (unfold JS.two32; lia). rewrite Hk. ring. }
  destruct (JS.two31 <=? x mod JS.two32).
  - rewrite E. replace (x - x / JS.two32 * k * m - JS.two32)
      with (x + (- (x / JS.two32 * k) - k) * m) by (rewrite Hk; ring).
    apply Z.mod_add. lia.
  - rewrite E. replace (x - x / JS.two32 * k * m)
      with (x + (- (x / JS.two32 * k)) * m) by ring.
    apply Z.mod_add. lia.
Qed.

Lemma land_mask (x : Z) (n : Z) : 0 <= n -> Z.land x (Z.ones n) = x mod 2 ^ n.
Proof. apply Z.land_ones. Qed.

(** [t >>> 16] keeps bits 16 to 31 of [t]. *)
Lemma ushr_16 (t : Z) : JS.ushr t 16 = (t mod JS.two32) / 65536.
Proof.
  unfold JS.ushr, JS.ToUint32. change (16 mod 32) with 16.
  rewrite Z.shiftr_div_pow2 by lia. reflexivity.
Qed.

Lemma ushr_16_range (t : Z) : 0 <= JS.ushr t 16 <= 65535.
Proof.
  rewrite ushr_16. unfold JS.two32. Z.to_euclidean_division_equations; lia.
Qed.

(** [t & 0xFFFF] keeps bits 0 to 15 of [t]. *)
Lemma band_ffff (t : Z) : JS.band t 65535 = t mod 65536.
Proof.
  unfold JS.band. change (JS.ToInt32 65535) with (Z.ones 16).
  rewrite land_mask by lia. change (2 ^ 16) with 65536.
  apply ToInt32_mod; [lia|]. exists 65536. reflexivity.
Qed.

Lemma band_f (s : Z) : JS.band s 15 = s mod 16.
Proof.
  unfold JS.band. change (JS.ToInt32 15) with (Z.ones 4).
  rewrite land_mask by lia. change (2 ^ 4) with 16.
  apply ToInt32_mod; [lia|]. exists 268435456. reflexivity.
Qed.

Lemma below_pow2 (x n : Z) : 0 <= n -> Z.land x (Z.ones n) = x -> 0 <= x < 2 ^ n.
Proof.
  intros Hn E. rewrite land_mask in E by lia. rewrite <- E.
  apply Z.mod_pos_bound. apply Z.pow_pos_nonneg; lia.
Qed.

Lemma mod16_land (s : Z) : s mod 16 = Z.land s 15.
Proof. change 15 with (Z.ones 4). rewrite land_mask by lia. reflexivity. Qed.

Lemma mixed_range (m0 s : Z) : 0 <= mixed m0 s <= 65535.
Proof.
  assert (H : 0 <= mixed m0 s < 2 ^ 16); [|change (2 ^ 16) with 65536 in H; lia].
  apply below_pow2; [lia|]. unfold mixed. rewrite mod16_land.
  rewrite Z.land_lor_distr_l, <- !Z.land_assoc. reflexivity.
Qed.

Lemma mixed_low (m0 s : Z) : mixed m0 s mod 16 = s mod 16.
Proof.
  rewrite (mod16_land (mixed m0 s)). unfold mixed. rewrite (mod16_land s).
  rewrite Z.land_lor_distr_l, <- !Z.land_assoc.
  change (Z.land 65520 15) with 0. change (Z.land 15 15) with 15.
  rewrite Z.land_0_r, Z.lor_0_l. reflexivity.
Qed.

Lemma land_fff0_range (m0 : Z) : 0 <= m0 -> 0 <= Z.land m0 65520 <= 65535.
Proof.
  intros H.
  assert (B : 0 <= Z.land m0 65520 < 2 ^ 16); [|change (2 ^ 16) with 65536 in B; lia].
  apply below_pow2; [lia|]. rewrite <- Z.land_assoc. reflexivity.
Qed.

(** [(m0 & 0xFFF0) | (s & 0x000F)] for a half-word [m0]. *)
Lemma bor_band (m0 s : Z) :
  0 <= m0 <= 65535 ->
  JS.bor (JS.band m0 65520) (JS.band s 15) = mixed m0 s.
Proof.
  intros Hm. rewrite band_f. unfold JS.bor, JS.band, mixed.
  change (JS.ToInt32 65520) with 65520.
  rewrite (ToInt32_small m0) by (unfold JS.two31; lia).
  pose proof (land_fff0_range m0 (proj1 Hm)).
  rewrite (ToInt32_small (Z.land m0 65520)) by (unfold JS.two31; lia).
  assert (0 <= s mod 16 < 16) by (apply Z.mod_pos_bound; lia).
  rewrite (ToInt32_small (s mod 16)) by (unfold JS.two31; lia).
  reflexivity.
Qed.

Lemma u16_value (b0 b1 : byte) :
  Buffer.be_value [b0; b1] 0 = 256 * Buffer.byte_to_Z b0 + Buffer.byte_to_Z b1.
Proof. cbn [Buffer.be_value]. ring. Qed.

Lemma u16_bytes (v : Z) :
  0 <= v <= 65535 ->
  Buffer.be_value [Buffer.byte_of_Z (v / 256); Buffer.byte_of_Z v] 0 = v.
Proof.
  intros H. rewrite u16_value, !HexFacts.byte_to_of_Z.
  Z.to_euclidean_division_equations; lia.
Qed.

Lemma u16_split (b0 b1 : byte) :
  let v := 256 * Buffer.byte_to_Z b0 + Buffer.byte_to_Z b1 in
  0 <= v <= 65535 /\ Buffer.byte_of_Z (v / 256) = b0 /\ Buffer.byte_of_Z v = b1.
Proof.
  intros v. subst v.
  pose proof (HexFacts.byte_to_Z_range b0). pose proof (HexFacts.byte_to_Z_range b1).
  split; [lia|].
  replace ((256 * Buffer.byte_to_Z b0 + Buffer.byte_to_Z b1) / 256)
    with (Buffer.byte_to_Z b0) by (Z.to_euclidean_division_equations; lia).
  split; [apply HexFacts.byte_of_to_Z|].
  rewrite <- (HexFacts.byte_of_to_Z b1) at 2.
  unfold Buffer.byte_of_Z.
  replace ((256 * Buffer.byte_to_Z b0 + Buffer.byte_to_Z b1) mod 256)
    with (Buffer.byte_to_Z b1 mod 256) by (Z.to_euclidean_division_equations; lia).
  reflexivity.
Qed.

End Bits.

(* ------------------------------------------------------------------ *)
(** ** The packed layout *)

Module Packing.

Lemma writeUInt16BE_ok (buf : Buffer.t) (v : Z) (off : nat) :
  0 <= v <= 65535 -> (off + 2 <= length buf)%nat ->
  Buffer.writeUInt16BE buf v off =
  JS.Ret (Buffer.splice buf off [Buffer.byte_of_Z (v / 256); Buffer.byte_of_Z v]).
Proof.
  intros Hv Ho. unfold Buffer.writeUInt16BE.
  destruct (Z.leb_spec 0 v); [|lia]. destruct (Z.leb_spec v 65535); [|lia].
  destruct (Nat.leb_spec (off + 2) (length buf)); [reflexivity | lia].
Qed.

Lemma writeUInt32BE_ok (buf : Buffer.t) (v : Z) (off : nat) :
  0 <= v <= 4294967295 -> (off + 4 <= length buf)%nat ->
  Buffer.writeUInt32BE buf v off =
  JS.Ret (Buffer.splice buf off
            [Buffer.byte_of_Z (v / 16777216); Buffer.byte_of_Z (v / 65536);
             Buffer.byte_of_Z (v / 256); Buffer.byte_of_Z v]).
Proof.
  intros Hv Ho. unfold Buffer.writeUInt32BE.
  destruct (Z.leb_spec 0 v); [|lia]. destruct (Z.leb_spec v 4294967295); [|lia].
  destruct (Nat.leb_spec (off + 4) (length buf)); [reflexivity | lia].
Qed.

Ltac fits :=
  first [ lia
        | cbn [Buffer.splice Buffer.alloc repeat firstn skipn app length Nat.add]; lia ].

Lemma random_part_length (w : World) : length (random_part w) = 6%nat.
Proof. reflexivity. Qed.

Lemma assemble_packed (t : Z) (g : SequentialGuidGenerator) (w : World) (m0 m1 m2 m3 : byte) :
  machineId g = [m0; m1; m2; m3] ->
  assemble t g w =
  JS.Ret (packed t m0 m1 m2 m3 (sequence g) (random_part w), drawn_after 6 w).
Proof.
  intros Hm. unfold assemble. rewrite Hm.
  pose proof (Bits.ushr_16_range t) as Hhi.
  rewrite writeUInt32BE_ok by fits.
  cbn [JS.bind].
  assert (Hlo : 0 <= JS.band t 65535 <= 65535).
  { rewrite Bits.band_ffff. Z.to_euclidean_division_equations; lia. }
  rewrite writeUInt16BE_ok by fits.
  cbn [JS.bind].
  unfold Buffer.readUInt16BE, Buffer.read_be.
  cbn [length Nat.add Nat.leb JS.bind firstn skipn].
  rewrite !Bits.u16_value.
  destruct (Bits.u16_split m0 m1) as (R0 & _ & _).
  destruct (Bits.u16_split m2 m3) as (R2 & E2 & E3).
  cbn zeta in R0, R2, E2, E3.
  rewrite (Bits.bor_band _ (sequence g) R0).
  pose proof (Bits.mixed_range (256 * Buffer.byte_to_Z m0 + Buffer.byte_to_Z m1) (sequence g)).
  rewrite writeUInt16BE_ok by fits.
  cbn [JS.bind].
  rewrite writeUInt16BE_ok by fits.
  cbn [JS.bind]. rewrite E2, E3.
  reflexivity.
Qed.

End Packing.

(* ------------------------------------------------------------------ *)
(** ** Rounding to the nearest double *)

Module Rounding.
Import Float64.

Lemma nearest_even_le (n d K : Z) : 0 < d -> n <= K * d -> nearest_even n d <= K.
Proof.
  intros Hd H. unfold nearest_even.
  pose proof (Z.div_mod n d) as E. pose proof (Z.mod_pos_bound n d Hd) as R.
  assert (Q : n / d <= K) by (apply Z.div_le_upper_bound; lia).
  assert (Q' : 0 < n mod d -> n / d + 1 <= K) by nia.
  destruct (Z.compare_spec (2 * (n mod d)) d); [destruct (Z.even (n / d))| |]; lia.
Qed.

Lemma nearest_even_ge (n d K : Z) : 0 < d -> K * d <= n -> K <= nearest_even n d.
Proof.
  intros Hd H. unfold nearest_even.
  assert (Q : K <= n / d) by (apply Z.div_le_lower_bound; lia).
  destruct (2 * (n mod d) ?= d); [destruct (Z.even (n / d))| |]; lia.
Qed.

Lemma ilog2_low (a d : Z) :
  0 < a -> 0 < d -> 0 <= ilog2 a d -> d * 2 ^ ilog2 a d <= a.
Proof.
  intros Ha Hd. unfold ilog2.
  pose proof (Z.log2_spec a Ha) as [La _]. pose proof (Z.log2_spec d Hd) as [_ Ld].
  pose proof (Z.log2_nonneg a). pose proof (Z.log2_nonneg d).
  set (k := Z.log2 a - Z.log2 d).
  destruct (Z.leb_spec 0 k) as [K|K].
  - destruct (Z.leb_spec (d * 2 ^ k) a) as [T|T]; intros P; [exact T|].
    assert (E : 2 ^ Z.log2 a = 2 ^ (Z.succ (Z.log2 d)) * 2 ^ (k - 1)).
    { rewrite <- Z.pow_add_r by lia. f_equal. lia. }
    assert (0 < 2 ^ (k - 1)) by (apply Z.pow_pos_nonneg; lia).
    nia.
  - destruct (d <=? a * 2 ^ (- k)); lia.
Qed.

Lemma dyadic_le (m e B : Z) :
  (0 <= e -> m * 2 ^ e <= B) -> (e < 0 -> m <= B * 2 ^ (- e)) ->
  (dyadic m e <= inject_Z B)%Q.
Proof.
  intros P N. unfold dyadic. destruct (Z.leb_spec 0 e) as [H|H].
  - rewrite <- Zle_Qle. auto.
  - unfold Qle. cbn [Qnum Qden inject_Z].
    rewrite Z2Pos.id by (apply Z.pow_pos_nonneg; lia). specialize (N H). lia.
Qed.

Lemma dyadic_ge (m e B : Z) :
  (0 <= e -> B <= m * 2 ^ e) -> (e < 0 -> B * 2 ^ (- e) <= m) ->
  (inject_Z B <= dyadic m e)%Q.
Proof.
  intros P N. unfold dyadic. destruct (Z.leb_spec 0 e) as [H|H].
  - rewrite <- Zle_Qle. auto.
  - unfold Qle. cbn [Qnum Qden inject_Z].
    rewrite Z2Pos.id by (apply Z.pow_pos_nonneg; lia). specialize (N H). lia.
Qed.

Lemma dyadic_opp (m e : Z) : dyadic (- m) e = Qopp (dyadic m e).
Proof.
  unfold dyadic. destruct (0 <=? e).
  - unfold inject_Z, Qopp. cbn. f_equal. lia.
  - reflexivity.
Qed.

Lemma nearest_nonneg (a d : Z) : 0 < a -> 0 < d -> 0 <= fst (nearest a d).
Proof.
  intros Ha Hd. unfold nearest. cbn [fst].
  destruct (0 <=? _) eqn:He.
  - apply nearest_even_ge; [|lia]. apply Z.mul_pos_pos; [lia|].
    apply Z.pow_pos_nonneg; [lia|]. apply Z.leb_le. assumption.
  - apply nearest_even_ge; [lia|]. rewrite Z.mul_0_l.
    apply Z.mul_nonneg_nonneg; [lia | apply Z.pow_nonneg; lia].
Qed.

Lemma nearest_le (a d B : Z) :
  0 < a -> 0 < d -> representable B -> a <= B * d ->
  (dyadic (fst (nearest a d)) (snd (nearest a d)) <= inject_Z B)%Q.
Proof.
  intros Ha Hd (z & k & Hz & Hk & ->) H. unfold nearest. cbn [fst snd].
  set (e := Z.max (ilog2 a d - 52) (-1074)).
  assert (Pk : 0 < 2 ^ k) by (apply Z.pow_pos_nonneg; lia).
  apply dyadic_le; intros He.
  - destruct (Z.leb_spec 0 e); [|lia].
    assert (Le : e <= k).
    { destruct (Z.le_gt_cases e k) as [|G]; [assumption|exfalso].
      assert (L0 : 0 <= ilog2 a d) by lia.
      pose proof (ilog2_low a d Ha Hd L0) as Lw.
      assert (E : 2 ^ ilog2 a d = 2 ^ 53 * 2 ^ k * 2 ^ (ilog2 a d - 53 - k)).
      { rewrite <- !Z.pow_add_r by lia. f_equal. lia. }
      assert (0 < 2 ^ (ilog2 a d - 53 - k)) by (apply Z.pow_pos_nonneg; lia).
      assert (z * 2 ^ k < 2 ^ 53 * 2 ^ k) by nia.
      nia. }
    assert (E : 2 ^ k = 2 ^ (k - e) * 2 ^ e) by (rewrite <- Z.pow_add_r by lia; f_equal; lia).
    assert (Pe : 0 < 2 ^ e) by (apply Z.pow_pos_nonneg; lia).
    assert (nearest_even a (d * 2 ^ e) <= z * 2 ^ (k - e)).
    { apply nearest_even_le; [nia|]. rewrite E in H. nia. }
    rewrite E. nia.
  - destruct (Z.leb_spec 0 e); [lia|].
    assert (Pe : 0 < 2 ^ (- e)) by (apply Z.pow_pos_nonneg; lia).
    apply nearest_even_le; [lia|]. nia.
Qed.

Lemma nearest_ge (a d B : Z) :
  0 < a -> 0 < d -> representable B -> B * d <= a ->
  (inject_Z B <= dyadic (fst (nearest a d)) (snd (nearest a d)))%Q.
Proof.
  intros Ha Hd (z & k & Hz & Hk & ->) H. unfold nearest. cbn [fst snd].
  set (e := Z.max (ilog2 a d - 52) (-1074)).
  assert (Pk : 0 < 2 ^ k) by (apply Z.pow_pos_nonneg; lia).
  apply dyadic_ge; intros He.
  - destruct (Z.leb_spec 0 e); [|lia].
    assert (Pe : 0 < 2 ^ e) by (apply Z.pow_pos_nonneg; lia).
    destruct (Z.le_gt_cases e k) as [Le|G].
    + assert (E : 2 ^ k = 2 ^ (k - e) * 2 ^ e) by (rewrite <- Z.pow_add_r by lia; f_equal; lia).
      assert (z * 2 ^ (k - e) <= nearest_even a (d * 2 ^ e)).
      { apply nearest_even_ge; [nia|]. rewrite E in H. nia. }
      rewrite E. nia.
    + assert (L0 : 0 <= ilog2 a d) by lia.
      pose proof (ilog2_low a d Ha Hd L0) as Lw.
      assert (El : ilog2 a d = e + 52) by lia.
      rewrite El in Lw. rewrite Z.pow_add_r in Lw by lia.
      assert (2 ^ 52 <= nearest_even a (d * 2 ^ e)).
      { apply nearest_even_ge; [nia|]. nia. }
      assert (E : 2 ^ e = 2 ^ (e - k - 1) * 2 * 2 ^ k).
      { replace (2 ^ (e - k - 1) * 2) with (2 ^ (e - k - 1) * 2 ^ 1) by reflexivity.
        rewrite <- !Z.pow_add_r by lia. f_equal. lia. }
      assert (0 < 2 ^ (e - k - 1)) by (apply Z.pow_pos_nonneg; lia).
      set (N := nearest_even a (d * 2 ^ e)) in *.
      rewrite E.
      set (P := 2 ^ (e - k - 1)) in *. set (K := 2 ^ k) in *.
      assert (Z1 : z * K <= 2 ^ 53 * K) by nia.
      assert (Z2 : 2 ^ 52 <= N * P) by nia.
      assert (Z3 : 2 ^ 52 * (2 * K) <= (N * P) * (2 * K))
        by (apply Z.mul_le_mono_nonneg_r; lia).
      change (2 ^ 53) with 9007199254740992 in Z1.
      change (2 ^ 52) with 4503599627370496 in Z2, Z3.
      nia.
  - destruct (Z.leb_spec 0 e); [lia|].
    assert (Pe : 0 < 2 ^ (- e)) by (apply Z.pow_pos_nonneg; lia).
    apply nearest_even_ge; [lia|]. nia.
Qed.

Lemma representable_opp (B : Z) : representable B -> representable (- B).
Proof.
  intros (z & k & Hz & Hk & ->). exists (- z), k. split; [lia|]. split; [lia|]. ring.
Qed.

Lemma representable_0 : representable 0.
Proof. exists 0, 0. split; [reflexivity|]. split; [lia | reflexivity]. Qed.

Lemma representable_small (B : Z) : Z.abs B < 2 ^ 53 -> representable B.
Proof. intros H. exists B, 0. split; [exact H|]. split; [lia | ring]. Qed.

Lemma round_proper (x y : Q) : (x == y)%Q -> round x = round y.
Proof. intros H. unfold round. rewrite (Qred_complete x y H). reflexivity. Qed.

Lemma round_le (x : Q) (B : Z) :
  representable B -> (x <= inject_Z B)%Q -> (round x <= inject_Z B)%Q.
Proof.
  intros RB H. unfold round.
  rewrite <- (Qred_correct x) in H.
  destruct (Qred x) as [n d]. cbn [Qnum Qden].
  unfold Qle in H. cbn [Qnum Qden inject_Z] in H. rewrite Z.mul_1_r in H.
  destruct n as [|a|a].
  - unfold Qle. cbn. lia.
  - pose proof (nearest_le (Zpos a) (Zpos d) B eq_refl eq_refl RB H) as L.
    destruct (nearest (Zpos a) (Zpos d)) as [m e]. cbn [fst snd] in L.
    rewrite Qred_correct. exact L.
  - destruct (Z.le_gt_cases 0 B) as [P|N].
    + pose proof (nearest_nonneg (Zpos a) (Zpos d) eq_refl eq_refl) as M.
      pose proof (nearest_ge (Zpos a) (Zpos d) 0 eq_refl eq_refl representable_0) as L.
      destruct (nearest (Zpos a) (Zpos d)) as [m e]. cbn [fst snd] in *.
      rewrite Qred_correct, dyadic_opp.
      apply Qle_trans with (y := inject_Z 0); [|rewrite <- Zle_Qle; exact P].
      apply (Qopp_le_compat (inject_Z 0)). apply L. lia.
    + pose proof (nearest_ge (Zpos a) (Zpos d) (- B) eq_refl eq_refl
                    (representable_opp B RB)) as L.
      destruct (nearest (Zpos a) (Zpos d)) as [m e]. cbn [fst snd] in *.
      rewrite Qred_correct, dyadic_opp.
      replace (inject_Z B) with (Qopp (inject_Z (- B)))
        by (unfold Qopp, inject_Z; cbn; f_equal; lia).
      apply Qopp_le_compat. apply L. lia.
Qed.

Lemma round_opp (x : Q) : round (Qopp x) = Qopp (round x).
Proof.
  unfold round.
  assert (E : Qred (- x) = Qopp (Qred x)).
  { rewrite <- Qred_opp. reflexivity. }
  rewrite E. destruct (Qred x) as [n d]. cbn [Qopp Qnum Qden].
  destruct n as [|a|a]; cbn [Z.opp]; try reflexivity.
  - destruct (nearest (Zpos a) (Zpos d)) as [m e].
    rewrite dyadic_opp. rewrite Qred_opp. reflexivity.
  - destruct (nearest (Zpos a) (Zpos d)) as [m e].
    rewrite dyadic_opp, Qred_opp.
    destruct (Qred (dyadic m e)) as [n' d']. unfold Qopp. cbn [Qnum Qden].
    rewrite Z.opp_involutive. reflexivity.
Qed.

Lemma round_ge (x : Q) (B : Z) :
  representable B -> (inject_Z B <= x)%Q -> (inject_Z B <= round x)%Q.
Proof.
  intros RB H.
  assert (E : (inject_Z B == - inject_Z (- B))%Q).
  { unfold Qeq, Qopp, inject_Z. cbn. lia. }
  assert (L : (round (- x) <= inject_Z (- B))%Q).
  { apply round_le; [apply representable_opp; exact RB|].
    rewrite inject_Z_opp. apply Qopp_le_compat. exact H. }
  rewrite round_opp in L. rewrite E.
  rewrite <- (Qopp_involutive (round x)). apply Qopp_le_compat. exact L.
Qed.

(** A representable number is its own rounding. *)
Lemma round_exact (x : Q) (B : Z) :
  representable B -> (x == inject_Z B)%Q -> round x = inject_Z B.
Proof.
  intros RB H.
  assert (E : (round x == inject_Z B)%Q).
  { apply Qle_antisym; [apply round_le | apply round_ge]; try assumption;
      rewrite H; apply Qle_refl. }
  assert (C : Qred (round x) = round x).
  { unfold round. destruct (Qnum (Qred x)); [reflexivity| |];
      destruct (nearest _ _); apply Qcanon.Qred_involutive. }
  rewrite <- C. rewrite (Qred_complete _ _ E).
  apply Qcanon.Qred_identity. apply Z.gcd_1_r.
Qed.

Lemma representable_scaled (z : Z) (k : Z) :
  Z.abs z < 2 ^ 53 -> 0 <= k -> representable (z * 2 ^ k).
Proof. intros. exists z, k. auto. Qed.

End Rounding.

(** The arithmetic at sample inputs, and against the specification of
    binary64 of the Standard Library. *)
Module Float64Examples.
Import Float64.

(** Ticks that double precision rounds: 15208988800001 ms after the
    default epoch; a reading of 2023 with the epoch 0001-01-01; two
    consecutive milliseconds with the earliest epoch, which get the same
    tick.  And a tick that is exact. *)
Example rounded_ticks :
  ticks_of sample_generator 13000000000001 = 152089888000009984 /\
  ticks_of ancient_generator 1700000000001 = 638355968000009984 /\
  ticks_of far_generator 1700000000001 = 86417000000000016384 /\
  ticks_of far_generator 1700000000002 = 86417000000000016384 /\
  ticks_of sample_generator 1700000000000 = 39089888000000000.
Proof. repeat split; vm_compute; reflexivity. Qed.

(** A difference of time values that is rounded, a quotient, and the sum
    of [extractTimestamp]. *)
Example rounded_values :
  sub (inject_Z 8639999999999999) (inject_Z (-8640000000000000))
    = inject_Z 17280000000000000 /\
  div (inject_Z 1) (inject_Z 3) = (6004799503160661 # 18014398509481984)%Q /\
  add (inject_Z (-5000000000000000)) (div (inject_Z (-2147483648)) (inject_Z 10000))
    = inject_Z (-5000000000214748) /\
  add (inject_Z (-8000000000000000)) (div (inject_Z 3000) (inject_Z 10000))
    = inject_Z (-8000000000000000).
Proof. repeat split; vm_compute; reflexivity. Qed.

Example agrees_with_SpecFloat :
  to_Q (SFmul 53 1024 (SFsub 53 1024 (of_Z 13000000000001) (of_Z EPOCH)) (of_Z 10000))
    = Some (mul (sub (inject_Z 13000000000001) (inject_Z EPOCH)) (inject_Z 10000)) /\
  to_Q (SFmul 53 1024 (SFsub 53 1024 (of_Z 1700000000002) (of_Z (-8640000000000000)))
                      (of_Z 10000))
    = Some (mul (sub (inject_Z 1700000000002) (inject_Z (-8640000000000000)))
                (inject_Z 10000)) /\
  to_Q (SFsub 53 1024 (of_Z 8639999999999999) (of_Z (-8640000000000000)))
    = Some (sub (inject_Z 8639999999999999) (inject_Z (-8640000000000000))) /\
  to_Q (SFdiv 53 1024 (of_Z 1) (of_Z 3)) = Some (div (inject_Z 1) (inject_Z 3)) /\
  to_Q (SFdiv 53 1024 (of_Z (-2147483648)) (of_Z 10000))
    = Some (div (inject_Z (-2147483648)) (inject_Z 10000)) /\
  to_Q (SFadd 53 1024 (of_Z EPOCH) (SFdiv 53 1024 (of_Z (-2147483648)) (of_Z 10000)))
    = Some (add (inject_Z EPOCH) (div (inject_Z (-2147483648)) (inject_Z 10000))) /\
  to_Q (SFadd 53 1024 (of_Z (-5000000000000000))
                      (SFdiv 53 1024 (of_Z (-2147483648)) (of_Z 10000)))
    = Some (add (inject_Z (-5000000000000000))
                (div (inject_Z (-2147483648)) (inject_Z 10000))).
Proof. repeat split; vm_compute; reflexivity. Qed.

End Float64Examples.

(** The tick of a reading. *)
Module Ticks.
Import Rounding.

Lemma ticks_of_exact (g : SequentialGuidGenerator) (now : Z) :
  exact_reading g now -> ticks_of g now = (now - epoch g) * TICKS_PER_MILLISECOND.
Proof.
  unfold exact_reading, ticks_of, Float64.floor, Float64.mul, Float64.sub,
    TICKS_PER_MILLISECOND.
  intros H.
  rewrite (round_exact (inject_Z now - inject_Z (epoch g)) (now - epoch g)).
  - rewrite (round_exact _ ((now - epoch g) * 625 * 2 ^ 4)).
    + rewrite Qfloor_Z. change (2 ^ 4) with 16. ring.
    + apply representable_scaled; lia.
    + rewrite <- inject_Z_mult. change (2 ^ 4) with 16.
      replace ((now - epoch g) * 625 * 16) with ((now - epoch g) * 10000) by ring.
      reflexivity.
  - apply representable_small. lia.
  - unfold Qminus. rewrite <- inject_Z_opp, <- inject_Z_plus. reflexivity.
Qed.

Lemma ticks_of_epoch (g g' : SequentialGuidGenerator) (a : Z) :
  epoch g' = epoch g -> ticks_of g' a = ticks_of g a.
Proof. unfold ticks_of. intros ->. reflexivity. Qed.

(** Where the ticks are exact, later times have later ticks. *)
Lemma exact_increasing (g : SequentialGuidGenerator) (w : World) (lo hi : nat) :
  exact_clock g w lo hi -> ticks_increasing g w lo hi.
Proof.
  intros X i j Hi Hj L.
  rewrite (ticks_of_exact g _ (X i Hi)), (ticks_of_exact g _ (X j Hj)).
  unfold TICKS_PER_MILLISECOND. lia.
Qed.

Lemma increasing_le (g : SequentialGuidGenerator) (w : World) (lo hi i j : nat) :
  ticks_increasing g w lo hi -> (lo <= i < hi)%nat -> (lo <= j < hi)%nat ->
  clock w i <= clock w j -> ticks_of g (clock w i) <= ticks_of g (clock w j).
Proof.
  intros T Hi Hj L. destruct (Z.eq_dec (clock w i) (clock w j)) as [E|N].
  - rewrite E. lia.
  - apply Z.lt_le_incl. apply T; try assumption. lia.
Qed.

Lemma increasing_narrower (g g' : SequentialGuidGenerator) (w w' : World)
    (lo hi lo' hi' : nat) :
  epoch g' = epoch g -> clock w' = clock w -> (lo <= lo')%nat -> (hi' <= hi)%nat ->
  ticks_increasing g w lo hi -> ticks_increasing g' w' lo' hi'.
Proof.
  intros Ep C Hl Hh T i j Hi Hj L. rewrite C in *.
  rewrite !(ticks_of_epoch g g' _ Ep). apply T; try lia.
Qed.

End Ticks.

(* ------------------------------------------------------------------ *)
(** ** The busy-wait and the timestamp *)

Module Timestamp.

Lemma busyWait_spec (f : nat) (now : Z) :
  forall w w', busyWait f now w = JS.Ret w' ->
    clock w' = clock w /\ entropy w' = entropy w /\ drawn w' = drawn w /\
    (reads w < reads w')%nat /\
    now < clock w (pred (reads w')) /\
    (forall k, (reads w <= k < pred (reads w'))%nat -> clock w k <= now).
Proof.
  induction f as [|f IH]; intros w w' H; [discriminate H|].
  cbn [busyWait Date_now] in H.
  destruct (Z.leb_spec (clock w (reads w)) now) as [Hle|Hgt].
  - apply IH in H. cbn [clock entropy drawn reads] in H.
    destruct H as (C & E & D & R & N & B).
    repeat split; try assumption; try lia.
    intros k Hk. destruct (Nat.eq_dec k (reads w)) as [->|Hne]; [exact Hle|].
    apply B. lia.
  - injection H as <-. cbn [clock entropy drawn reads pred].
    repeat split; try lia.
Qed.

Lemma busyWait_mono (f : nat) (now : Z) :
  forall w w' f', busyWait f now w = JS.Ret w' -> (f <= f')%nat ->
                  busyWait f' now w = JS.Ret w'.
Proof.
  induction f as [|f IH]; intros w w' f' H Hf; [discriminate H|].
  destruct f' as [|f']; [lia|].
  cbn [busyWait Date_now] in *.
  destruct (clock w (reads w) <=? now).
  - apply IH; [exact H | lia].
  - exact H.
Qed.

Lemma busyWait_total (now : Z) (d : nat) :
  forall w, now < clock w (reads w + d)%nat ->
            exists w', busyWait (S d) now w = JS.Ret w'.
Proof.
  induction d as [|d IH]; intros w H.
  - rewrite Nat.add_0_r in H. cbn [busyWait Date_now].
    destruct (Z.leb_spec (clock w (reads w)) now); [lia|]. eexists. reflexivity.
  - cbn [busyWait Date_now].
    destruct (Z.leb_spec (clock w (reads w)) now); [|eexists; reflexivity].
    apply IH. cbn [clock reads].
    replace (reads w + S d)%nat with (S (reads w + d)) in H by lia. exact H.
Qed.

Lemma busyWait_no_throw (f : nat) (now : Z) :
  forall w e, busyWait f now w <> JS.Throw e.
Proof.
  induction f as [|f IH]; intros w e; [discriminate|].
  cbn [busyWait Date_now].
  destruct (clock w (reads w) <=? now); [apply IH | discriminate].
Qed.

(** One invocation of [getTimestamp], branch by branch. *)
Lemma getTimestamp_differs (f : nat) (g : SequentialGuidGenerator) (now : Z) (w : World) :
  ticks_of g now <> lastTimestamp g ->
  getTimestamp (S f) g now w =
  JS.Ret (ticks_of g now,
          set_lastTimestamp (set_sequence g 0) (ticks_of g now), w).
Proof.
  intros H. cbn [getTimestamp]. fold (ticks_of g now).
  destruct (Z.eqb_spec (ticks_of g now) (lastTimestamp g)); [contradiction|].
  reflexivity.
Qed.

Lemma getTimestamp_same (f : nat) (g : SequentialGuidGenerator) (now : Z) (w : World) :
  ticks_of g now = lastTimestamp g ->
  getTimestamp (S f) g now w =
  let g1 := set_sequence g ((sequence g + 1) mod 16) in
  if sequence g1 =? 0 then
    w1 <- busyWait f now w ;;
    getTimestamp f g1 (clock w1 (reads w1)) (snd (Date_now w1))
  else JS.Ret (ticks_of g now, set_lastTimestamp g1 (ticks_of g now), w).
Proof.
  intros H. cbn [getTimestamp]. fold (ticks_of g now).
  rewrite H, Z.eqb_refl, Bits.band_f. reflexivity.
Qed.

End Timestamp.

Module TimestampPost.
Import Timestamp.

Lemma getTimestamp_mono (f : nat) :
  forall g now w x f', getTimestamp f g now w = JS.Ret x -> (f <= f')%nat ->
                       getTimestamp f' g now w = JS.Ret x.
Proof.
  induction f as [|f IH]; intros g now w x f' H Hf; [discriminate H|].
  destruct f' as [|f']; [lia|].
  cbn [getTimestamp] in *.
  fold (ticks_of g now) in *.
  destruct (ticks_of g now =? lastTimestamp g); [|exact H].
  cbn [sequence set_sequence] in *.
  destruct (JS.band (sequence g + 1) 15 =? 0); [|exact H].
  destruct (busyWait f now w) as [w1| |] eqn:B; try discriminate H.
  rewrite (busyWait_mono f now w w1 f' B) by lia.
  cbn [JS.bind] in *. destruct (Date_now w1) as [now' w2].
  apply IH; [exact H | lia].
Qed.

Lemma getTimestamp_post (f : nat) (g : SequentialGuidGenerator) (now : Z) (w : World)
    (t : Z) (g' : SequentialGuidGenerator) (w' : World) :
  getTimestamp f g now w = JS.Ret (t, g', w') ->
  machineId g' = machineId g /\ epoch g' = epoch g /\ lastTimestamp g' = t /\
  0 <= sequence g' <= 15 /\
  clock w' = clock w /\ entropy w' = entropy w /\ drawn w' = drawn w /\
  (returned_at_once g now w t g' w' \/ returned_after_wait g now w t g' w').
Proof.
  intros H. destruct f as [|f]; [discriminate H|].
  destruct (Z.eq_dec (ticks_of g now) (lastTimestamp g)) as [E|N].
  - rewrite (getTimestamp_same f g now w E) in H. cbn zeta in H.
    cbn [sequence set_sequence] in H.
    assert (R : 0 <= (sequence g + 1) mod 16 < 16) by (apply Z.mod_pos_bound; lia).
    destruct (Z.eqb_spec ((sequence g + 1) mod 16) 0) as [Z0|NZ].
    + (* the sequence wrapped: wait, then one more invocation *)
      destruct (busyWait f now w) as [w1| |] eqn:B; try discriminate H.
      cbn [JS.bind] in H.
      apply busyWait_spec in B. destruct B as (C1 & E1 & D1 & R1 & N1 & B1).
      destruct f as [|f]; [discriminate H|].
      rewrite Z0 in H.
      set (g1 := set_sequence g 0) in H.
      set (now' := clock w1 (reads w1)) in H.
      assert (W2 : reads (snd (Date_now w1)) = S (reads w1)) by reflexivity.
      destruct (Z.eq_dec (ticks_of g1 now') (lastTimestamp g1)) as [E'|N'].
      * rewrite (getTimestamp_same f g1 now' _ E') in H. cbn in H.
        injection H as <- <- <-. cbn.
        repeat split; try assumption; try lia.
        right. unfold returned_after_wait. cbn [reads].
        replace (S (reads w1) - 2)%nat with (pred (reads w1)) by lia.
        replace (S (reads w1) - 1)%nat with (reads w1) by lia.
        repeat split; try assumption; try lia.
        -- subst now'. rewrite C1. reflexivity.
        -- right. split; [exact E' | reflexivity].
      * rewrite (getTimestamp_differs f g1 now' _ N') in H.
        injection H as <- <- <-. cbn.
        repeat split; try assumption; try lia.
        right. unfold returned_after_wait. cbn [reads].
        replace (S (reads w1) - 2)%nat with (pred (reads w1)) by lia.
        replace (S (reads w1) - 1)%nat with (reads w1) by lia.
        repeat split; try assumption; try lia.
        -- subst now'. rewrite C1. reflexivity.
        -- left. split; [exact N' | reflexivity].
    + injection H as <- <- <-. cbn.
      repeat split; try lia.
      left. unfold returned_at_once. cbn.
      repeat split. right. repeat split; try assumption.
  - rewrite (getTimestamp_differs f g now w N) in H.
    injection H as <- <- <-. cbn.
    repeat split; try lia.
    left. unfold returned_at_once. cbn. repeat split. left. split; [exact N | reflexivity].
Qed.

Lemma getTimestamp_no_throw (f : nat) :
  forall g now w e, getTimestamp f g now w <> JS.Throw e.
Proof.
  induction f as [|f IH]; intros g now w e; [discriminate|].
  cbn [getTimestamp].
  destruct (_ =? lastTimestamp g); [|discriminate].
  destruct (sequence _ =? 0); [|discriminate].
  destruct (busyWait f now w) as [w1| |] eqn:B; cbn [JS.bind].
  - destruct (Date_now w1). apply IH.
  - exfalso. exact (busyWait_no_throw f now w e0 B).
  - discriminate.
Qed.

End TimestampPost.

(* ------------------------------------------------------------------ *)
(** ** One call of [generate] *)

Module Generate.
Import Timestamp TimestampPost Packing.

Lemma generate_unfold (f : nat) (g : SequentialGuidGenerator) (w : World) :
  generate f g w =
  ('(timestamp, g1, w2) <- getTimestamp f g (first_reading w) (after_reading w) ;;
   '(guid, w3) <- assemble timestamp g1 w2 ;;
   JS.Ret (formatGuid guid, g1, w3)).
Proof. reflexivity. Qed.

Lemma generate_intro (f : nat) (g : SequentialGuidGenerator) (w : World)
    (m0 m1 m2 m3 : byte) (t : Z) (g' : SequentialGuidGenerator) (w2 : World) :
  machineId g = [m0; m1; m2; m3] ->
  getTimestamp f g (first_reading w) (after_reading w) = JS.Ret (t, g', w2) ->
  generate f g w =
  JS.Ret (formatGuid (packed t m0 m1 m2 m3 (sequence g') (random_part w2)),
          g', drawn_after 6 w2).
Proof.
  intros Hm H. rewrite generate_unfold, H. cbn [JS.bind].
  destruct (getTimestamp_post _ _ _ _ _ _ _ H) as (M & _).
  rewrite (assemble_packed t g' w2 m0 m1 m2 m3) by congruence.
  reflexivity.
Qed.

Lemma generate_inv (f : nat) (g : SequentialGuidGenerator) (w : World)
    (m0 m1 m2 m3 : byte) (id : JS.str) (g' : SequentialGuidGenerator) (w' : World) :
  machineId g = [m0; m1; m2; m3] ->
  generate f g w = JS.Ret (id, g', w') ->
  exists t w2,
    getTimestamp f g (first_reading w) (after_reading w) = JS.Ret (t, g', w2) /\
    id = formatGuid (packed t m0 m1 m2 m3 (sequence g') (random_part w2)) /\
    w' = drawn_after 6 w2.
Proof.
  intros Hm H.
  destruct (getTimestamp f g (first_reading w) (after_reading w))
    as [[[t g1] w2]| |] eqn:T.
  - rewrite (generate_intro f g w m0 m1 m2 m3 t g1 w2 Hm T) in H.
    injection H as <- <- <-. exists t, w2. repeat split.
  - rewrite generate_unfold, T in H. discriminate H.
  - rewrite generate_unfold, T in H. discriminate H.
Qed.

Lemma generate_mono (f f' : nat) (g : SequentialGuidGenerator) (w : World)
    (x : JS.str * SequentialGuidGenerator * World) :
  generate f g w = JS.Ret x -> (f <= f')%nat -> generate f' g w = JS.Ret x.
Proof.
  intros H Hf. rewrite generate_unfold in *.
  destruct (getTimestamp f g (first_reading w) (after_reading w))
    as [y| |] eqn:T; try discriminate H.
  rewrite (getTimestamp_mono f g _ _ y f' T Hf). exact H.
Qed.

(** With a machine id of four bytes, [generate] throws nothing. *)
Lemma generate_no_throw (f : nat) (g : SequentialGuidGenerator) (w : World) (e : JS.exn) :
  length (machineId g) = 4%nat -> generate f g w <> JS.Throw e.
Proof.
  intros L H.
  destruct (machineId g) as [|m0 [|m1 [|m2 [|m3 [|]]]]] eqn:Hm; try discriminate L.
  destruct (getTimestamp f g (first_reading w) (after_reading w))
    as [[[t g1] w2]| |] eqn:T.
  - rewrite (generate_intro f g w m0 m1 m2 m3 t g1 w2 Hm T) in H. discriminate H.
  - exact (getTimestamp_no_throw _ _ _ _ _ T).
  - rewrite generate_unfold, T in H. discriminate H.
Qed.

Lemma getTimestamp_total (g : SequentialGuidGenerator) (now : Z) (w : World) (d : nat) :
  now < clock w (reads w + d)%nat ->
  exists x, getTimestamp (S (S d)) g now w = JS.Ret x.
Proof.
  intros H.
  destruct (Z.eq_dec (ticks_of g now) (lastTimestamp g)) as [E|N].
  - rewrite (getTimestamp_same _ g now w E). cbn zeta. cbn [sequence set_sequence].
    destruct (Z.eqb_spec ((sequence g + 1) mod 16) 0) as [Z0|NZ]; [|eexists; reflexivity].
    destruct (busyWait_total now d w H) as [w1 B]. rewrite B. cbn [JS.bind].
    rewrite Z0.
    set (g1 := set_sequence g 0). set (now' := clock w1 (reads w1)).
    destruct (Z.eq_dec (ticks_of g1 now') (lastTimestamp g1)) as [E'|N'].
    + rewrite (getTimestamp_same _ g1 now' _ E'). eexists. reflexivity.
    + rewrite (getTimestamp_differs _ g1 now' _ N'). eexists. reflexivity.
  - rewrite (getTimestamp_differs _ g now w N). eexists. reflexivity.
Qed.

Lemma generate_total (g : SequentialGuidGenerator) (w : World) :
  length (machineId g) = 4%nat -> clock_advances w ->
  exists f x, generate f g w = JS.Ret x.
Proof.
  intros L A.
  destruct (machineId g) as [|m0 [|m1 [|m2 [|m3 [|]]]]] eqn:Hm; try discriminate L.
  destruct (A (reads w)) as (j & Hj & Hc).
  destruct (getTimestamp_total g (first_reading w) (after_reading w) (j - S (reads w)))
    as [[[t g1] w2] T].
  { unfold after_reading, first_reading. cbn [Date_now snd clock reads].
    replace (S (reads w) + (j - S (reads w)))%nat with j by lia. exact Hc. }
  eexists. eexists.
  apply (generate_intro _ g w m0 m1 m2 m3 t g1 w2 Hm T).
Qed.

End Generate.

(* ------------------------------------------------------------------ *)
(** ** Reading the packed fields back *)

Module Layout.
Import Packing.

Section Fields.
Variables (t : Z) (m0 m1 m2 m3 : byte) (s : Z) (r : list byte).

Let buf : Buffer.t := packed t m0 m1 m2 m3 s r.
Let half0 : Z := 256 * Buffer.byte_to_Z m0 + Buffer.byte_to_Z m1.
Let half1 : Z := 256 * Buffer.byte_to_Z m2 + Buffer.byte_to_Z m3.

Lemma packed_length : length r = 6%nat -> length buf = 16%nat.
Proof. intros H. subst buf. unfold packed. cbn [length app]. rewrite H. reflexivity. Qed.

(** Offsets 0 and 1 are always zero: [t >>> 16] has sixteen bits. *)
Lemma packed_high_zero : firstn 2 buf = [x00; x00].
Proof.
  subst buf. unfold packed. cbn [firstn app].
  pose proof (Bits.ushr_16_range t) as H.
  replace (JS.ushr t 16 / 16777216) with 0 by (Z.to_euclidean_division_equations; lia).
  replace (JS.ushr t 16 / 65536) with 0 by (Z.to_euclidean_division_equations; lia).
  reflexivity.
Qed.

(** Offsets 0 to 3 as an unsigned 32-bit number. *)
Lemma packed_word0 : Buffer.readUInt32BE buf 0 = JS.Ret ((t mod JS.two32) / 65536).
Proof.
  subst buf. unfold Buffer.readUInt32BE, Buffer.read_be, packed.
  cbn [length app Nat.add Nat.leb firstn skipn Buffer.be_value].
  rewrite !HexFacts.byte_to_of_Z. rewrite <- Bits.ushr_16.
  pose proof (Bits.ushr_16_range t) as H.
  f_equal. Z.to_euclidean_division_equations; lia.
Qed.

(** Offsets 4 and 5. *)
Lemma packed_half4 : Buffer.readUInt16BE buf 4 = JS.Ret (t mod 65536).
Proof.
  subst buf. unfold Buffer.readUInt16BE, Buffer.read_be, packed.
  cbn [length app Nat.add Nat.leb firstn skipn].
  rewrite Bits.u16_bytes; rewrite Bits.band_ffff; [reflexivity|].
  Z.to_euclidean_division_equations; lia.
Qed.

(** Offsets 2 to 5 hold the low 32 bits of the tick. *)
Lemma packed_tick_field : Buffer.read_be buf 2 4 = JS.Ret (t mod JS.two32).
Proof.
  subst buf. unfold Buffer.read_be, packed.
  cbn [length app Nat.add Nat.leb firstn skipn Buffer.be_value].
  rewrite !HexFacts.byte_to_of_Z. rewrite Bits.band_ffff, Bits.ushr_16.
  unfold JS.two32. f_equal. Z.to_euclidean_division_equations; lia.
Qed.

(** Offsets 6 and 7. *)
Lemma packed_half6 : Buffer.readUInt16BE buf 6 = JS.Ret (mixed half0 s).
Proof.
  subst buf half0. unfold Buffer.readUInt16BE, Buffer.read_be, packed.
  cbn [length app Nat.add Nat.leb firstn skipn].
  rewrite Bits.u16_bytes; [reflexivity | apply Bits.mixed_range].
Qed.

(** Offsets 8 and 9. *)
Lemma packed_half8 :
  Buffer.readUInt16BE buf 8 = JS.Ret half1 /\ firstn 2 (skipn 8 buf) = [m2; m3].
Proof.
  subst buf half1. unfold Buffer.readUInt16BE, Buffer.read_be, packed.
  cbn [length app Nat.add Nat.leb firstn skipn]. rewrite Bits.u16_value.
  split; reflexivity.
Qed.

(** Offsets 10 to 15. *)
Lemma packed_tail : skipn 10 buf = r.
Proof. reflexivity. Qed.

End Fields.

End Layout.

(* ------------------------------------------------------------------ *)
(** ** The tick field: where the code departs from the layout *)

Module TickField.
Import Packing.

Lemma byte_of_Z_mod (a b : Z) :
  a mod 256 = b mod 256 -> Buffer.byte_of_Z a = Buffer.byte_of_Z b.
Proof. intros H. unfold Buffer.byte_of_Z. rewrite H. reflexivity. Qed.

(** Below 2^32 the six leading bytes are the tick, as the layout says. *)
Lemma packed_tick_small (t : Z) (m0 m1 m2 m3 : byte) (s : Z) (r : list byte) :
  0 <= t < JS.two32 ->
  firstn 6 (packed t m0 m1 m2 m3 s r) = be48 t.
Proof.
  unfold JS.two32. intros H. unfold packed, be48. cbn [firstn app].
  rewrite Bits.ushr_16, Bits.band_ffff. unfold JS.two32.
  rewrite (Z.mod_small t 4294967296) by lia.
  repeat match goal with
  | |- ?x :: _ = ?y :: _ =>
      replace x with y by (apply byte_of_Z_mod; Z.to_euclidean_division_equations; lia);
      apply f_equal
  end.
  reflexivity.
Qed.

(** C3. At the tick 4294970000 (a clock reading 429497 ms after the epoch),
    which is below 2^48, the buffer that [generate] assembles has zeros at
    offsets 0 to 3 where the layout puts the high 32 bits 00 01 00 00 of the
    tick: bytes 0 to 5 are not the big-endian encoding of the tick.  The
    other fields are as the layout says. *)
Theorem C3_high_tick_bits_lost :
  let t := 4294970000 in
  let w := scripted_world [429497] 429497 xab in
  0 <= t < 2 ^ 48 /\
  ticks_of unix_generator (clock w 0%nat) = t /\
  exists buf w',
    assemble t unix_generator w = JS.Ret (buf, w') /\
    firstn 6 buf = [x00; x00; x00; x00; x0a; x90] /\
    be48 t = [x00; x01; x00; x00; x0a; x90] /\
    Buffer.readUInt32BE buf 0 = JS.Ret 0 /\
    t / 65536 = 65536 /\
    Buffer.readUInt16BE buf 6 = JS.Ret (Z.lor (Z.land 4660 65520) (Z.land 0 15)) /\
    firstn 2 (skipn 8 buf) = [x56; x78] /\
    skipn 10 buf = [xab; xab; xab; xab; xab; xab] /\
    exists w'',
      generate 1 unix_generator w
        = JS.Ret (JS.lit "00000000-0A90-1230-5678-ABABABABABAB",
                  set_lastTimestamp unix_generator t, w'').
Proof.
  cbv zeta. split; [lia|]. split; [reflexivity|].
  eexists. eexists. split; [reflexivity|].
  repeat split; try (vm_compute; reflexivity).
  eexists. vm_compute. reflexivity.
Qed.

End TickField.

(* ------------------------------------------------------------------ *)
(** ** Timestamp extraction *)

Module ExtractTimestamp.

(** C4. The well-formed text 00010000-0000-0000-0000-000000000000 has the
    48-bit number 2^32 in bytes 0 to 5, which is 429496.7296 ms (the time
    value of the specified instant is negative and clipped towards zero, to
    429497 ms after the epoch); the code
    shifts the high word left within 32 bits, obtains the tick 0 and returns
    the epoch itself.  On 00008000-0000-... (2^31 ticks) it returns an instant
    before the epoch. *)
Theorem C4_extract_loses_high_bits :
  let text := JS.lit "00010000-0000-0000-0000-000000000000" in
  let text' := JS.lit "00008000-0000-0000-0000-000000000000" in
  isValidGuid text = true /\
  (exists buffer, guidToBuffer text = JS.Ret buffer /\
                  Buffer.be_value (firstn 6 buffer) 0 = 4294967296 /\
                  specified_instant sample_generator buffer = Some (EPOCH + 429497)) /\
  extractTimestamp sample_generator text = JS.Ret (Some EPOCH) /\
  isValidGuid text' = true /\
  (exists buffer, guidToBuffer text' = JS.Ret buffer /\
                  Buffer.be_value (firstn 6 buffer) 0 = 2147483648 /\
                  specified_instant sample_generator buffer = Some (EPOCH + 214749)) /\
  extractTimestamp sample_generator text' = JS.Ret (Some (EPOCH - 214748)).
Proof.
  cbv zeta. split; [reflexivity|]. split.
  { eexists. split; [reflexivity|]. split; reflexivity. }
  split; [reflexivity|]. split; [reflexivity|]. split.
  { eexists. split; [reflexivity|]. split; reflexivity. }
  reflexivity.
Qed.

End ExtractTimestamp.

(* ------------------------------------------------------------------ *)
(** ** The generation cursor *)

Module Cursor.
Import Timestamp TimestampPost Generate Packing.

Lemma assemble_world (t : Z) (g : SequentialGuidGenerator) (w : World)
    (guid : Buffer.t) (w' : World) :
  assemble t g w = JS.Ret (guid, w') -> w' = drawn_after 6 w.
Proof.
  unfold assemble. intros H.
  repeat match type of H with
  | JS.bind ?m _ = _ => destruct m; cbn [JS.bind] in H; try discriminate H
  end.
  injection H as _ <-. reflexivity.
Qed.

(** The state and the clock cursor after a returning call of [generate] are
    those [getTimestamp] left. *)
Lemma generate_state (f : nat) (g : SequentialGuidGenerator) (w : World)
    (id : JS.str) (g' : SequentialGuidGenerator) (w' : World) :
  generate f g w = JS.Ret (id, g', w') ->
  exists t w2,
    getTimestamp f g (first_reading w) (after_reading w) = JS.Ret (t, g', w2) /\
    w' = drawn_after 6 w2.
Proof.
  rewrite generate_unfold. intros H.
  destruct (getTimestamp f g (first_reading w) (after_reading w))
    as [[[t g1] w2]| |]; try discriminate H.
  cbn [JS.bind] in H.
  destruct (assemble t g1 w2) as [[guid w3]| |] eqn:A; try discriminate H.
  cbn [JS.bind] in H. injection H as _ <- <-.
  exists t, w2. split; [reflexivity|]. exact (assemble_world _ _ _ _ _ A).
Qed.

Lemma constructor_cursor (options : GuidGeneratorOptions) (w : World)
    (g : SequentialGuidGenerator) (w' : World) :
  constructor options w = JS.Ret (g, w') ->
  sequence g = 0 /\ lastTimestamp g = 0 /\ length (machineId g) = 4%nat.
Proof.
  unfold constructor.
  destruct (match opt_machineId options with
            | Some m => (m, w)
            | None => generateMachineId w
            end) as [mid w1].
  destruct (Nat.eqb_spec (length mid) 4); cbn [negb]; [|discriminate].
  intros H. injection H as <- _. cbn. auto.
Qed.

(** After a wait, under a clock that does not go back and whose later
    times have later ticks, the tick is new. *)
Lemma waited_tick_is_later (g : SequentialGuidGenerator) (w : World)
    (t : Z) (g' : SequentialGuidGenerator) (w2 : World) :
  clock_monotone w -> ticks_increasing g w (reads w) (reads w2) ->
  returned_after_wait g (first_reading w) (after_reading w) t g' w2 ->
  lastTimestamp g < t /\ sequence g' = 0.
Proof.
  intros M I (E & _ & R & N & _ & T & S).
  unfold after_reading in *. cbn [Date_now snd clock reads] in *.
  assert (L : first_reading w < clock w (reads w2 - 1)%nat).
  { apply (Z.lt_le_trans _ _ _ N). apply M. lia. }
  assert (lastTimestamp g < t).
  { rewrite <- E, T. apply I; [lia | lia | exact L]. }
  split; [assumption|]. destruct S as [[_ S]|[S _]]; [exact S | lia].
Qed.

(** The world [generate] returns has the clock cursor [getTimestamp] left. *)
Lemma drawn_after_reads (n : nat) (w : World) : reads (drawn_after n w) = reads w.
Proof. reflexivity. Qed.

(** C5. The sequence is within 0..15 after construction and after every
    call of [generate].  In an invocation of [getTimestamp] on a tick equal
    to the stored one the sequence becomes (sequence + 1) mod 16, and the
    invocation returns with it unless it is 0, in which case it waits and
    starts over from that state; on a different tick the sequence becomes 0
    and the tick is stored.  For a whole call of [generate]: a different
    tick leaves sequence 0 and the tick stored; an equal tick without a wrap
    leaves the sequence incremented modulo 16.  After a wrap the call has
    waited and computed a second candidate tick, from a later reading, and
    the same rule has applied to it from sequence 0: a different tick
    leaves 0 and is stored, an equal one leaves 1.  It is the first case,
    with a later tick, when the clock does not go back and later times have
    later ticks. *)
Theorem C5_sequence_cursor :
  (forall options w g w',
     constructor options w = JS.Ret (g, w') -> 0 <= sequence g <= 15) /\
  (forall f g w id g' w',
     generate f g w = JS.Ret (id, g', w') -> 0 <= sequence g' <= 15) /\
  (forall f g now w,
     ticks_of g now = lastTimestamp g ->
     getTimestamp (S f) g now w =
     let g1 := set_sequence g ((sequence g + 1) mod 16) in
     if sequence g1 =? 0 then
       w1 <- busyWait f now w ;;
       getTimestamp f g1 (clock w1 (reads w1)) (snd (Date_now w1))
     else JS.Ret (ticks_of g now, set_lastTimestamp g1 (ticks_of g now), w)) /\
  (forall f g now w,
     ticks_of g now <> lastTimestamp g ->
     getTimestamp (S f) g now w =
     JS.Ret (ticks_of g now, set_lastTimestamp (set_sequence g 0) (ticks_of g now), w)) /\
  (forall f g w id g' w',
     generate f g w = JS.Ret (id, g', w') ->
     let t := ticks_of g (first_reading w) in
     (t <> lastTimestamp g -> sequence g' = 0 /\ lastTimestamp g' = t) /\
     (t = lastTimestamp g -> (sequence g + 1) mod 16 <> 0 ->
        sequence g' = (sequence g + 1) mod 16 /\ lastTimestamp g' = t) /\
     (t = lastTimestamp g -> (sequence g + 1) mod 16 = 0 ->
        (exists i, (reads w + 2 <= i < reads w')%nat /\
           let t2 := ticks_of g (clock w i) in
           lastTimestamp g' = t2 /\
           ((t2 <> lastTimestamp g /\ sequence g' = 0) \/
            (t2 = lastTimestamp g /\ sequence g' = 1))) /\
        (clock_monotone w -> ticks_increasing g w (reads w) (reads w') ->
           sequence g' = (sequence g + 1) mod 16 /\
           lastTimestamp g < lastTimestamp g'))).
Proof.
  split; [|split; [|split; [|split]]].
  - intros options w g w' H. apply constructor_cursor in H. lia.
  - intros f g w id g' w' H.
    destruct (generate_state _ _ _ _ _ _ H) as (t & w2 & T & _).
    apply getTimestamp_post in T. tauto.
  - intros f g now w E. apply getTimestamp_same. exact E.
  - intros f g now w N. apply getTimestamp_differs. exact N.
  - intros f g w id g' w' H.
    destruct (generate_state _ _ _ _ _ _ H) as (t & w2 & T & ->).
    rewrite drawn_after_reads.
    destruct (getTimestamp_post _ _ _ _ _ _ _ T)
      as (_ & _ & L & _ & _ & _ & _ & [(_ & Et & S)|A]).
    + cbv zeta. rewrite L, Et.
      split; [|split]; intros; destruct S as [[? ?]|(? & ? & ?)];
        try contradiction; try congruence; try (split; congruence).
    + cbv zeta. pose proof A as (E & Wr & R & _ & _ & Et & S).
      unfold after_reading in R, Et. cbn [Date_now snd clock reads] in R, Et.
      split; [intros; contradiction|]. split; [intros; contradiction|].
      intros _ _. split.
      * exists (reads w2 - 1)%nat. split; [lia|].
        rewrite L, <- Et. split; [reflexivity|]. exact S.
      * intros M I.
        destruct (waited_tick_is_later g w t g' w2 M I A) as [Lt S0].
        rewrite Wr, S0, L. split; [reflexivity | exact Lt].
Qed.

End Cursor.

(* ------------------------------------------------------------------ *)
(** ** A tick that differs from the stored one *)

Module Backwards.
Import Timestamp TimestampPost Generate Packing Cursor.


End Backwards.

(* ------------------------------------------------------------------ *)
(** ** Batches *)

Module Batch.
Import Timestamp TimestampPost Generate Packing Cursor.

(** The loop only appends to the array it was given. *)
Lemma loop_acc (f n : nat) :
  forall g w acc,
    generateBatch_loop f n g w acc = with_prefix acc (generateBatch_loop f n g w []).
Proof.
  induction n as [|n IH]; intros g w acc.
  - cbn. rewrite app_nil_r. reflexivity.
  - cbn [generateBatch_loop].
    destruct (generate f g w) as [[[id g1] w1]| |]; cbn [JS.bind]; try reflexivity.
    rewrite (IH g1 w1 (acc ++ [id])), (IH g1 w1 ([] ++ [id])).
    unfold with_prefix.
    destruct (generateBatch_loop f n g1 w1 []) as [[[ids g2] w2]| |];
      cbn [JS.bind]; try reflexivity.
    rewrite <- app_assoc. reflexivity.
Qed.

Lemma loop_step (f n : nat) (g : SequentialGuidGenerator) (w : World)
    (ids : list JS.str) (g' : SequentialGuidGenerator) (w' : World) :
  generateBatch_loop f (S n) g w [] = JS.Ret (ids, g', w') ->
  exists id g1 w1 rest,
    generate f g w = JS.Ret (id, g1, w1) /\
    generateBatch_loop f n g1 w1 [] = JS.Ret (rest, g', w') /\
    ids = id :: rest.
Proof.
  cbn [generateBatch_loop]. intros H.
  destruct (generate f g w) as [[[id g1] w1]| |]; try discriminate H.
  cbn [JS.bind] in H. rewrite loop_acc in H. unfold with_prefix in H.
  destruct (generateBatch_loop f n g1 w1 []) as [[[rest g2] w2]| |] eqn:R;
    try discriminate H.
  cbn [JS.bind] in H. injection H as <- <- <-.
  exists id, g1, w1, rest. repeat split. exact R.
Qed.

Lemma loop_mono (n : nat) :
  forall f f' g w acc x,
    generateBatch_loop f n g w acc = JS.Ret x -> (f <= f')%nat ->
    generateBatch_loop f' n g w acc = JS.Ret x.
Proof.
  induction n as [|n IH]; intros f f' g w acc x H Hf; [exact H|].
  cbn [generateBatch_loop] in *.
  destruct (generate f g w) as [[[id g1] w1]| |] eqn:G; try discriminate H.
  rewrite (generate_mono f f' g w _ G Hf). cbn [JS.bind] in *.
  apply (IH f f'); assumption.
Qed.

(** What one returning call of [generate] establishes. *)
Lemma generate_facts (f : nat) (g : SequentialGuidGenerator) (w : World)
    (m0 m1 m2 m3 : byte) (id : JS.str) (g' : SequentialGuidGenerator) (w' : World) :
  machineId g = [m0; m1; m2; m3] ->
  generate f g w = JS.Ret (id, g', w') ->
  machineId g' = machineId g /\ epoch g' = epoch g /\ 0 <= sequence g' <= 15 /\
  clock w' = clock w /\ entropy w' = entropy w /\ (reads w < reads w')%nat /\
  (exists r, length r = 6%nat /\
     id = formatGuid (packed (lastTimestamp g') m0 m1 m2 m3 (sequence g') r)) /\
  (exists i, (reads w <= i < reads w')%nat /\
     lastTimestamp g' = ticks_of g (clock w i)).
Proof.
  intros Hm H.
  destruct (generate_inv f g w m0 m1 m2 m3 id g' w' Hm H) as (t & w2 & T & -> & ->).
  destruct (getTimestamp_post _ _ _ _ _ _ _ T)
    as (M & Ep & L & Sq & C & En & D & P).
  unfold after_reading in *. cbn [Date_now snd clock entropy reads drawn] in *.
  cbn [drawn_after randomBytes snd clock entropy reads].
  assert (R : (reads w < reads w2)%nat /\
              exists i, (reads w <= i < reads w2)%nat /\ t = ticks_of g (clock w i)).
  { destruct P as [(-> & Et & _)|(_ & _ & R & _ & _ & Et & _)].
    - cbn [reads]. split; [lia|]. exists (reads w). split; [lia | exact Et].
    - cbn [reads clock] in R, Et.
      split; [lia|]. exists (reads w2 - 1)%nat. split; [lia | exact Et]. }
  destruct R as [R [i [Hi Ti]]].
  repeat split; try assumption; try lia.
  - exists (random_part w2). split; [apply random_part_length|]. rewrite L. reflexivity.
  - exists i. split; [exact Hi|]. rewrite L. exact Ti.
Qed.

Lemma loop_total (n : nat) :
  forall g w acc,
    length (machineId g) = 4%nat -> clock_advances w ->
    exists f x, generateBatch_loop f n g w acc = JS.Ret x.
Proof.
  induction n as [|n IH]; intros g w acc L A.
  - exists 0%nat. eexists. reflexivity.
  - destruct (generate_total g w L A) as (f1 & [[id g1] w1] & G).
    assert (Hm : exists m0 m1 m2 m3, machineId g = [m0; m1; m2; m3]).
    { destruct (machineId g) as [|m0 [|m1 [|m2 [|m3 [|]]]]]; try discriminate L.
      eauto. }
    destruct Hm as (m0 & m1 & m2 & m3 & Hm).
    destruct (generate_facts _ _ _ _ _ _ _ _ _ _ Hm G) as (M & _ & _ & C & _).
    destruct (IH g1 w1 (acc ++ [id])) as (f2 & x & Lp).
    { rewrite M. exact L. }
    { unfold clock_advances. rewrite C. exact A. }
    exists (Nat.max f1 f2), x. cbn [generateBatch_loop].
    rewrite (generate_mono f1 _ g w _ G (Nat.le_max_l f1 f2)). cbn [JS.bind].
    apply (loop_mono n f2); [exact Lp | apply Nat.le_max_r].
Qed.

Lemma generateBatch_mono (f f' : nat) (g : SequentialGuidGenerator) (count : Z)
    (w : World) (x : list JS.str * SequentialGuidGenerator * World) :
  generateBatch f g count w = JS.Ret x -> (f <= f')%nat ->
  generateBatch f' g count w = JS.Ret x.
Proof.
  unfold generateBatch. destruct (count <=? 0); [discriminate|].
  apply loop_mono.
Qed.

End Batch.

(* ------------------------------------------------------------------ *)
(** ** Order and distinctness of the identifiers of one generator *)

Module Order.
Import Timestamp TimestampPost Generate Packing Cursor Batch Ticks.

Lemma lex_lt_trans (t1 s1 t2 s2 t3 s3 : Z) :
  lex_lt t1 s1 t2 s2 -> lex_lt t2 s2 t3 s3 -> lex_lt t1 s1 t3 s3.
Proof. unfold lex_lt. lia. Qed.

Lemma monotone_after (w w' : World) :
  clock w' = clock w -> (reads w <= reads w')%nat ->
  clock_monotone w -> clock_monotone w'.
Proof.
  unfold clock_monotone. intros C R M i j H. rewrite C. apply M. lia.
Qed.

Lemma random_block_length (w : World) (k : nat) : length (random_block w k) = 6%nat.
Proof. unfold random_block. rewrite length_map, length_seq. reflexivity. Qed.

Lemma random_blocks_succ (w w1 : World) (n : nat) :
  entropy w1 = entropy w -> drawn w1 = (drawn w + 6)%nat ->
  random_blocks w (S n) = random_block w 0 :: random_blocks w1 n.
Proof.
  intros En D. unfold random_blocks. cbn [seq map]. f_equal.
  rewrite <- seq_shift, map_map. apply map_ext. intros k.
  unfold random_block. rewrite En, D. do 2 f_equal. lia.
Qed.

Section OneMachine.
Variables m0 m1 m2 m3 : byte.

(** Under a clock that does not go back and whose later times have later
    ticks, each call moves the pair (tick, sequence) strictly up. *)
Lemma generate_order (f : nat) (g : SequentialGuidGenerator) (w : World)
    (id : JS.str) (g' : SequentialGuidGenerator) (w' : World) (hi : nat) :
  machineId g = [m0; m1; m2; m3] ->
  clock_monotone w -> ticks_increasing g w (reads w) hi ->
  behind g w hi -> (reads w' <= hi)%nat -> 0 <= sequence g <= 15 ->
  generate f g w = JS.Ret (id, g', w') ->
  lex_lt (lastTimestamp g) (sequence g) (lastTimestamp g') (sequence g').
Proof.
  intros Hm M I B Hh Sq H.
  destruct (generate_inv f g w m0 m1 m2 m3 id g' w' Hm H) as (t & w2 & T & _ & ->).
  rewrite drawn_after_reads in Hh.
  destruct (getTimestamp_post _ _ _ _ _ _ _ T)
    as (_ & _ & L & _ & _ & _ & _ & [(W & Et & P)|A]).
  - rewrite L. destruct P as [[N _]|(E & S1 & S2)].
    + left. subst w2. unfold after_reading in Hh. cbn [Date_now snd reads] in Hh.
      assert (Hr : (reads w <= reads w < hi)%nat) by lia.
      specialize (B (reads w) Hr). fold (first_reading w) in B. lia.
    + right. split; [congruence|]. rewrite S1 in *.
      assert (sequence g <> 15) by (intros E15; rewrite E15 in S2; apply S2; reflexivity).
      rewrite Z.mod_small by lia. lia.
  - rewrite L. left. apply (waited_tick_is_later g w t g' w2 M); [|exact A].
    apply (increasing_narrower g g w w (reads w) hi); try reflexivity; try lia; exact I.
Qed.

Lemma behind_after (f : nat) (g : SequentialGuidGenerator) (w : World)
    (id : JS.str) (g' : SequentialGuidGenerator) (w' : World) (hi : nat) :
  machineId g = [m0; m1; m2; m3] ->
  clock_monotone w -> ticks_increasing g w (reads w) hi ->
  generate f g w = JS.Ret (id, g', w') -> behind g' w' hi.
Proof.
  intros Hm M I H.
  destruct (generate_facts _ _ _ _ _ _ _ _ _ _ Hm H)
    as (_ & Ep & _ & C & _ & R & _ & (i & Hi & Li)).
  intros j Hj. rewrite Li, C, (ticks_of_epoch g g' _ Ep).
  apply (increasing_le g w (reads w) hi); [exact I | lia | lia | apply M; lia].
Qed.

Lemma in_window_wider (g : SequentialGuidGenerator) (w : World) (lo hi lo' hi' : nat) (k : key) :
  (lo' <= lo)%nat -> (hi <= hi')%nat -> in_window g w lo hi k -> in_window g w lo' hi' k.
Proof.
  intros Hl Hh (Sk & R & i & Hi & T). split; [exact Sk|]. split; [exact R|].
  exists i. split; [lia | exact T].
Qed.

(** The random bytes of the identifier a call returns are the next six of
    the source. *)
Lemma generate_random (f : nat) (g : SequentialGuidGenerator) (w : World)
    (id : JS.str) (g' : SequentialGuidGenerator) (w' : World) :
  machineId g = [m0; m1; m2; m3] ->
  generate f g w = JS.Ret (id, g', w') ->
  drawn w' = (drawn w + 6)%nat /\
  id = id_of m0 m1 m2 m3 (lastTimestamp g', sequence g', random_block w 0).
Proof.
  intros Hm H.
  destruct (generate_inv f g w m0 m1 m2 m3 id g' w' Hm H) as (t & w2 & T & -> & ->).
  destruct (getTimestamp_post _ _ _ _ _ _ _ T) as (_ & _ & L & _ & _ & En & D & _).
  unfold after_reading in En, D. cbn [Date_now snd entropy drawn] in En, D.
  split.
  - cbn [drawn_after randomBytes snd drawn]. rewrite D. reflexivity.
  - unfold id_of, key_tick, key_seq, key_rand. cbn [fst snd]. rewrite L.
    unfold random_part, randomBytes, random_block. cbn [fst].
    rewrite En, D, Nat.mul_0_r, Nat.add_0_r. reflexivity.
Qed.

(** The keys of a batch: one per identifier, in order, each made in the
    stretch of readings of the batch from the next six random bytes.  Under
    a clock that does not go back and whose later times have later ticks
    they are strictly increasing, and all above a state that was behind. *)
Lemma loop_keys (f n : nat) :
  forall g w ids g' w',
    machineId g = [m0; m1; m2; m3] ->
    generateBatch_loop f n g w [] = JS.Ret (ids, g', w') ->
    (reads w <= reads w')%nat /\
    exists ks : list key,
      ids = map (id_of m0 m1 m2 m3) ks /\ length ks = n /\
      map key_rand ks = random_blocks w n /\
      Forall (in_window g w (reads w) (reads w')) ks /\
      (clock_monotone w -> ticks_increasing g w (reads w) (reads w') ->
       StronglySorted key_lt ks /\
       (behind g w (reads w') -> 0 <= sequence g <= 15 ->
        Forall (fun k => lex_lt (lastTimestamp g) (sequence g) (key_tick k) (key_seq k))
               ks)).
Proof.
  induction n as [|n IH]; intros g w ids g' w' Hm H.
  - cbn in H. injection H as <- <- <-. split; [lia|].
    exists []. repeat split; constructor.
  - destruct (loop_step _ _ _ _ _ _ _ H) as (id & g1 & w1 & rest & G & Lp & ->).
    destruct (generate_facts _ _ _ _ _ _ _ _ _ _ Hm G)
      as (Mg & Ep & Sq1 & C & En & R & _ & (i & Hi & Li)).
    destruct (generate_random _ _ _ _ _ _ Hm G) as (D & ->).
    destruct (IH g1 w1 rest g' w') as (R1 & ks & -> & Lk & Rk & Win & Cond);
      [congruence | exact Lp |].
    split; [lia|].
    exists ((lastTimestamp g1, sequence g1, random_block w 0) :: ks).
    split; [reflexivity|].
    split; [cbn [length]; rewrite Lk; reflexivity|].
    split; [rewrite (random_blocks_succ w w1 n En D); cbn [map]; f_equal; exact Rk|].
    split.
    + constructor.
      * split; [exact Sq1|]. split; [apply random_block_length|].
        exists i. split; [lia | exact Li].
      * eapply Forall_impl; [|exact Win]. intros k (Sk & Lr & j & Hj & Tj).
        split; [exact Sk|]. split; [exact Lr|].
        exists j. split; [lia|].
        rewrite Tj, C, (ticks_of_epoch g g1 _ Ep). reflexivity.
    + intros M I.
      pose proof (monotone_after w w1 C (Nat.lt_le_incl _ _ R) M) as M1.
      assert (I1 : ticks_increasing g1 w1 (reads w1) (reads w')).
      { apply (increasing_narrower g g1 w w1 (reads w) (reads w')); try assumption; lia. }
      pose proof (behind_after _ _ _ _ _ _ (reads w') Hm M I G) as B1.
      destruct (Cond M1 I1) as (SS & Ab). specialize (Ab B1 Sq1).
      split; [constructor; [exact SS | exact Ab]|].
      intros B Sq.
      pose proof (generate_order _ _ _ _ _ _ (reads w') Hm M I B R1 Sq G) as O.
      constructor; [exact O|].
      eapply Forall_impl; [|exact Ab]. intros k Hk.
      exact (lex_lt_trans _ _ _ _ _ _ O Hk).
Qed.

End OneMachine.

End Order.

(* ------------------------------------------------------------------ *)
(** ** Distinct identifiers *)

Module Distinct.
Import Timestamp TimestampPost Generate Packing Cursor Batch Ticks Order.

(** Two ticks less than 2^28 ms apart differ in their low 32 bits. *)
Lemma tick_collision (d : Z) :
  0 < d < 268435456 -> (10000 * d) mod JS.two32 <> 0.
Proof.
  intros Hd H. apply Z.mod_divide in H; [|unfold JS.two32; lia].
  assert (D : (268435456 | 625 * d)).
  { apply (Z.mul_divide_cancel_l _ _ 16); [lia|].
    replace (16 * 268435456) with JS.two32 by reflexivity.
    replace (16 * (625 * d)) with (10000 * d) by ring. exact H. }
  apply Z.gauss in D; [|reflexivity].
  apply Z.divide_pos_le in D; lia.
Qed.

Lemma same_low_bits (a b : Z) :
  a mod JS.two32 = b mod JS.two32 -> (b - a) mod JS.two32 = 0.
Proof.
  intros H. rewrite Zminus_mod, H, Z.sub_diag. reflexivity.
Qed.

Lemma Ret_inj (A : Type) (x y : A) : JS.Ret x = JS.Ret y -> x = y.
Proof. congruence. Qed.

(** Through a function that forgets no more than another, a list without
    repetition stays so. *)
Lemma NoDup_through (A B C : Type) (f : A -> B) (h : A -> C) (l : list A) :
  (forall a b, In a l -> In b l -> f a = f b -> h a = h b) ->
  NoDup (map h l) -> NoDup (map f l).
Proof.
  induction l as [|a l IH]; intros Hf N; cbn [map] in *; [constructor|].
  inversion N as [|? ? Na Nl]; subst. constructor.
  - intros I. apply in_map_iff in I. destruct I as (b & Eb & Ib).
    apply Na. apply in_map_iff. exists b. split; [|exact Ib].
    apply Hf; [right; exact Ib | left; reflexivity | exact Eb].
  - apply IH; [|exact Nl]. intros x y Hx Hy. apply Hf; right; assumption.
Qed.

Section OneMachine.
Variables m0 m1 m2 m3 : byte.

Lemma id_of_fields (a b : key) :
  length (key_rand a) = 6%nat -> length (key_rand b) = 6%nat ->
  id_of m0 m1 m2 m3 a = id_of m0 m1 m2 m3 b ->
  key_tick a mod JS.two32 = key_tick b mod JS.two32 /\
  key_seq a mod 16 = key_seq b mod 16 /\
  key_rand a = key_rand b.
Proof.
  intros La Lb E. unfold id_of in E.
  apply (f_equal guidToBuffer) in E.
  rewrite !Codec.guidToBuffer_formatGuid in E
    by (apply Layout.packed_length; assumption).
  apply Ret_inj in E. split; [|split].
  - apply (f_equal (fun buf => Buffer.read_be buf 2 4)) in E.
    rewrite !Layout.packed_tick_field in E. apply Ret_inj in E. exact E.
  - apply (f_equal (fun buf => Buffer.readUInt16BE buf 6)) in E.
    rewrite !Layout.packed_half6 in E. apply Ret_inj in E.
    apply (f_equal (fun v => v mod 16)) in E.
    rewrite !Bits.mixed_low in E. exact E.
  - apply (f_equal (skipn 10)) in E. rewrite !Layout.packed_tail in E. exact E.
Qed.

(** Identifiers made from different random bytes are different. *)
Lemma blocks_nodup (g : SequentialGuidGenerator) (w : World) (lo hi : nat) (ks : list key) :
  Forall (in_window g w lo hi) ks ->
  NoDup (map key_rand ks) -> NoDup (map (id_of m0 m1 m2 m3) ks).
Proof.
  intros W. apply NoDup_through. intros a b Ia Ib E.
  rewrite Forall_forall in W.
  destruct (W a Ia) as (_ & La & _). destruct (W b Ib) as (_ & Lb & _).
  apply (id_of_fields a b La Lb E).
Qed.

Lemma keys_distinct (g : SequentialGuidGenerator) (w : World) (hi : nat) (a b : key) :
  clock_monotone w -> exact_clock g w (reads w) hi -> short_stretch w (reads w) hi ->
  in_window g w (reads w) hi a -> in_window g w (reads w) hi b ->
  key_lt a b -> id_of m0 m1 m2 m3 a <> id_of m0 m1 m2 m3 b.
Proof.
  intros M X Sh (Sa & La & i & Hi & Ta) (Sb & Lb & j & Hj & Tb) Lt E.
  destruct (id_of_fields a b La Lb E) as (Et & Es & _).
  rewrite !Z.mod_small in Es by lia.
  destruct Lt as [Lt|[_ Lt]]; [|lia].
  apply same_low_bits in Et. rewrite Ta, Tb in Et, Lt.
  rewrite (ticks_of_exact g _ (X i Hi)), (ticks_of_exact g _ (X j Hj)) in Et, Lt.
  unfold TICKS_PER_MILLISECOND in Et, Lt.
  replace ((clock w j - epoch g) * 10000 - (clock w i - epoch g) * 10000)
    with (10000 * (clock w j - clock w i)) in Et by ring.
  apply (tick_collision (clock w j - clock w i)); [|exact Et].
  split; [lia|].
  destruct (Nat.le_gt_cases i j) as [Hij|Hji].
  - apply Sh; lia.
  - assert (clock w j <= clock w i) by (apply M; lia). lia.
Qed.

Lemma sorted_nodup (g : SequentialGuidGenerator) (w : World) (hi : nat) (ks : list key) :
  clock_monotone w -> exact_clock g w (reads w) hi -> short_stretch w (reads w) hi ->
  StronglySorted key_lt ks -> Forall (in_window g w (reads w) hi) ks ->
  NoDup (map (id_of m0 m1 m2 m3) ks).
Proof.
  intros M X Sh SS. induction SS as [|a l SS IH Fa]; intros W; cbn [map].
  - constructor.
  - inversion W as [|? ? Wa Wl]; subst. constructor; [|apply IH; exact Wl].
    intros I. apply in_map_iff in I. destruct I as (b & Eb & Ib).
    rewrite Forall_forall in Fa, Wl.
    apply (keys_distinct g w hi a b M X Sh Wa (Wl b Ib) (Fa b Ib)).
    symmetry. exact Eb.
Qed.

(** Length and validity of a batch need nothing of the clock. *)
Lemma loop_valid (f n : nat) :
  forall g w ids g' w',
    machineId g = [m0; m1; m2; m3] ->
    generateBatch_loop f n g w [] = JS.Ret (ids, g', w') ->
    length ids = n /\ Forall (fun id => isValidGuid id = true) ids.
Proof.
  induction n as [|n IH]; intros g w ids g' w' Hm H.
  - cbn in H. injection H as <- _ _. split; [reflexivity | constructor].
  - destruct (loop_step _ _ _ _ _ _ _ H) as (id & g1 & w1 & rest & G & Lp & ->).
    destruct (generate_facts _ _ _ _ _ _ _ _ _ _ Hm G)
      as (Mg & _ & _ & _ & _ & _ & (r & Lr & ->) & _).
    destruct (IH g1 w1 rest g' w') as [Ln V]; [congruence | exact Lp |].
    split; [cbn [length]; rewrite Ln; reflexivity|].
    constructor; [|exact V].
    apply Codec.formatGuid_valid. apply Layout.packed_length. exact Lr.
Qed.

End OneMachine.

End Distinct.

(* ------------------------------------------------------------------ *)
(** ** Steady clocks *)

Module Worlds.
Import Ticks.

Lemma steady_world_monotone (t0 rate : Z) (b : byte) :
  0 < rate -> clock_monotone (steady_world t0 rate b).
Proof.
  intros Hr i j H. unfold steady_world. cbn [clock].
  assert (Z.of_nat i / rate <= Z.of_nat j / rate) by (apply Z.div_le_mono; lia).
  lia.
Defined.

Lemma steady_world_advances (t0 rate : Z) (b : byte) :
  0 < rate -> clock_advances (steady_world t0 rate b).
Proof.
  intros Hr i. exists (i + Z.to_nat rate)%nat. unfold steady_world. cbn [clock].
  split; [lia|].
  rewrite Nat2Z.inj_add, Z2Nat.id by lia.
  replace (Z.of_nat i + rate) with (Z.of_nat i + 1 * rate) by ring.
  rewrite Z.div_add by lia. lia.
Defined.

(** The ticks of a steady clock are exact as long as it stays within
    2^53 / 625 ms of the epoch. *)
Lemma steady_world_exact (g : SequentialGuidGenerator) (t0 rate : Z) (b : byte)
    (lo hi : nat) :
  0 < rate -> (Z.abs (t0 - epoch g) + Z.of_nat hi) * 625 < 2 ^ 53 ->
  exact_clock g (steady_world t0 rate b) lo hi.
Proof.
  intros Hr H i Hi. unfold exact_reading, steady_world. cbn [clock].
  assert (0 <= Z.of_nat i / rate <= Z.of_nat i).
  { split; [apply Z.div_pos; lia|]. apply Z.div_le_upper_bound; [lia | nia]. }
  lia.
Defined.

End Worlds.

(* ------------------------------------------------------------------ *)
(** ** [generateBatch] *)

Module BatchClaims.
Import Timestamp TimestampPost Generate Packing Cursor Batch Ticks Order Distinct Worlds.

(** Counterexample to C8 as stated.  With a clock that steps back and equal
    random bytes, a batch of three has its first identifier again in third
    place.  With a clock that never goes back, equal random bytes and the
    earliest epoch a date can hold, the ticks of two consecutive
    milliseconds are the same double: the seventeenth call of a batch wraps
    the sequence, waits for the next millisecond, finds the stored tick
    again and issues sequence 1 a second time, so the seventeenth
    identifier is the second one. *)
Lemma C8_counterexample :
  (0 < 3 /\
   forall f, exists ids g' w',
     generateBatch (S f) sample_generator 3 stepping_back_world = JS.Ret (ids, g', w') /\
     ids = [ JS.lit "0000C88C-C000-1230-5678-000000000000";
             JS.lit "0000C88C-E710-1230-5678-000000000000";
             JS.lit "0000C88C-C000-1230-5678-000000000000" ] /\
     ~ NoDup ids) /\
  (0 < 17 /\ clock_monotone later_world /\
   ticks_of far_generator 1700000000001 = 86417000000000016384 /\
   ticks_of far_generator 1700000000002 = 86417000000000016384 /\
   exists ids g' w',
     generateBatch 30 far_generator 17 later_world = JS.Ret (ids, g', w') /\
     nth_error ids 1 = Some (JS.lit "0000A2EE-C000-1231-5678-000000000000") /\
     nth_error ids 16 = Some (JS.lit "0000A2EE-C000-1231-5678-000000000000") /\
     ~ NoDup ids).
Proof.
  split.
  - split; [lia|]. intros f. eexists. eexists. eexists.
    split; [vm_compute; reflexivity|]. split; [reflexivity|].
    intros H. inversion H as [|x l N _]; subst. apply N. right. left. reflexivity.
  - split; [lia|]. split; [apply steady_world_monotone; lia|].
    split; [vm_compute; reflexivity|]. split; [vm_compute; reflexivity|].
    assert (I1 : nth_error (ids_after (generateBatch 30 far_generator 17 later_world)) 1
                 = Some (JS.lit "0000A2EE-C000-1231-5678-000000000000"))
      by (vm_compute; reflexivity).
    assert (I16 : nth_error (ids_after (generateBatch 30 far_generator 17 later_world)) 16
                  = Some (JS.lit "0000A2EE-C000-1231-5678-000000000000"))
      by (vm_compute; reflexivity).
    destruct (generateBatch 30 far_generator 17 later_world) as [[[ids g'] w']| |];
      [| discriminate I1 | discriminate I1].
    cbn [ids_after] in I1, I16. exists ids, g', w'.
    split; [reflexivity|]. split; [exact I1|]. split; [exact I16|].
    intros N. rewrite NoDup_nth_error in N.
    assert (L : (1 < length ids)%nat) by (apply nth_error_Some; rewrite I1; discriminate).
    specialize (N 1%nat 16%nat L). rewrite I1, I16 in N. specialize (N eq_refl).
    discriminate N.
Qed.

(** C8, amended. A count of zero or less fails with [InvalidCount] and
    nothing is returned.  For a positive count, a generator with a four-byte
    machine id and a clock that keeps advancing: with enough fuel the batch
    returns, it has exactly [count] identifiers, every one of them valid.
    They are made, in order, from one key each (tick, sequence, random
    bytes): the tick is that of one of the clock readings of the batch, the
    random bytes are the next six of the source.  The identifiers are
    pairwise distinct whenever those blocks of six random bytes are; and
    when the clock never goes back and later times have later ticks, the
    pairs (tick, sequence) strictly increase along the batch. *)
Theorem C8_batch (g : SequentialGuidGenerator) (count : Z) (w : World) :
  (count <= 0 -> forall f, generateBatch f g count w = JS.Throw InvalidCount) /\
  (0 < count -> length (machineId g) = 4%nat -> clock_advances w ->
   exists f ids g' w',
     (forall f', (f <= f')%nat -> generateBatch f' g count w = JS.Ret (ids, g', w')) /\
     Z.of_nat (length ids) = count /\
     Forall (fun id => isValidGuid id = true) ids /\
     exists m0 m1 m2 m3 ks,
       machineId g = [m0; m1; m2; m3] /\
       ids = map (id_of m0 m1 m2 m3) ks /\
       map key_rand ks = random_blocks w (Z.to_nat count) /\
       Forall (in_window g w (reads w) (reads w')) ks /\
       (NoDup (random_blocks w (Z.to_nat count)) -> NoDup ids) /\
       (clock_monotone w -> ticks_increasing g w (reads w) (reads w') ->
        StronglySorted key_lt ks)).
Proof.
  split.
  - intros H f. unfold generateBatch.
    destruct (Z.leb_spec count 0); [reflexivity | lia].
  - intros H L A.
    destruct (loop_total (Z.to_nat count) g w [] L A) as (f & [[ids g'] w'] & Lp).
    assert (Hm : exists m0 m1 m2 m3, machineId g = [m0; m1; m2; m3]).
    { destruct (machineId g) as [|m0 [|m1 [|m2 [|m3 [|]]]]]; try discriminate L.
      eauto. }
    destruct Hm as (m0 & m1 & m2 & m3 & Hm).
    exists f, ids, g', w'. split; [|split; [|split]].
    + intros f' Hf. unfold generateBatch.
      destruct (Z.leb_spec count 0); [lia|].
      apply (loop_mono _ f); assumption.
    + destruct (loop_valid m0 m1 m2 m3 _ _ _ _ _ _ _ Hm Lp) as [Ln _].
      rewrite Ln. lia.
    + apply (loop_valid m0 m1 m2 m3 _ _ _ _ _ _ _ Hm Lp).
    + destruct (loop_keys m0 m1 m2 m3 _ _ _ _ _ _ _ Hm Lp)
        as (_ & ks & E & _ & Rk & Win & Cond).
      exists m0, m1, m2, m3, ks.
      split; [exact Hm|]. split; [exact E|]. split; [exact Rk|]. split; [exact Win|].
      split.
      * intros N. rewrite E. apply (blocks_nodup m0 m1 m2 m3 g w _ _ ks Win).
        rewrite Rk. exact N.
      * intros M I. apply (Cond M I).
Qed.

End BatchClaims.

(* ------------------------------------------------------------------ *)
(** ** The sortable prefix *)

Module Prefix.

Lemma wrapping_world_monotone :
  forall i j, (i <= j)%nat -> clock wrapping_world i <= clock wrapping_world j.
Proof.
  intros i j H. unfold wrapping_world, scripted_world. cbn [clock].
  destruct i as [|[|i]]; destruct j as [|[|j]]; cbn [nth]; try lia;
    try (destruct j; lia); destruct i; destruct j; lia.
Qed.

(** C1. A generator with the default epoch reads the clock at
    1700000093029 ms and then at 1700000093030 ms (a clock that never goes
    back).  The first ten bytes of the first identifier are
    00 00 FF FF D9 50 12 30 56 78, those of the second are
    00 00 00 00 00 60 12 30 56 78: the prefix went down. *)
Theorem C1_prefix_goes_down :
  (forall i j, (i <= j)%nat -> clock wrapping_world i <= clock wrapping_world j) /\
  exists id1 g1 w1 id2 g2 w2 b1 b2,
    generate 1 sample_generator wrapping_world = JS.Ret (id1, g1, w1) /\
    generate 1 g1 w1 = JS.Ret (id2, g2, w2) /\
    guidToBuffer id1 = JS.Ret b1 /\ guidToBuffer id2 = JS.Ret b2 /\
    firstn 10 b1 = [x00; x00; xff; xff; xd9; x50; x12; x30; x56; x78] /\
    firstn 10 b2 = [x00; x00; x00; x00; x00; x60; x12; x30; x56; x78] /\
    Buffer.lex_le (firstn 10 b1) (firstn 10 b2) = false.
Proof.
  split; [exact wrapping_world_monotone|].
  do 8 eexists.
  split; [vm_compute; reflexivity|].
  split; [vm_compute; reflexivity|].
  split; [vm_compute; reflexivity|].
  split; [vm_compute; reflexivity|].
  split; [reflexivity|]. split; reflexivity.
Qed.

End Prefix.

(* ------------------------------------------------------------------ *)
(** ** The properties at sample inputs *)

Module Samples.
Import Timestamp TimestampPost Generate Packing Cursor Batch Ticks Order Distinct Worlds.

Lemma C5_sequence_cursor_witness :
  exists id g' w',
    generate 30 exhausted_generator sample_world = JS.Ret (id, g', w') /\
    0 <= sequence g' <= 15 /\
    sequence g' = (sequence exhausted_generator + 1) mod 16 /\
    lastTimestamp exhausted_generator < lastTimestamp g'.
Proof.
  assert (R : reads_after (generate 30 exhausted_generator sample_world) = 22%nat)
    by (vm_compute; reflexivity).
  assert (T : ticks_of exhausted_generator (first_reading sample_world)
              = lastTimestamp exhausted_generator) by (vm_compute; reflexivity).
  destruct (generate 30 exhausted_generator sample_world) as [[[id g'] w']| |] eqn:E;
    [| discriminate R | discriminate R].
  cbn [reads_after] in R.
  exists id, g', w'. split; [reflexivity|].
  destruct Cursor.C5_sequence_cursor as (_ & H2 & _ & _ & H5).
  split; [exact (H2 _ _ _ _ _ _ E)|].
  destruct (H5 _ _ _ _ _ _ E) as (_ & _ & H).
  destruct (H T eq_refl) as (_ & H').
  apply H'.
  - apply steady_world_monotone. lia.
  - apply exact_increasing. rewrite R. apply steady_world_exact; [lia | vm_compute; reflexivity].
Defined.


Lemma counting_blocks_distinct : NoDup (random_blocks counting_world 20).
Proof.
  vm_compute.
  repeat (constructor; [cbn [In]; intros H;
                        repeat (destruct H as [H|H]; [discriminate H|]); exact H|]).
  constructor.
Qed.

Lemma C8_batch_witness :
  exists ids g' w',
    generateBatch 30 sample_generator 20 counting_world = JS.Ret (ids, g', w') /\
    Z.of_nat (length ids) = 20 /\
    Forall (fun id => isValidGuid id = true) ids /\
    NoDup ids /\
    exists ks, ids = map (id_of x12 x34 x56 x78) ks /\ StronglySorted key_lt ks.
Proof.
  destruct (proj2 (BatchClaims.C8_batch sample_generator 20 counting_world))
    as (f & ids & g' & w' & Hf & Hl & Hv & m0 & m1 & m2 & m3 & ks
        & Hm & Ei & _ & _ & Hn & Hs).
  - lia.
  - reflexivity.
  - exact (steady_world_advances 1700000000000 20 x00 eq_refl).
  - exists ids, g', w'.
    pose proof (Hf (Nat.max f 30) (Nat.le_max_l f 30)) as E.
    assert (R : reads_after (generateBatch 30 sample_generator 20 counting_world) = 25%nat)
      by (vm_compute; reflexivity).
    destruct (generateBatch 30 sample_generator 20 counting_world)
      as [[[ids0 g0] w0]| |] eqn:E0; [| discriminate R | discriminate R].
    cbn [reads_after] in R.
    pose proof (generateBatch_mono 30 (Nat.max f 30) _ _ _ _ E0 (Nat.le_max_r f 30)) as E1.
    rewrite E1 in E. injection E as -> -> ->.
    split; [reflexivity|]. split; [exact Hl|]. split; [exact Hv|].
    split; [apply Hn; exact counting_blocks_distinct|].
    injection Hm as <- <- <- <-.
    exists ks. split; [exact Ei|]. apply Hs.
    + exact (steady_world_monotone 1700000000000 20 x00 eq_refl).
    + apply exact_increasing. rewrite R.
      exact (steady_world_exact sample_generator 1700000000000 20 x00 0 25
               eq_refl eq_refl).
Defined.

End Samples.

(* ------------------------------------------------------------------ *)
(** * Further properties of the code *)

(* ------------------------------------------------------------------ *)
(** ** The canonical text *)

Module Canonical.
Import HexFacts.

Lemma hiU_upper (b : byte) :
  isUpperHexDigit (hiU b) = true /\ JS.toUpperCaseChar (hiU b) = hiU b.
Proof. destruct b; split; reflexivity. Qed.

Lemma loU_upper (b : byte) :
  isUpperHexDigit (loU b) = true /\ JS.toUpperCaseChar (loU b) = loU b.
Proof. destruct b; split; reflexivity. Qed.

(** X1. [formatGuid] of 16 bytes is a text of 36 characters that
    [isValidGuid] accepts, that upper-casing leaves as it is, and whose
    characters other than the four hyphens are digits 0-9 and A-F. *)
Theorem formatGuid_canonical (id : Buffer.t) :
  length id = 16%nat ->
  length (formatGuid id) = 36%nat /\
  isValidGuid (formatGuid id) = true /\
  JS.toUpperCase (formatGuid id) = formatGuid id /\
  forallb isUpperHexDigit (JS.removeAll "-"%char (formatGuid id)) = true /\
  length (JS.removeAll "-"%char (formatGuid id)) = 32%nat.
Proof.
  intros H. split; [|split; [exact (Codec.formatGuid_valid id H)|]].
  - Codec.sixteen id H. rewrite Codec.formatGuid_chars. reflexivity.
  - Codec.sixteen id H. rewrite Codec.formatGuid_chars.
    split; [|split].
    + unfold JS.toUpperCase. cbn [map].
      repeat match goal with
      | |- context [JS.toUpperCaseChar (hiU ?b)] => rewrite (proj2 (hiU_upper b))
      | |- context [JS.toUpperCaseChar (loU ?b)] => rewrite (proj2 (loU_upper b))
      end.
      reflexivity.
    + repeat (rewrite Codec.removeAll_byte || rewrite Codec.removeAll_drop).
      unfold JS.removeAll at 1. cbn [filter forallb].
      repeat match goal with
      | |- context [isUpperHexDigit (hiU ?b)] => rewrite (proj1 (hiU_upper b))
      | |- context [isUpperHexDigit (loU ?b)] => rewrite (proj1 (loU_upper b))
      end.
      reflexivity.
    + repeat (rewrite Codec.removeAll_byte || rewrite Codec.removeAll_drop).
      reflexivity.
Qed.

Lemma formatGuid_canonical_witness :
  length known_answer_bytes = 16%nat /\
  length (formatGuid known_answer_bytes) = 36%nat /\
  isValidGuid (formatGuid known_answer_bytes) = true /\
  JS.toUpperCase (formatGuid known_answer_bytes) = formatGuid known_answer_bytes /\
  forallb isUpperHexDigit (JS.removeAll "-"%char (formatGuid known_answer_bytes)) = true /\
  length (JS.removeAll "-"%char (formatGuid known_answer_bytes)) = 32%nat.
Proof.
  split; [reflexivity|]. apply (formatGuid_canonical known_answer_bytes). reflexivity.
Defined.

(** X2. Parsing ignores case.  On a text that [isValidGuid] accepts, the
    upper-cased text is accepted too and [guidToBuffer] returns the same
    bytes for both; the canonical rendering of these bytes is the upper-cased
    text. *)
Theorem guidToBuffer_ignores_case (text : JS.str) :
  isValidGuid text = true ->
  isValidGuid (JS.toUpperCase text) = true /\
  guidToBuffer (JS.toUpperCase text) = guidToBuffer text /\
  (buffer <- guidToBuffer text ;; JS.Ret (formatGuid buffer))
    = JS.Ret (JS.toUpperCase text).
Proof.
  intros V. destruct (Parse.decode_valid text V) as [L F].
  assert (E : guidToBuffer text = JS.Ret (Buffer.from_hex (JS.removeAll "-"%char text))).
  { unfold guidToBuffer. rewrite V. reflexivity. }
  rewrite E. cbn [JS.bind]. rewrite <- F.
  split; [apply Codec.formatGuid_valid; exact L|].
  split; [apply Codec.guidToBuffer_formatGuid; exact L | reflexivity].
Qed.

Lemma guidToBuffer_ignores_case_witness :
  let text := JS.lit "550e8400-e29b-41d4-a716-446655440000" in
  isValidGuid text = true /\
  isValidGuid (JS.toUpperCase text) = true /\
  guidToBuffer (JS.toUpperCase text) = guidToBuffer text /\
  (buffer <- guidToBuffer text ;; JS.Ret (formatGuid buffer))
    = JS.Ret (JS.toUpperCase text).
Proof.
  cbv zeta. split; [reflexivity|].
  apply (guidToBuffer_ignores_case (JS.lit "550e8400-e29b-41d4-a716-446655440000")).
  reflexivity.
Defined.

(** X3. Two accepted texts decode to the same bytes exactly when they
    are equal up to case. *)
Theorem guidToBuffer_injective_up_to_case (a b : JS.str) :
  isValidGuid a = true -> isValidGuid b = true ->
  (guidToBuffer a = guidToBuffer b <-> JS.toUpperCase a = JS.toUpperCase b).
Proof.
  intros Va Vb.
  destruct (guidToBuffer_ignores_case a Va) as (_ & Ea & Fa).
  destruct (guidToBuffer_ignores_case b Vb) as (_ & Eb & Fb).
  split; intros H.
  - rewrite H in Fa. rewrite Fb in Fa. congruence.
  - rewrite <- Ea, <- Eb, H. reflexivity.
Qed.

Lemma guidToBuffer_injective_up_to_case_witness :
  let a := JS.lit "550e8400-e29b-41d4-a716-446655440000" in
  let b := JS.lit "550E8400-E29B-41d4-A716-446655440000" in
  isValidGuid a = true /\ isValidGuid b = true /\
  JS.toUpperCase a = JS.toUpperCase b /\ guidToBuffer a = guidToBuffer b.
Proof.
  cbv zeta. split; [reflexivity|]. split; [reflexivity|]. split; [reflexivity|].
  apply (proj2 (guidToBuffer_injective_up_to_case
                  (JS.lit "550e8400-e29b-41d4-a716-446655440000")
                  (JS.lit "550E8400-E29B-41d4-A716-446655440000")
                  eq_refl eq_refl)).
  reflexivity.
Defined.

End Canonical.

(* ------------------------------------------------------------------ *)
(** ** The machine id *)

Module MachineId.
Import HexFacts.

Lemma upper_hex_bytes (l : list byte) :
  JS.toUpperCase (concat (map Buffer.byte_hex l))
  = concat (map (fun b => [hiU b; loU b]) l).
Proof.
  induction l as [|b l IH]; [reflexivity|].
  cbn [map concat]. unfold JS.toUpperCase in *. rewrite map_app, IH. reflexivity.
Qed.

Lemma getMachineId_chars (g : SequentialGuidGenerator) :
  getMachineId g = concat (map (fun b => [hiU b; loU b]) (machineId g)).
Proof.
  unfold getMachineId, Buffer.toString_hex.
  rewrite Nat.sub_0_r. cbn [skipn]. rewrite firstn_all. apply upper_hex_bytes.
Qed.

(** X4. [getMachineId] renders every byte of the machine id as two digits
    0-9 or A-F, and decoding the text as hexadecimal gives the machine id
    back. *)
Theorem getMachineId_roundtrip (g : SequentialGuidGenerator) :
  length (getMachineId g) = (2 * length (machineId g))%nat /\
  forallb isUpperHexDigit (getMachineId g) = true /\
  Buffer.from_hex (getMachineId g) = machineId g.
Proof.
  rewrite getMachineId_chars. induction (machineId g) as [|b l (L & U & D)].
  - repeat split.
  - cbn [map concat app length forallb].
    rewrite (proj1 (Canonical.hiU_upper b)), (proj1 (Canonical.loU_upper b)).
    rewrite Codec.from_hex_byte, D, L, U. repeat split. lia.
Qed.

Lemma from_hex_length_le (n : nat) :
  forall s : JS.str, (length s <= n)%nat -> (2 * length (Buffer.from_hex s) <= length s)%nat.
Proof.
  induction n as [|n IH]; intros s H.
  - destruct s; [cbn; lia | cbn in H; lia].
  - destruct s as [|c1 [|c2 rest]]; try (cbn; lia).
    cbn [Buffer.from_hex].
    destruct (Buffer.hexValue c1); [|cbn; lia].
    destruct (Buffer.hexValue c2); [|cbn; lia].
    cbn [length] in *. specialize (IH rest). lia.
Qed.

Lemma from_hex_eight (s : JS.str) :
  hexGroup 8 s ->
  exists c0 c1 c2 c3 c4 c5 c6 c7,
    s = [c0; c1; c2; c3; c4; c5; c6; c7] /\
    Buffer.from_hex s
    = [pairByte c0 c1; pairByte c2 c3; pairByte c4 c5; pairByte c6 c7] /\
    concat (map (fun b => [hiU b; loU b]) (Buffer.from_hex s)) = JS.toUpperCase s.
Proof.
  intros H. Parse.explode_group s H.
  repeat match goal with H : _ /\ _ |- _ => destruct H end.
  do 8 eexists. split; [reflexivity|].
  repeat (rewrite Parse.from_hex_pair by assumption).
  cbn [Buffer.from_hex]. split; [reflexivity|].
  cbn [map concat app JS.toUpperCase].
  repeat match goal with
  | |- context [hiU (pairByte ?x ?y)] =>
      let E1 := fresh in let E2 := fresh in
      destruct (Parse.pairByte_hiU x y) as [E1 E2]; [assumption | assumption |];
      rewrite E1, E2; clear E1 E2
  end.
  reflexivity.
Qed.

(** X5. A generator built from a machine id given as hexadecimal text
    (as the request handlers do with [Buffer.from(text, 'hex')]).  Eight
    hexadecimal digits are accepted, no random byte is drawn, and
    [getMachineId] returns the text in upper case; a text of fewer than
    eight characters is refused with [InvalidMachineId]; in general the
    constructor fails exactly when the text does not decode to four bytes. *)
Theorem machine_id_from_text (s : JS.str) (ep : option Z) (w : World) :
  let options := {| opt_machineId := Some (Buffer.from_hex s); opt_epoch := ep |} in
  (hexGroup 8 s ->
     exists g, constructor options w = JS.Ret (g, w) /\
               getMachineId g = JS.toUpperCase s) /\
  ((length s < 8)%nat -> constructor options w = JS.Throw InvalidMachineId) /\
  (constructor options w = JS.Throw InvalidMachineId
     <-> length (Buffer.from_hex s) <> 4%nat).
Proof.
  cbv zeta. rewrite Construction.constructor_supplied. split; [|split].
  - intros H. destruct (from_hex_eight s H) as (c0 & c1 & c2 & c3 & c4 & c5 & c6 & c7 & _ & D & U).
    rewrite D. cbn [length Nat.eqb]. eexists. split; [reflexivity|].
    rewrite getMachineId_chars. cbn [machineId]. rewrite <- D. exact U.
  - intros H. pose proof (from_hex_length_le (length s) s (Nat.le_refl _)) as L.
    destruct (Nat.eqb_spec (length (Buffer.from_hex s)) 4); [lia | reflexivity].
  - destruct (Nat.eqb_spec (length (Buffer.from_hex s)) 4); split; intros; congruence.
Qed.

Lemma machine_id_from_text_witness :
  hexGroup 8 (JS.lit "12ab34cd") /\
  exists g,
    constructor {| opt_machineId := Some (Buffer.from_hex (JS.lit "12ab34cd"));
                   opt_epoch := None |} sample_world = JS.Ret (g, sample_world) /\
    getMachineId g = JS.toUpperCase (JS.lit "12ab34cd").
Proof.
  assert (H : hexGroup 8 (JS.lit "12ab34cd")) by (split; reflexivity).
  split; [exact H|].
  apply (proj1 (machine_id_from_text (JS.lit "12ab34cd") None sample_world)). exact H.
Defined.

(** X6. A generator built without a machine id.  The constructor never
    fails; it draws exactly four random bytes, which become the machine id,
    reads no clock, and starts from tick 0 and sequence 0 with the epoch of
    1900 unless one is given.  With a machine id supplied nothing is drawn. *)
Theorem constructor_default_machine_id (ep : option Z) (w : World) :
  (exists g w',
     constructor {| opt_machineId := None; opt_epoch := ep |} w = JS.Ret (g, w') /\
     machineId g = map (entropy w) (seq (drawn w) 4) /\
     epoch g = match ep with Some e => e | None => EPOCH end /\
     lastTimestamp g = 0 /\ sequence g = 0 /\
     drawn w' = (drawn w + 4)%nat /\ reads w' = reads w /\
     clock w' = clock w /\ entropy w' = entropy w) /\
  (forall m g w',
     constructor {| opt_machineId := Some m; opt_epoch := ep |} w = JS.Ret (g, w') ->
     w' = w /\ machineId g = m /\ length m = 4%nat) /\
  (exists g w', defaultGuidGenerator w = JS.Ret (g, w') /\ epoch g = EPOCH /\
                length (machineId g) = 4%nat).
Proof.
  split; [|split].
  - unfold constructor, generateMachineId, randomBytes. cbn [opt_machineId opt_epoch].
    eexists. eexists. split; [reflexivity|]. cbn. repeat split.
  - intros m g w' H. rewrite Construction.constructor_supplied in H.
    destruct (Nat.eqb_spec (length m) 4); [|discriminate H].
    injection H as <- <-. repeat split. assumption.
  - unfold defaultGuidGenerator, constructor, generateMachineId, randomBytes.
    cbn [opt_machineId opt_epoch]. eexists. eexists. split; [reflexivity|].
    split; reflexivity.
Qed.

Lemma constructor_default_machine_id_witness :
  exists g w',
    constructor {| opt_machineId := Some sample_machineId; opt_epoch := None |}
                sample_world = JS.Ret (g, w') /\
    w' = sample_world /\ machineId g = sample_machineId /\
    length sample_machineId = 4%nat.
Proof.
  exists sample_generator, sample_world. split; [reflexivity|].
  apply (proj1 (proj2 (constructor_default_machine_id None sample_world))).
  reflexivity.
Defined.

End MachineId.

(* ------------------------------------------------------------------ *)
(** ** Random GUIDs *)

Module RandomGuid.
Import HexFacts.

(** The version byte and the variant byte made from a random byte. *)
Lemma version_byte (b : byte) :
  let v := Buffer.byte_of_Z (JS.bor (JS.band (Buffer.byte_to_Z b) 15) 64) in
  hiU v = "4"%char /\ loU v = loU b /\
  Buffer.byte_to_Z v = 64 + Buffer.byte_to_Z b mod 16.
Proof. destruct b; (split; [|split]); vm_compute; reflexivity. Qed.

Lemma variant_byte (b : byte) :
  let v := Buffer.byte_of_Z (JS.bor (JS.band (Buffer.byte_to_Z b) 63) 128) in
  In (hiU v) variant_digits /\ loU v = loU b /\
  Buffer.byte_to_Z v = 128 + Buffer.byte_to_Z b mod 64.
Proof.
  destruct b; (split; [|split; vm_compute; reflexivity]); vm_compute; tauto.
Qed.

(** The sixteen bytes [generateRandomGuid] formats. *)
Lemma generateRandomGuid_bytes (w : World) :
  exists r0 r1 r2 r3 r4 r5 r6 r7 r8 r9 r10 r11 r12 r13 r14 r15,
    fst (randomBytes 16 w)
    = [r0; r1; r2; r3; r4; r5; r6; r7; r8; r9; r10; r11; r12; r13; r14; r15] /\
    generateRandomGuid w =
    (formatGuid
       [r0; r1; r2; r3; r4; r5;
        Buffer.byte_of_Z (JS.bor (JS.band (Buffer.byte_to_Z r6) 15) 64); r7;
        Buffer.byte_of_Z (JS.bor (JS.band (Buffer.byte_to_Z r8) 63) 128); r9;
        r10; r11; r12; r13; r14; r15],
     snd (randomBytes 16 w)).
Proof.
  unfold generateRandomGuid, randomBytes. cbn [seq map fst snd].
  do 16 eexists. split; reflexivity.
Qed.

(** X7. [generateRandomGuid] never fails and draws exactly sixteen random
    bytes.  Its result is accepted by [isValidGuid]; the first digit of the
    third group is 4 and the first digit of the fourth group is 8, 9, A or
    B; the bytes it decodes to are the random bytes, except byte 6, which is
    0x40 plus the low four bits drawn, and byte 8, which is 0x80 plus the low
    six bits drawn. *)
Theorem generateRandomGuid_version4 (w : World) :
  let id := fst (generateRandomGuid w) in
  let w' := snd (generateRandomGuid w) in
  let r := map (entropy w) (seq (drawn w) 16) in
  isValidGuid id = true /\
  nth_error id 14 = Some "4"%char /\
  (exists c, nth_error id 19 = Some c /\ In c variant_digits) /\
  (exists buffer,
     guidToBuffer id = JS.Ret buffer /\ length buffer = 16%nat /\
     (forall i, i <> 6%nat -> i <> 8%nat -> nth_error buffer i = nth_error r i) /\
     Indexed.get buffer 6 = 64 + Indexed.get r 6 mod 16 /\
     Indexed.get buffer 8 = 128 + Indexed.get r 8 mod 64) /\
  drawn w' = (drawn w + 16)%nat /\ reads w' = reads w /\
  clock w' = clock w /\ entropy w' = entropy w.
Proof.
  cbv zeta.
  destruct (generateRandomGuid_bytes w)
    as (r0 & r1 & r2 & r3 & r4 & r5 & r6 & r7 & r8 & r9 & r10 & r11 & r12 & r13
        & r14 & r15 & R & G).
  rewrite G. cbn [fst snd]. change (map (entropy w) (seq (drawn w) 16))
    with (fst (randomBytes 16 w)). rewrite R.
  destruct (version_byte r6) as (V1 & _ & V3).
  destruct (variant_byte r8) as (W1 & _ & W3).
  cbv zeta in V1, V3, W1, W3.
  split; [apply Codec.formatGuid_valid; reflexivity|].
  split; [rewrite Codec.formatGuid_chars; cbn [nth_error]; rewrite V1; reflexivity|].
  split.
  { rewrite Codec.formatGuid_chars. cbn [nth_error]. eexists. split; [reflexivity|].
    exact W1. }
  split.
  { eexists. split; [apply Codec.guidToBuffer_formatGuid; reflexivity|].
    split; [reflexivity|]. split; [|split].
    - intros i H6 H8.
      do 16 (destruct i as [|i]; [try reflexivity; contradiction|]).
      reflexivity.
    - unfold Indexed.get. cbn [nth_error]. exact V3.
    - unfold Indexed.get. cbn [nth_error]. exact W3. }
  unfold randomBytes. cbn [snd drawn reads clock entropy]. repeat split.
Qed.

Lemma random_loop_acc (n : nat) :
  forall w acc,
    generateRandomGuidBatch_loop n w acc
    = (acc ++ fst (generateRandomGuidBatch_loop n w []),
       snd (generateRandomGuidBatch_loop n w [])).
Proof.
  induction n as [|n IH]; intros w acc.
  - cbn. rewrite app_nil_r. reflexivity.
  - cbn [generateRandomGuidBatch_loop].
    destruct (generateRandomGuid w) as [id w1].
    rewrite (IH w1 (acc ++ [id])), (IH w1 ([] ++ [id])). cbn [fst snd].
    rewrite <- app_assoc. reflexivity.
Qed.

Lemma random_loop_facts (n : nat) :
  forall w,
    let ids := fst (generateRandomGuidBatch_loop n w []) in
    let w' := snd (generateRandomGuidBatch_loop n w []) in
    length ids = n /\ Forall (fun id => isValidGuid id = true) ids /\
    drawn w' = (drawn w + 16 * n)%nat /\ reads w' = reads w.
Proof.
  induction n as [|n IH]; intros w; cbv zeta.
  - cbn. repeat split; [constructor | lia].
  - cbn [generateRandomGuidBatch_loop].
    pose proof (generateRandomGuid_version4 w) as G. cbv zeta in G.
    destruct (generateRandomGuid w) as [id w1]. cbn [fst snd] in G.
    destruct G as (V & _ & _ & _ & D & R & _).
    rewrite random_loop_acc. cbn [fst snd app].
    destruct (IH w1) as (L & F & D1 & R1).
    cbn [length]. rewrite L, D1, R1, D, R.
    repeat split; [constructor; assumption | lia].
Qed.

(** X8. [generateRandomGuidBatch] refuses a count of zero or less with
    [InvalidCount] and a count above 1000 with its own error; for a count
    from 1 to 1000 it returns exactly that many identifiers, all accepted by
    [isValidGuid], after drawing sixteen random bytes for each and reading no
    clock. *)
Theorem generateRandomGuidBatch_bounds (count : Z) (w : World) :
  (count <= 0 -> generateRandomGuidBatch count w = JS.Throw InvalidCount) /\
  (1000 < count -> generateRandomGuidBatch count w = JS.Throw BatchTooLarge) /\
  (1 <= count <= 1000 ->
     exists ids w',
       generateRandomGuidBatch count w = JS.Ret (ids, w') /\
       Z.of_nat (length ids) = count /\
       Forall (fun id => isValidGuid id = true) ids /\
       Z.of_nat (drawn w') = Z.of_nat (drawn w) + 16 * count /\
       reads w' = reads w).
Proof.
  unfold generateRandomGuidBatch. split; [|split]; intros H.
  - destruct (Z.leb_spec count 0); [reflexivity | lia].
  - destruct (Z.leb_spec count 0); [lia|].
    destruct (Z.ltb_spec 1000 count); [reflexivity | lia].
  - destruct (Z.leb_spec count 0); [lia|].
    destruct (Z.ltb_spec 1000 count); [lia|].
    destruct (random_loop_facts (Z.to_nat count) w) as (L & F & D & R).
    destruct (generateRandomGuidBatch_loop (Z.to_nat count) w []) as [ids w'].
    cbn [fst snd] in *. exists ids, w'. split; [reflexivity|].
    rewrite L, D. repeat split; try assumption; lia.
Qed.

Lemma generateRandomGuidBatch_bounds_witness :
  exists ids w',
    generateRandomGuidBatch 3 sample_world = JS.Ret (ids, w') /\
    Z.of_nat (length ids) = 3 /\
    Forall (fun id => isValidGuid id = true) ids /\
    Z.of_nat (drawn w') = Z.of_nat (drawn sample_world) + 16 * 3 /\
    reads w' = reads sample_world.
Proof.
  apply (proj2 (proj2 (generateRandomGuidBatch_bounds 3 sample_world))). lia.
Defined.

End RandomGuid.

(* ------------------------------------------------------------------ *)
(** ** The classification of identifiers *)

Module Classification.

Lemma land_low (a b : Z) : 0 <= a < JS.two31 -> 0 <= Z.land a b < JS.two31.
Proof.
  intros H. change JS.two31 with (2 ^ 31) in *.
  apply Bits.below_pow2; [lia|].
  rewrite (Z.land_comm a b), <- Z.land_assoc, Bits.land_mask by lia.
  rewrite Z.mod_small by lia. reflexivity.
Qed.

Lemma lor_int32 (x y : Z) : int32 x -> int32 y -> int32 (Z.lor x y).
Proof.
  unfold int32. intros Hx Hy. change JS.two31 with (2 ^ 31) in *.
  destruct (Z.neg_nonneg_cases (Z.lor x y)) as [N|P].
  - split; [|lia].
    assert (E : Z.lor x y = Z.lnot (Z.land (Z.lnot x) (Z.lnot y))).
    { rewrite <- Z.lnot_lor, Z.lnot_involutive. reflexivity. }
    assert (B : 0 <= Z.land (Z.lnot x) (Z.lnot y) < 2 ^ 31).
    { apply Z.lor_neg in N. destruct N as [N|N].
      - apply land_low. unfold Z.lnot. change JS.two31 with (2 ^ 31). lia.
      - rewrite Z.land_comm. apply land_low.
        unfold Z.lnot. change JS.two31 with (2 ^ 31). lia. }
    rewrite E. unfold Z.lnot at 1. lia.
  - split; [lia|]. apply Z.lor_nonneg in P. destruct P as [Px Py].
    apply Bits.below_pow2; [lia|].
    rewrite Z.land_lor_distr_l, !Bits.land_mask by lia.
    rewrite !Z.mod_small by lia. reflexivity.
Qed.

(** The result of [|] is a signed 32-bit number. *)
Lemma bor_int32 (a b : Z) : int32 (JS.bor a b).
Proof. unfold JS.bor. apply lor_int32; apply Bits.ToInt32_range. Qed.

(** X9. [isSequentialGuid] compares the clock with a signed 32-bit number,
    so outside a band of 2^31 ms around one year after 1970 its answer does
    not depend on the text.  From the reading [NEVER_SEQUENTIAL_FROM]
    (January 1971) on, every text, identifiers of the generator included, is
    classified as not sequential; it reads the clock once. *)
Theorem isSequentialGuid_never_after_1971 (text : JS.str) (w : World) :
  (NEVER_SEQUENTIAL_FROM <= clock w (reads w) ->
     fst (isSequentialGuid text w) = false) /\
  (Z.abs (clock w (reads w)) <= ONE_YEAR - 2147483649 ->
     fst (isSequentialGuid text w) = true) /\
  reads (snd (isSequentialGuid text w)) = S (reads w).
Proof.
  unfold isSequentialGuid, Date_now. cbn [fst snd reads].
  set (guidTime := JS.bor _ _).
  pose proof (bor_int32 (JS.shl (Text.operand (Text.parseInt16
     (Text.substring (JS.removeAll "-"%char text) 0 8))) 16)
     (Text.operand (Text.parseInt16
     (Text.substring (JS.removeAll "-"%char text) 8 12)))) as B.
  fold guidTime in B. unfold int32, JS.two31 in B.
  unfold NEVER_SEQUENTIAL_FROM, ONE_YEAR.
  split; [|split; [|reflexivity]]; intros H.
  - apply Z.ltb_ge. lia.
  - apply Z.ltb_lt. lia.
Qed.

Lemma isSequentialGuid_never_after_1971_witness :
  NEVER_SEQUENTIAL_FROM <= clock sample_world (reads sample_world) /\
  fst (isSequentialGuid (JS.lit "0000C88C-C000-1230-5678-000000000000") sample_world)
    = false.
Proof.
  split; [discriminate|].
  apply (proj1 (isSequentialGuid_never_after_1971
                  (JS.lit "0000C88C-C000-1230-5678-000000000000") sample_world)).
  discriminate.
Defined.

(** X10. [analyzeGuid] reports the text it was given and one of two
    verdicts: Low / Excellent / High with six recommendations when
    [isSequentialGuid] holds, High / Poor / Low with seven otherwise; the
    middle grades are never reported.  From January 1971 on, it is the second
    verdict for every text. *)
Theorem analyzeGuid_verdicts (text : JS.str) (w : World) :
  let a := fst (analyzeGuid text w) in
  guid a = text /\
  isSequential a = fst (isSequentialGuid text w) /\
  (isSequential a = true ->
     sqlServerImpact a = {| indexFragmentation := FragmentationLow;
                            insertPerformance := PerformanceExcellent;
                            cacheEfficiency := EfficiencyHigh |} /\
     length (recommendations a) = 6%nat) /\
  (isSequential a = false ->
     sqlServerImpact a = {| indexFragmentation := FragmentationHigh;
                            insertPerformance := PerformancePoor;
                            cacheEfficiency := EfficiencyLow |} /\
     length (recommendations a) = 7%nat) /\
  (NEVER_SEQUENTIAL_FROM <= clock w (reads w) ->
     isSequential a = false /\
     indexFragmentation (sqlServerImpact a) = FragmentationHigh) /\
  reads (snd (analyzeGuid text w)) = S (reads w).
Proof.
  cbv zeta. unfold analyzeGuid.
  pose proof (isSequentialGuid_never_after_1971 text w) as (N & _ & R).
  destruct (isSequentialGuid text w) as [b w1]. cbn [fst snd] in *.
  cbn [guid isSequential sqlServerImpact recommendations indexFragmentation].
  split; [reflexivity|]. split; [reflexivity|].
  split; [intros ->; split; reflexivity|].
  split; [intros ->; split; reflexivity|].
  split; [|exact R].
  intros H. rewrite (N H). split; reflexivity.
Qed.

Lemma analyzeGuid_verdicts_witness :
  let a := fst (analyzeGuid (JS.lit "0000C88C-C000-1230-5678-000000000000") sample_world) in
  NEVER_SEQUENTIAL_FROM <= clock sample_world (reads sample_world) /\
  isSequential a = false /\
  indexFragmentation (sqlServerImpact a) = FragmentationHigh.
Proof.
  cbv zeta. split; [discriminate|].
  destruct (analyzeGuid_verdicts (JS.lit "0000C88C-C000-1230-5678-000000000000")
              sample_world) as (_ & _ & _ & _ & H & _).
  apply H. discriminate.
Defined.

End Classification.

(* ------------------------------------------------------------------ *)
(** ** What [extractTimestamp] decodes *)

Module Decoding.
Import Classification Rounding.

Lemma extractTimestamp_decoded (g : SequentialGuidGenerator) (text : JS.str) :
  extractTimestamp g text =
  (t <- decoded_tick text ;;
   JS.Ret (new_Date (Float64.add (inject_Z (epoch g))
                       (Float64.div (inject_Z t) (inject_Z TICKS_PER_MILLISECOND))))).
Proof.
  unfold extractTimestamp, decoded_tick.
  destruct (guidToBuffer text) as [buffer| |]; cbn [JS.bind]; try reflexivity.
  destruct (Buffer.readUInt32BE buffer 0); cbn [JS.bind]; try reflexivity.
  destruct (Buffer.readUInt16BE buffer 4); reflexivity.
Qed.

Lemma decoded_tick_int32 (text : JS.str) (t : Z) :
  decoded_tick text = JS.Ret t -> int32 t.
Proof.
  unfold decoded_tick. intros H.
  destruct (guidToBuffer text) as [buffer| |]; cbn [JS.bind] in H; try discriminate H.
  destruct (Buffer.readUInt32BE buffer 0); cbn [JS.bind] in H; try discriminate H.
  destruct (Buffer.readUInt16BE buffer 4); cbn [JS.bind] in H; try discriminate H.
  injection H as <-. apply bor_int32.
Qed.

Lemma decoded_tick_valid (text : JS.str) :
  isValidGuid text = true -> exists t, decoded_tick text = JS.Ret t.
Proof.
  intros V. destruct (Parse.decode_valid text V) as [L _].
  unfold decoded_tick, guidToBuffer. rewrite V. cbn [negb JS.bind].
  unfold Buffer.readUInt32BE, Buffer.readUInt16BE, Buffer.read_be. rewrite L.
  cbn [Nat.add Nat.leb JS.bind]. eexists. reflexivity.
Qed.

(** The time clip of a number between two time values. *)
Lemma new_Date_between (v : Q) (lo hi : Z) :
  - 8640000000000000 <= lo -> hi <= 8640000000000000 ->
  (inject_Z lo <= v)%Q -> (v <= inject_Z hi)%Q ->
  exists d, new_Date v = Some d /\ lo <= d <= hi.
Proof.
  intros Hlo Hhi L H. unfold new_Date.
  assert (A : Qle_bool (Qabs v) (inject_Z 8640000000000000) = true).
  { apply Qle_bool_iff. apply Qabs_Qle_condition. split.
    - apply Qle_trans with (y := inject_Z lo); [|exact L].
      rewrite <- inject_Z_opp, <- Zle_Qle. lia.
    - apply Qle_trans with (y := inject_Z hi); [exact H|].
      rewrite <- Zle_Qle. lia. }
  rewrite A. eexists. split; [reflexivity|].
  destruct v as [n d]. unfold Qle in L, H. cbn [Qnum Qden inject_Z] in *.
  rewrite Z.mul_1_r in *.
  pose proof (Z.quot_rem' n (Zpos d)) as E.
  pose proof (Z.rem_bound_abs n (Zpos d)) as R.
  assert (R' : Z.abs (Z.rem n (Zpos d)) < Zpos d) by lia.
  set (q := Z.quot n (Zpos d)) in *. set (r := Z.rem n (Zpos d)) in *.
  split; nia.
Qed.

(** The quotient of a signed 32-bit number by 10000, as a double. *)
Lemma ticks_to_milliseconds (t : Z) :
  int32 t ->
  (inject_Z (-214749) <= Float64.div (inject_Z t) (inject_Z TICKS_PER_MILLISECOND))%Q /\
  (Float64.div (inject_Z t) (inject_Z TICKS_PER_MILLISECOND) <= inject_Z 214749)%Q.
Proof.
  unfold int32, JS.two31, Float64.div, TICKS_PER_MILLISECOND. intros B. split.
  - apply round_ge; [apply representable_small; reflexivity|].
    unfold Qle. cbn. lia.
  - apply round_le; [apply representable_small; reflexivity|].
    unfold Qle. cbn. lia.
Qed.

(** X11. Whatever the text, [extractTimestamp] adds a signed 32-bit number
    of ticks to the epoch: the date it returns for an accepted text is at
    most 214749 ms away from the epoch (about three and a half minutes). *)
Theorem extractTimestamp_near_epoch (g : SequentialGuidGenerator) (text : JS.str) :
  isValidGuid text = true ->
  Z.abs (epoch g) <= 8640000000000000 - 214749 ->
  exists d, extractTimestamp g text = JS.Ret (Some d) /\
            epoch g - 214749 <= d <= epoch g + 214749.
Proof.
  intros V E. destruct (decoded_tick_valid text V) as [t T].
  destruct (ticks_to_milliseconds t (decoded_tick_int32 text t T)) as [Q1 Q2].
  rewrite extractTimestamp_decoded, T. cbn [JS.bind].
  set (q := Float64.div _ _) in *.
  destruct (new_Date_between (Float64.add (inject_Z (epoch g)) q)
              (epoch g - 214749) (epoch g + 214749)) as (d & D & B); try lia.
  - unfold Float64.add. apply round_ge; [apply representable_small; lia|].
    unfold Z.sub. rewrite inject_Z_plus.
    apply Qplus_le_compat; [apply Qle_refl | exact Q1].
  - unfold Float64.add. apply round_le; [apply representable_small; lia|].
    rewrite inject_Z_plus.
    apply Qplus_le_compat; [apply Qle_refl | exact Q2].
  - exists d. rewrite D. split; [reflexivity | exact B].
Qed.

Lemma extractTimestamp_near_epoch_witness :
  exists d,
    extractTimestamp sample_generator (JS.lit "FFFFFFFF-FFFF-FFFF-FFFF-FFFFFFFFFFFF")
      = JS.Ret (Some d) /\
    epoch sample_generator - 214749 <= d <= epoch sample_generator + 214749.
Proof.
  apply (extractTimestamp_near_epoch sample_generator
           (JS.lit "FFFFFFFF-FFFF-FFFF-FFFF-FFFFFFFFFFFF")).
  - reflexivity.
  - discriminate.
Defined.

Lemma lor_disjoint (k lo : Z) :
  0 <= lo < 65536 -> Z.lor (65536 * k) lo = 65536 * k + lo.
Proof.
  intros H.
  assert (Z0 : Z.land (65536 * k) lo = 0).
  { rewrite <- (Z.mod_small lo (2 ^ 16)) by (change (2 ^ 16) with 65536; lia).
    rewrite <- Bits.land_mask by lia.
    rewrite (Z.land_comm lo), Z.land_assoc, Bits.land_mask by lia.
    change (2 ^ 16) with 65536. rewrite Z.mul_comm, Z.mod_mul by lia.
    apply Z.land_0_l. }
  rewrite <- (Z.lxor_lor _ _ Z0). symmetry. apply Z.add_nocarry_lxor. exact Z0.
Qed.

(** The two halves [generate] writes recombine, in [extractTimestamp], to
    the tick as a signed 32-bit number. *)
Lemma recombine (t : Z) :
  JS.bor (JS.shl ((t mod JS.two32) / 65536) 16) (t mod 65536) = JS.ToInt32 t.
Proof.
  assert (Hh : 0 <= (t mod JS.two32) / 65536 < 65536)
    by (unfold JS.two32; Z.to_euclidean_division_equations; lia).
  assert (Hl : 0 <= t mod 65536 < 65536) by (apply Z.mod_pos_bound; lia).
  set (hi := (t mod JS.two32) / 65536) in *. set (lo := t mod 65536) in *.
  assert (Et : t mod JS.two32 = 65536 * hi + lo)
    by (subst hi lo; unfold JS.two32; Z.to_euclidean_division_equations; lia).
  unfold JS.bor, JS.shl. change (16 mod 32) with 16.
  rewrite (Bits.ToInt32_small hi) by (unfold JS.two31; lia).
  rewrite Z.shiftl_mul_pow2 by lia. change (2 ^ 16) with 65536.
  rewrite (Bits.ToInt32_small (JS.ToInt32 (hi * 65536))) by apply Bits.ToInt32_range.
  rewrite (Bits.ToInt32_small lo) by (unfold JS.two31; lia).
  assert (Eh : (hi * 65536) mod JS.two32 = hi * 65536)
    by (apply Z.mod_small; unfold JS.two32; lia).
  unfold JS.ToInt32. rewrite Eh, Et. unfold JS.two31, JS.two32.
  destruct (Z.leb_spec 2147483648 (hi * 65536));
    destruct (Z.leb_spec 2147483648 (65536 * hi + lo)); try lia.
  - replace (hi * 65536 - 4294967296) with (65536 * (hi - 65536)) by ring.
    rewrite lor_disjoint by lia. ring.
  - replace (hi * 65536) with (65536 * hi) by ring.
    rewrite lor_disjoint by lia. ring.
Qed.

Lemma decoded_tick_packed (t : Z) (m0 m1 m2 m3 : byte) (s : Z) (r : list byte) :
  length r = 6%nat ->
  decoded_tick (formatGuid (packed t m0 m1 m2 m3 s r)) = JS.Ret (JS.ToInt32 t).
Proof.
  intros L. unfold decoded_tick.
  rewrite Codec.guidToBuffer_formatGuid by (apply Layout.packed_length; exact L).
  cbn [JS.bind]. rewrite Layout.packed_word0. cbn [JS.bind].
  rewrite Layout.packed_half4. cbn [JS.bind]. rewrite recombine. reflexivity.
Qed.

End Decoding.

(* ------------------------------------------------------------------ *)
(** ** What one call of [generate] gives *)

Module Generated.
Import Timestamp TimestampPost Generate Packing Cursor Batch Ticks Order Distinct.

Lemma four_bytes (g : SequentialGuidGenerator) :
  length (machineId g) = 4%nat ->
  exists m0 m1 m2 m3, machineId g = [m0; m1; m2; m3].
Proof.
  intros L. destruct (machineId g) as [|m0 [|m1 [|m2 [|m3 [|]]]]]; try discriminate L.
  eauto.
Qed.

(** X12. The identifier a returning call of [generate] emits is canonical
    (36 characters, accepted by [isValidGuid], in upper case) and decodes to
    16 bytes that carry the state the call left behind: bytes 0 and 1 are
    zero, bytes 2 to 5 are the stored tick modulo 2^32, the low four bits of
    byte 7 are the stored sequence, bytes 8 and 9 are the last two bytes of
    the machine id and bytes 10 to 15 are the six random bytes drawn. *)
Theorem generate_output (f : nat) (g : SequentialGuidGenerator) (w : World)
    (id : JS.str) (g' : SequentialGuidGenerator) (w' : World) :
  length (machineId g) = 4%nat ->
  generate f g w = JS.Ret (id, g', w') ->
  length id = 36%nat /\ isValidGuid id = true /\ JS.toUpperCase id = id /\
  exists buffer,
    guidToBuffer id = JS.Ret buffer /\ length buffer = 16%nat /\
    firstn 2 buffer = [x00; x00] /\
    Buffer.read_be buffer 2 4 = JS.Ret (lastTimestamp g' mod JS.two32) /\
    Indexed.get buffer 7 mod 16 = sequence g' /\
    firstn 2 (skipn 8 buffer) = skipn 2 (machineId g) /\
    skipn 10 buffer = map (entropy w) (seq (drawn w) 6).
Proof.
  intros L H. destruct (four_bytes g L) as (m0 & m1 & m2 & m3 & Hm).
  destruct (generate_inv f g w m0 m1 m2 m3 id g' w' Hm H) as (t & w2 & T & -> & ->).
  destruct (getTimestamp_post _ _ _ _ _ _ _ T) as (_ & _ & Lt & Sq & _ & En & D & _).
  assert (Lr : length (random_part w2) = 6%nat) by apply random_part_length.
  pose proof (Layout.packed_length t m0 m1 m2 m3 (sequence g') _ Lr) as L16.
  destruct (Canonical.formatGuid_canonical _ L16) as (C1 & C2 & C3 & _).
  split; [exact C1|]. split; [exact C2|]. split; [exact C3|].
  eexists. split; [apply Codec.guidToBuffer_formatGuid; exact L16|].
  split; [exact L16|].
  split; [apply Layout.packed_high_zero|].
  split; [rewrite Lt; apply Layout.packed_tick_field|].
  split.
  { unfold Indexed.get, packed. cbn [nth_error app].
    rewrite HexFacts.byte_to_of_Z.
    pose proof (Bits.mixed_low (256 * Buffer.byte_to_Z m0 + Buffer.byte_to_Z m1)
                  (sequence g')) as Ml.
    rewrite (Z.mod_small (sequence g')) in Ml by lia.
    set (mx := mixed _ _) in *.
    Z.to_euclidean_division_equations; lia. }
  split.
  { rewrite Hm. apply (Layout.packed_half8 t m0 m1 m2 m3 (sequence g') (random_part w2)). }
  rewrite Layout.packed_tail. unfold random_part, randomBytes. cbn [fst].
  rewrite En, D. unfold after_reading. reflexivity.
Qed.

(** X13. [generate] leaves the machine id and the epoch as they were,
    draws exactly six random bytes, reads the clock at least once, changes
    neither oracle, and stores the tick of one of the readings it took. *)
Theorem generate_preserves (f : nat) (g : SequentialGuidGenerator) (w : World)
    (id : JS.str) (g' : SequentialGuidGenerator) (w' : World) :
  length (machineId g) = 4%nat ->
  generate f g w = JS.Ret (id, g', w') ->
  machineId g' = machineId g /\ epoch g' = epoch g /\
  drawn w' = (drawn w + 6)%nat /\ (reads w < reads w')%nat /\
  clock w' = clock w /\ entropy w' = entropy w /\
  exists i, (reads w <= i < reads w')%nat /\
            lastTimestamp g' = ticks_of g (clock w i).
Proof.
  intros L H. destruct (four_bytes g L) as (m0 & m1 & m2 & m3 & Hm).
  destruct (generate_facts _ _ _ _ _ _ _ _ _ _ Hm H)
    as (M & Ep & _ & C & En & R & _ & I).
  destruct (generate_inv f g w m0 m1 m2 m3 id g' w' Hm H) as (t & w2 & T & _ & ->).
  destruct (getTimestamp_post _ _ _ _ _ _ _ T) as (_ & _ & _ & _ & _ & _ & D & _).
  repeat split; try assumption.
  cbn [drawn_after randomBytes snd drawn]. rewrite D. reflexivity.
Qed.

(** X14. With a machine id of four bytes [generate] throws nothing, and it
    returns as soon as the clock has moved: if the reading [d] steps after
    the one that follows the first is later than the first, every fuel from
    [d + 2] on gives the same result. *)
Theorem generate_returns (g : SequentialGuidGenerator) (w : World) (d : nat) :
  length (machineId g) = 4%nat ->
  (forall f e, generate f g w <> JS.Throw e) /\
  (first_reading w < clock w (S (reads w) + d)%nat ->
   exists x, forall f, (S (S d) <= f)%nat -> generate f g w = JS.Ret x).
Proof.
  intros L. split.
  - intros f e. apply generate_no_throw. exact L.
  - intros H. destruct (four_bytes g L) as (m0 & m1 & m2 & m3 & Hm).
    destruct (getTimestamp_total g (first_reading w) (after_reading w) d)
      as [[[t g1] w2] T]; [exact H|].
    eexists. intros f Hf.
    apply (generate_mono (S (S d)) f); [|exact Hf].
    apply (generate_intro _ g w m0 m1 m2 m3 t g1 w2 Hm T).
Qed.

(** X15. Under a clock that does not go back and whose later times have
    later ticks (as they have wherever the ticks are exact), the pair
    (stored tick, stored sequence) left by a call of [generate] is strictly
    below, in lexicographic order, the pair left by the next call on the
    same generator. *)
Theorem generate_consecutive (f1 f2 : nat) (g : SequentialGuidGenerator) (w : World)
    (id1 id2 : JS.str) (g1 g2 : SequentialGuidGenerator) (w1 w2 : World) :
  length (machineId g) = 4%nat -> clock_monotone w ->
  ticks_increasing g w (reads w) (reads w2) ->
  generate f1 g w = JS.Ret (id1, g1, w1) ->
  generate f2 g1 w1 = JS.Ret (id2, g2, w2) ->
  lex_lt (lastTimestamp g1) (sequence g1) (lastTimestamp g2) (sequence g2).
Proof.
  intros L M I G1 G2. destruct (four_bytes g L) as (m0 & m1 & m2 & m3 & Hm).
  destruct (generate_facts _ _ _ _ _ _ _ _ _ _ Hm G1)
    as (Mg & Ep & Sq1 & C & _ & R & _ & _).
  assert (Hm1 : machineId g1 = [m0; m1; m2; m3]) by congruence.
  destruct (generate_facts _ _ _ _ _ _ _ _ _ _ Hm1 G2) as (_ & _ & _ & _ & _ & R2 & _).
  apply (generate_order m0 m1 m2 m3 f2 g1 w1 id2 g2 w2 (reads w2)); try assumption.
  - apply (monotone_after w w1 C (Nat.lt_le_incl _ _ R) M).
  - apply (increasing_narrower g g1 w w1 (reads w) (reads w2)); try assumption; lia.
  - apply (behind_after m0 m1 m2 m3 f1 g w id1 g1 w1 (reads w2) Hm M I G1).
  - lia.
Qed.

End Generated.

(* ------------------------------------------------------------------ *)
(** ** Generated identifiers at sample inputs, and their timestamps *)

Module GeneratedSamples.
Import Timestamp TimestampPost Generate Packing Cursor Batch Rounding Ticks Order Distinct.
Import Worlds Generated.

Lemma generate_output_witness :
  exists id g' w',
    generate 5 sample_generator sample_world = JS.Ret (id, g', w') /\
    length id = 36%nat /\ isValidGuid id = true /\ JS.toUpperCase id = id /\
    exists buffer,
      guidToBuffer id = JS.Ret buffer /\ length buffer = 16%nat /\
      firstn 2 buffer = [x00; x00] /\
      Buffer.read_be buffer 2 4 = JS.Ret (lastTimestamp g' mod JS.two32) /\
      Indexed.get buffer 7 mod 16 = sequence g' /\
      firstn 2 (skipn 8 buffer) = skipn 2 (machineId sample_generator) /\
      skipn 10 buffer = map (entropy sample_world) (seq (drawn sample_world) 6).
Proof.
  assert (R : reads_after (generate 5 sample_generator sample_world) = 1%nat)
    by (vm_compute; reflexivity).
  destruct (generate 5 sample_generator sample_world) as [[[id g'] w']| |] eqn:E;
    [| discriminate R | discriminate R].
  exists id, g', w'. split; [reflexivity|].
  apply (generate_output 5 sample_generator sample_world id g' w'); [reflexivity | exact E].
Defined.

Lemma generate_preserves_witness :
  exists id g' w',
    generate 5 sample_generator sample_world = JS.Ret (id, g', w') /\
    machineId g' = machineId sample_generator /\ epoch g' = epoch sample_generator /\
    drawn w' = (drawn sample_world + 6)%nat /\ (reads sample_world < reads w')%nat /\
    clock w' = clock sample_world /\ entropy w' = entropy sample_world /\
    exists i, (reads sample_world <= i < reads w')%nat /\
              lastTimestamp g' = ticks_of sample_generator (clock sample_world i).
Proof.
  assert (R : reads_after (generate 5 sample_generator sample_world) = 1%nat)
    by (vm_compute; reflexivity).
  destruct (generate 5 sample_generator sample_world) as [[[id g'] w']| |] eqn:E;
    [| discriminate R | discriminate R].
  exists id, g', w'. split; [reflexivity|].
  apply (generate_preserves 5 sample_generator sample_world id g' w'); [reflexivity | exact E].
Defined.

Lemma generate_returns_witness :
  first_reading sample_world < clock sample_world (S (reads sample_world) + 19)%nat /\
  exists x, forall f, (21 <= f)%nat -> generate f exhausted_generator sample_world = JS.Ret x.
Proof.
  assert (H : first_reading sample_world
              < clock sample_world (S (reads sample_world) + 19)%nat) by reflexivity.
  split; [exact H|].
  apply (proj2 (generate_returns exhausted_generator sample_world 19 eq_refl)).
  exact H.
Defined.

Lemma generate_consecutive_witness :
  exists id1 g1 w1 id2 g2 w2,
    generate 5 sample_generator sample_world = JS.Ret (id1, g1, w1) /\
    generate 5 g1 w1 = JS.Ret (id2, g2, w2) /\
    lex_lt (lastTimestamp g1) (sequence g1) (lastTimestamp g2) (sequence g2).
Proof.
  assert (R : reads_after (generate_twice 5 sample_generator sample_world) = 2%nat)
    by (vm_compute; reflexivity).
  unfold generate_twice in R.
  destruct (generate 5 sample_generator sample_world) as [[[id1 g1] w1]| |] eqn:E1;
    [| discriminate R | discriminate R].
  cbn [JS.bind] in R.
  destruct (generate 5 g1 w1) as [[[id2 g2] w2]| |] eqn:E2;
    [| discriminate R | discriminate R].
  cbn [reads_after] in R.
  exists id1, g1, w1, id2, g2, w2. split; [reflexivity|]. split; [exact E2|].
  apply (generate_consecutive 5 5 sample_generator sample_world id1 id2 g1 g2 w1 w2);
    [reflexivity | apply steady_world_monotone; lia | | exact E1 | exact E2].
  apply exact_increasing. rewrite R.
  apply steady_world_exact; [lia | vm_compute; reflexivity].
Defined.

(** The time clip of a time value. *)
Lemma new_Date_time_value (c : Z) :
  Z.abs c <= 8640000000000000 -> new_Date (inject_Z c) = Some c.
Proof.
  intros H. unfold new_Date.
  assert (A : Qle_bool (Qabs (inject_Z c)) (inject_Z 8640000000000000) = true).
  { apply Qle_bool_iff. unfold Qle, Qabs, inject_Z. cbn [Qnum Qden]. lia. }
  rewrite A. cbn [inject_Z Qnum Qden]. rewrite Z.quot_1_r. reflexivity.
Qed.

(** X16. [extractTimestamp] applied to an identifier that [generate] has
    just emitted returns the date of the epoch plus the stored tick, read as
    a signed 32-bit number and divided by 10000, both operations in double
    precision.  When the clock reading the identifier was made from is at
    most 214748 ms past the epoch (the tick is then exact and below 2^31),
    it returns that very reading. *)
Theorem extract_generated (f : nat) (g : SequentialGuidGenerator) (w : World)
    (id : JS.str) (g' : SequentialGuidGenerator) (w' : World) :
  length (machineId g) = 4%nat ->
  generate f g w = JS.Ret (id, g', w') ->
  extractTimestamp g' id
    = JS.Ret (new_Date
                (Float64.add (inject_Z (epoch g))
                   (Float64.div (inject_Z (JS.ToInt32 (lastTimestamp g')))
                                (inject_Z TICKS_PER_MILLISECOND)))) /\
  exists i, (reads w <= i < reads w')%nat /\
            lastTimestamp g' = ticks_of g (clock w i) /\
            (0 <= clock w i - epoch g <= 214748 ->
             Z.abs (clock w i) <= 8640000000000000 ->
             extractTimestamp g' id = JS.Ret (Some (clock w i))).
Proof.
  intros L H. destruct (four_bytes g L) as (m0 & m1 & m2 & m3 & Hm).
  destruct (generate_facts _ _ _ _ _ _ _ _ _ _ Hm H)
    as (_ & Ep & _ & _ & _ & _ & (r & Lr & ->) & (i & Hi & Li)).
  assert (X : extractTimestamp g'
                (formatGuid (packed (lastTimestamp g') m0 m1 m2 m3 (sequence g') r))
              = JS.Ret (new_Date
                          (Float64.add (inject_Z (epoch g))
                             (Float64.div (inject_Z (JS.ToInt32 (lastTimestamp g')))
                                          (inject_Z TICKS_PER_MILLISECOND))))).
  { rewrite Decoding.extractTimestamp_decoded, Decoding.decoded_tick_packed by exact Lr.
    cbn [JS.bind]. rewrite Ep. reflexivity. }
  split; [exact X|].
  exists i. split; [exact Hi|]. split; [exact Li|].
  intros B A. rewrite X. f_equal.
  assert (Ex : exact_reading g (clock w i)).
  { unfold exact_reading. change (2 ^ 53) with 9007199254740992. lia. }
  rewrite Li, (ticks_of_exact g _ Ex). unfold TICKS_PER_MILLISECOND.
  rewrite Bits.ToInt32_small by (unfold JS.two31; lia).
  unfold Float64.div, Float64.add.
  rewrite (round_exact (inject_Z ((clock w i - epoch g) * 10000) / inject_Z 10000)
             (clock w i - epoch g)).
  - rewrite (round_exact _ (clock w i)).
    + apply new_Date_time_value. exact A.
    + apply representable_small. change (2 ^ 53) with 9007199254740992. lia.
    + rewrite <- inject_Z_plus.
      replace (epoch g + (clock w i - epoch g)) with (clock w i) by ring. reflexivity.
  - apply representable_small. change (2 ^ 53) with 9007199254740992. lia.
  - unfold Qeq, Qdiv, Qmult, Qinv, inject_Z. cbn [Qnum Qden]. cbn. lia.
Qed.

Lemma extract_generated_witness :
  exists id g' w',
    generate 5 recent_generator sample_world = JS.Ret (id, g', w') /\
    extractTimestamp g' id = JS.Ret (Some 1700000000000).
Proof.
  assert (R : reads_after (generate 5 recent_generator sample_world) = 1%nat)
    by (vm_compute; reflexivity).
  destruct (generate 5 recent_generator sample_world) as [[[id g'] w']| |] eqn:E;
    [| discriminate R | discriminate R].
  cbn [reads_after] in R.
  exists id, g', w'. split; [reflexivity|].
  destruct (extract_generated 5 recent_generator sample_world id g' w' eq_refl E)
    as (_ & i & Hi & _ & X).
  rewrite R in Hi. assert (i = 0%nat) by (cbn in Hi; lia). subst i.
  apply X.
  - split; discriminate.
  - discriminate.
Defined.

End GeneratedSamples.

(* ------------------------------------------------------------------ *)
(** ** The sortable prefix inside one window of 2^32 ticks *)

Module PrefixOrder.
Import Timestamp TimestampPost Generate Packing Cursor Batch Ticks Order Distinct.
Import Worlds Generated.

Lemma be_value_acc (l : list byte) :
  forall acc, Buffer.be_value l acc
              = acc * 256 ^ Z.of_nat (length l) + Buffer.be_value l 0.
Proof.
  induction l as [|b l IH]; intros acc.
  - cbn. lia.
  - cbn [Buffer.be_value length]. rewrite (IH (acc * 256 + _)), (IH (0 * 256 + _)).
    rewrite Nat2Z.inj_succ, Z.pow_succ_r by lia. ring.
Qed.

Lemma be_value_bound (l : list byte) :
  0 <= Buffer.be_value l 0 < 256 ^ Z.of_nat (length l).
Proof.
  induction l as [|b l IH].
  - cbn. lia.
  - cbn [Buffer.be_value length]. rewrite be_value_acc.
    rewrite Nat2Z.inj_succ, Z.pow_succ_r by lia.
    pose proof (HexFacts.byte_to_Z_range b).
    set (P := 256 ^ Z.of_nat (length l)) in *.
    set (v := Buffer.byte_to_Z b) in *.
    replace ((0 * 256 + v) * P) with (v * P) by ring. nia.
Qed.

(** On sequences of one length the lexicographic order is the order of the
    big-endian numbers. *)
Lemma lex_le_iff (a : list byte) :
  forall b, length a = length b ->
            (Buffer.lex_le a b = true <-> Buffer.be_value a 0 <= Buffer.be_value b 0).
Proof.
  induction a as [|x a IH]; intros b L.
  - destruct b; [|discriminate L]. cbn. split; [lia | reflexivity].
  - destruct b as [|y b]; [discriminate L|]. injection L as L.
    cbn [Buffer.lex_le Buffer.be_value].
    rewrite (be_value_acc a), (be_value_acc b), <- L.
    pose proof (be_value_bound a) as Ba. pose proof (be_value_bound b) as Bb.
    rewrite <- L in Bb.
    set (P := 256 ^ Z.of_nat (length a)) in *.
    set (u := Buffer.byte_to_Z x). set (v := Buffer.byte_to_Z y).
    replace ((0 * 256 + u) * P) with (u * P) by ring.
    replace ((0 * 256 + v) * P) with (v * P) by ring.
    destruct (Z.ltb_spec u v) as [Huv|Huv].
    + split; [intros _; nia | reflexivity].
    + destruct (Z.ltb_spec v u) as [Hvu|Hvu].
      * split; [discriminate | intros H; nia].
      * assert (u = v) by lia. subst u. rewrite (IH b L).
        replace (Buffer.byte_to_Z x) with v by lia. lia.
Qed.

Lemma land_disjoint (m s : Z) : Z.land (Z.land m 65520) (s mod 16) = 0.
Proof.
  rewrite Bits.mod16_land, <- Z.land_assoc, (Z.land_comm s), (Z.land_assoc 65520).
  change (Z.land 65520 15) with 0. rewrite Z.land_0_l. apply Z.land_0_r.
Qed.

Lemma mixed_add (m s : Z) : mixed m s = Z.land m 65520 + s mod 16.
Proof.
  unfold mixed. rewrite <- (Z.lxor_lor _ _ (land_disjoint m s)).
  symmetry. apply Z.add_nocarry_lxor. apply land_disjoint.
Qed.

(** The first ten bytes of the packed buffer, as one number. *)
Lemma prefix_value (t : Z) (m0 m1 m2 m3 : byte) (s : Z) (r : list byte) :
  Buffer.be_value (firstn 10 (packed t m0 m1 m2 m3 s r)) 0
  = ((t mod JS.two32) * 65536
     + mixed (256 * Buffer.byte_to_Z m0 + Buffer.byte_to_Z m1) s) * 65536
    + (256 * Buffer.byte_to_Z m2 + Buffer.byte_to_Z m3).
Proof.
  unfold packed. cbn [firstn app Buffer.be_value].
  rewrite !HexFacts.byte_to_of_Z. rewrite Bits.ushr_16, Bits.band_ffff.
  pose proof (Bits.mixed_range (256 * Buffer.byte_to_Z m0 + Buffer.byte_to_Z m1) s).
  set (mx := mixed _ s) in *.
  unfold JS.two32. Z.to_euclidean_division_equations; lia.
Qed.

Lemma prefix_lt (t1 s1 t2 s2 : Z) (m0 m1 m2 m3 : byte) (r1 r2 : list byte) :
  0 <= s1 <= 15 -> 0 <= s2 <= 15 ->
  t1 / JS.two32 = t2 / JS.two32 -> lex_lt t1 s1 t2 s2 ->
  Buffer.be_value (firstn 10 (packed t1 m0 m1 m2 m3 s1 r1)) 0
  < Buffer.be_value (firstn 10 (packed t2 m0 m1 m2 m3 s2 r2)) 0.
Proof.
  intros S1 S2 W Lt. rewrite !prefix_value, !mixed_add.
  rewrite (Z.mod_small s1), (Z.mod_small s2) by lia.
  pose proof (Bits.land_fff0_range (256 * Buffer.byte_to_Z m0 + Buffer.byte_to_Z m1)).
  pose proof (HexFacts.byte_to_Z_range m0). pose proof (HexFacts.byte_to_Z_range m1).
  pose proof (HexFacts.byte_to_Z_range m2). pose proof (HexFacts.byte_to_Z_range m3).
  set (base := Z.land _ 65520) in *.
  assert (M : t1 mod JS.two32 < t2 mod JS.two32 \/
              (t1 mod JS.two32 = t2 mod JS.two32 /\ s1 < s2)).
  { unfold JS.two32 in *. destruct Lt as [Lt|[E Lt]].
    - left. Z.to_euclidean_division_equations; lia.
    - right. subst t2. split; [reflexivity | exact Lt]. }
  destruct M as [M|[M Ls]]; [|rewrite M]; lia.
Qed.

(** X17. The sortable-prefix property as the code has it.  Under a clock
    that does not go back and whose later times have later ticks, if two
    consecutive calls of [generate] store ticks of the same window of 2^32
    ticks (the same quotient by 2^32), the first ten bytes of the first
    identifier are lexicographically below those of the second, and
    different from them. *)
Theorem prefix_sorted_in_window (f1 f2 : nat) (g : SequentialGuidGenerator) (w : World)
    (id1 id2 : JS.str) (g1 g2 : SequentialGuidGenerator) (w1 w2 : World) :
  length (machineId g) = 4%nat -> clock_monotone w ->
  ticks_increasing g w (reads w) (reads w2) ->
  generate f1 g w = JS.Ret (id1, g1, w1) ->
  generate f2 g1 w1 = JS.Ret (id2, g2, w2) ->
  lastTimestamp g1 / JS.two32 = lastTimestamp g2 / JS.two32 ->
  exists b1 b2,
    guidToBuffer id1 = JS.Ret b1 /\ guidToBuffer id2 = JS.Ret b2 /\
    Buffer.lex_le (firstn 10 b1) (firstn 10 b2) = true /\
    firstn 10 b1 <> firstn 10 b2.
Proof.
  intros L M I G1 G2 W.
  pose proof (generate_consecutive f1 f2 g w id1 id2 g1 g2 w1 w2 L M I G1 G2) as Lt.
  destruct (four_bytes g L) as (m0 & m1 & m2 & m3 & Hm).
  destruct (generate_facts _ _ _ _ _ _ _ _ _ _ Hm G1)
    as (Mg & _ & Sq1 & _ & _ & _ & (r1 & Lr1 & ->) & _).
  assert (Hm1 : machineId g1 = [m0; m1; m2; m3]) by congruence.
  destruct (generate_facts _ _ _ _ _ _ _ _ _ _ Hm1 G2)
    as (_ & _ & Sq2 & _ & _ & _ & (r2 & Lr2 & ->) & _).
  pose proof (prefix_lt _ _ _ _ m0 m1 m2 m3 r1 r2 Sq1 Sq2 W Lt) as P.
  eexists. eexists.
  split; [apply Codec.guidToBuffer_formatGuid; apply Layout.packed_length; exact Lr1|].
  split; [apply Codec.guidToBuffer_formatGuid; apply Layout.packed_length; exact Lr2|].
  split.
  - apply lex_le_iff; [|lia].
    rewrite !length_firstn, !(Layout.packed_length _ _ _ _ _ _ _ Lr1),
      !(Layout.packed_length _ _ _ _ _ _ _ Lr2). reflexivity.
  - intros E. rewrite E in P. lia.
Qed.

Lemma prefix_sorted_in_window_witness :
  exists id1 g1 w1 id2 g2 w2 b1 b2,
    generate 5 sample_generator sample_world = JS.Ret (id1, g1, w1) /\
    generate 5 g1 w1 = JS.Ret (id2, g2, w2) /\
    guidToBuffer id1 = JS.Ret b1 /\ guidToBuffer id2 = JS.Ret b2 /\
    Buffer.lex_le (firstn 10 b1) (firstn 10 b2) = true /\
    firstn 10 b1 <> firstn 10 b2.
Proof.
  assert (R : reads_after (generate_twice 5 sample_generator sample_world) = 2%nat)
    by (vm_compute; reflexivity).
  assert (T1 : tick_after (generate 5 sample_generator sample_world) = 39089888000000000)
    by (vm_compute; reflexivity).
  assert (T2 : tick_after (generate_twice 5 sample_generator sample_world)
               = 39089888000000000) by (vm_compute; reflexivity).
  unfold generate_twice in R, T2.
  destruct (generate 5 sample_generator sample_world) as [[[id1 g1] w1]| |] eqn:E1;
    [| discriminate R | discriminate R].
  cbn [JS.bind] in R, T2.
  destruct (generate 5 g1 w1) as [[[id2 g2] w2]| |] eqn:E2;
    [| discriminate R | discriminate R].
  cbn [tick_after reads_after] in T1, T2, R.
  destruct (prefix_sorted_in_window 5 5 sample_generator sample_world
              id1 id2 g1 g2 w1 w2) as (b1 & b2 & H);
    [reflexivity | apply steady_world_monotone; lia
     | apply exact_increasing; rewrite R;
       apply steady_world_exact; [lia | vm_compute; reflexivity]
     | exact E1 | exact E2 | rewrite T1, T2; reflexivity |].
  exists id1, g1, w1, id2, g2, w2, b1, b2.
  split; [reflexivity|]. split; [exact E2|]. exact H.
Defined.

End PrefixOrder.

(* ------------------------------------------------------------------ *)
(** ** Distinct identifiers in a batch *)

Module BatchOrder.
Import Timestamp TimestampPost Generate Packing Cursor Batch Ticks Order Distinct.
Import Worlds Generated.

(** X19. The identifiers of a batch are pairwise distinct, whatever the
    random source gives, when the clock does not go back, the readings of
    the batch are close enough to the epoch for their ticks to be exact, and
    they span less than 2^28 ms (the ticks written into two identifiers
    then differ in their low 32 bits, or the sequences differ). *)
Theorem batch_distinct_in_window (f : nat) (g : SequentialGuidGenerator) (count : Z)
    (w : World) (ids : list JS.str) (g' : SequentialGuidGenerator) (w' : World) :
  length (machineId g) = 4%nat ->
  generateBatch f g count w = JS.Ret (ids, g', w') ->
  clock_monotone w -> exact_clock g w (reads w) (reads w') ->
  short_stretch w (reads w) (reads w') ->
  NoDup ids.
Proof.
  intros L H M X Sh. destruct (four_bytes g L) as (m0 & m1 & m2 & m3 & Hm).
  unfold generateBatch in H. destruct (count <=? 0); [discriminate H|].
  destruct (loop_keys m0 m1 m2 m3 _ _ _ _ _ _ _ Hm H) as (_ & ks & -> & _ & _ & Win & Cond).
  apply (sorted_nodup m0 m1 m2 m3 g w (reads w') ks M X Sh); [|exact Win].
  apply Cond; [exact M | apply exact_increasing; exact X].
Qed.

Lemma batch_distinct_in_window_witness :
  exists ids g' w',
    generateBatch 30 sample_generator 20 sample_world = JS.Ret (ids, g', w') /\
    length ids = 20%nat /\ NoDup ids.
Proof.
  assert (R : reads_after (generateBatch 30 sample_generator 20 sample_world) = 25%nat)
    by (vm_compute; reflexivity).
  assert (N : length (ids_after (generateBatch 30 sample_generator 20 sample_world))
              = 20%nat) by (vm_compute; reflexivity).
  destruct (generateBatch 30 sample_generator 20 sample_world)
    as [[[ids g'] w']| |] eqn:E; [| discriminate R | discriminate R].
  cbn [reads_after ids_after] in R, N.
  exists ids, g', w'. split; [reflexivity|]. split; [exact N|].
  apply (batch_distinct_in_window 30 sample_generator 20 sample_world ids g' w');
    [reflexivity | exact E | apply steady_world_monotone; lia | | ].
  - rewrite R. apply steady_world_exact; [lia | vm_compute; reflexivity].
  - intros i j Hij Hj. rewrite R in Hj.
    unfold sample_world, steady_world. cbn [clock].
    Z.to_euclidean_division_equations. lia.
Defined.

End BatchOrder.

(* ------------------------------------------------------------------ *)
(** ** The number [isSequentialGuid] reads from a text *)

Module Heuristic.
Import HexFacts.

Lemma parseInt16_hex (c : ascii) (s : JS.str) :
  isHexDigit c = true ->
  match s with d :: _ => isHexDigit d = true | [] => True end ->
  Text.parseInt16 (c :: s)
  = (let (v, seen) := Text.hexPrefix (c :: s) 0 false in
     if seen then Some (1 * v) else None).
Proof.
  intros Hc Hs.
  destruct c as [[] [] [] [] [] [] [] []]; try discriminate Hc; try reflexivity.
  destruct s as [|d s]; [reflexivity|].
  destruct d as [[] [] [] [] [] [] [] []]; try discriminate Hs; reflexivity.
Qed.

Lemma pairByte_value (c1 c2 : ascii) :
  isHexDigit c1 = true -> isHexDigit c2 = true ->
  Buffer.byte_to_Z (pairByte c1 c2) = 16 * digit c1 + digit c2.
Proof.
  intros H1 H2.
  destruct (Parse.hexDigit_value c1 H1) as (_ & R1 & _).
  destruct (Parse.hexDigit_value c2 H2) as (_ & R2 & _).
  destruct (Parse.nibbles_of_pair (digit c1) (digit c2) R1 R2) as [Eh El].
  unfold pairByte in *.
  set (v := Buffer.byte_to_Z _) in *.
  rewrite (Z.div_mod v 16) by lia. rewrite Eh, El. reflexivity.
Qed.

Lemma hexPrefix_digit (c : ascii) (s : JS.str) (acc : Z) (seen : bool) :
  isHexDigit c = true ->
  Text.hexPrefix (c :: s) acc seen = Text.hexPrefix s (16 * acc + digit c) true.
Proof.
  intros H. cbn [Text.hexPrefix].
  rewrite (proj1 (Parse.hexDigit_value c H)). reflexivity.
Qed.

(** X18. On a text that [isValidGuid] accepts, the number that
    [isSequentialGuid] compares with the clock is the tick that
    [extractTimestamp] decodes from the same text: the verdict is whether
    that signed 32-bit number, taken as milliseconds since 1970, is less
    than one year away from the clock reading. *)
Theorem isSequentialGuid_reads_tick (text : JS.str) (w : World) :
  isValidGuid text = true ->
  exists t,
    decoded_tick text = JS.Ret t /\
    fst (isSequentialGuid text w) = (Z.abs (clock w (reads w) - t) <? ONE_YEAR).
Proof.
  intros V. unfold decoded_tick, guidToBuffer. rewrite V. cbn [negb JS.bind].
  unfold isSequentialGuid, Date_now. cbn [fst].
  apply Validator.isValidGuid_shape in V.
  destruct V as (a & b & c & d & e & -> & Ha & Hb & Hc & Hd & He).
  Parse.explode_group a Ha. Parse.explode_group b Hb. Parse.explode_group c Hc.
  Parse.explode_group d Hd. Parse.explode_group e He.
  repeat match goal with H : _ /\ _ |- _ => destruct H end.
  cbn [app].
  repeat ((rewrite Parse.removeAll_digit by assumption) || rewrite Codec.removeAll_drop).
  unfold JS.removeAll. cbn [filter].
  unfold Text.substring.
  cbn [length Nat.min Nat.max Nat.sub firstn skipn].
  rewrite !parseInt16_hex by assumption.
  repeat (rewrite hexPrefix_digit by assumption).
  cbn [Text.hexPrefix Text.operand]. rewrite !Z.mul_1_l.
  repeat (rewrite Parse.from_hex_pair by assumption).
  unfold Buffer.readUInt32BE, Buffer.readUInt16BE, Buffer.read_be.
  cbn [Buffer.from_hex length Nat.add Nat.leb JS.bind firstn skipn Buffer.be_value].
  rewrite !pairByte_value by assumption.
  eexists. split; [reflexivity|].
  do 3 f_equal. f_equal; [f_equal|]; ring.
Qed.

Lemma isSequentialGuid_reads_tick_witness :
  exists t,
    decoded_tick known_answer_text = JS.Ret t /\
    fst (isSequentialGuid known_answer_text sample_world)
    = (Z.abs (clock sample_world (reads sample_world) - t) <? ONE_YEAR).
Proof.
  apply (isSequentialGuid_reads_tick known_answer_text sample_world). reflexivity.
Defined.

End Heuristic.
